(** * Buddy allocator (buddy.c): shallow embedding and verification

    The allocator keeps a complete binary tree of 2-bit node statuses,
    packed four to a byte, at the front of the managed buffer.  This file
    embeds the C functions of [buddy.c] as Rocq functions over that byte
    array and proves properties of them.

    Modelling conventions.
    - The flexible array [tree[]] is the list of the [md_size] bytes that
      [buddy_from_buffer] zeroes; an access to a byte outside of it, and a
      shift of an [int] by a count outside of [0..31], are reported as
      [Fault].
    - Assertions are enabled; a failed [assert] is reported as [Abort].
    - Loops carry a fuel counter; running out of it is [OutOfFuel].  The
      entry points choose the fuel themselves and are shown to return on
      consistent pools ([buddy_alloc_returns], [buddy_free_returns]).
    - [unsigned] and [uint32_t] arithmetic wraps modulo [2^32]; a
      conversion to [int] is two's complement and [>>] on [int] is
      arithmetic.  [int] arithmetic that can leave the range of [int]
      wraps as well: [1 << self->level] is [INT_MIN] for a tree of depth
      31, and the offset of a block is its low 32 bits, as a signed
      number, on pools of more than [2^31] bytes.  The indices and
      lengths of the loops are kept in [Z]: on the paths that do not
      fault they stay inside the range of [int].
    - Pointers into the pool are byte offsets from [self->tree]. *)

From stdpp Require Import base list.
From Stdlib Require Import ZArith Lia Bool List Permutation.

Local Open Scope Z_scope.

(** ** Results of fallible code *)

Inductive res (A : Type) : Type :=
| Ok (a : A)
| Fault
| Abort
| OutOfFuel.

Arguments Ok {A} a.
Arguments Fault {A}.
Arguments Abort {A}.
Arguments OutOfFuel {A}.

Definition bind {A B : Type} (c : res A) (k : A -> res B) : res B :=
  match c with
  | Ok a => k a
  | Fault => Fault
  | Abort => Abort
  | OutOfFuel => OutOfFuel
  end.

Notation "'do' x <- c ; k" := (bind c (fun x => k))
  (at level 10, x name, c at level 100, k at level 200).

(** ** Node statuses *)

Definition NODE_UNUSED : Z := 0.
Definition NODE_USED : Z := 1.
Definition NODE_SPLIT : Z := 2.
Definition NODE_FULL : Z := 3.

(** ** The control block *)

Record buddy : Type := mkBuddy {
  min_level : Z;
  level : Z;
  destructor : bool;
  tree : list Z
}.

Definition with_tree (self : buddy) (t : list Z) : buddy :=
  mkBuddy (min_level self) (level self) (destructor self) t.

(** ** Status codec *)

(** [tree[k]], defined inside the tree bytes only. *)
Definition tree_byte (t : list Z) (k : Z) : option Z :=
  if k <? 0 then None else t !! Z.to_nat k.

Definition _get_index_status (t : list Z) (index : Z) : res Z :=
  match tree_byte t (Z.shiftr index 2) with
  | Some b => Ok (Z.land (Z.shiftr b (Z.land index 3 * 2)) 3)
  | None => Fault
  end.

Definition _set_index_status (t : list Z) (index status : Z) : res (list Z) :=
  match tree_byte t (Z.shiftr index 2) with
  | Some b =>
      let old := Z.land b (Z.lnot (Z.shiftl 3 (Z.land index 3 * 2))) mod 256 in
      Ok (<[Z.to_nat (Z.shiftr index 2) :=
              Z.lor old (Z.shiftl status (Z.land index 3 * 2)) mod 256]> t)
  | None => Fault
  end.

(** An index whose byte lies inside the tree. *)
Definition in_tree (t : list Z) (index : Z) : Prop :=
  0 <= index < 4 * Z.of_nat (length t).

Definition is_status (st : Z) : Prop := 0 <= st <= 3.

(** The status read at an index, [0] outside of the tree. *)
Definition status_of (t : list Z) (index : Z) : Z :=
  match _get_index_status t index with
  | Ok st => st
  | _ => 0
  end.

(** ** Sizing arithmetic *)

(** Conversion of an integer to [int] (two's complement, 32 bits). *)
Definition to_int (x : Z) : Z := (x + 2 ^ 31) mod 2 ^ 32 - 2 ^ 31.

(** [!(x & (x-1))] on [uint32_t]. *)
Definition is_pow_of_2 (x : Z) : bool :=
  Z.land x ((x - 1) mod 2 ^ 32) =? 0.

(** The portable branch of [next_pow_of_2], on [uint32_t]. *)
Definition next_pow_of_2 (x : Z) : Z :=
  if is_pow_of_2 x then x
  else
    let x := Z.lor x (Z.shiftr x 1) in
    let x := Z.lor x (Z.shiftr x 2) in
    let x := Z.lor x (Z.shiftr x 4) in
    let x := Z.lor x (Z.shiftr x 8) in
    let x := Z.lor x (Z.shiftr x 16) in
    (x + 1) mod 2 ^ 32.

(** The [__GNUC__] branch of [next_pow_of_2]:
    [0x80000000 >> (__builtin_clzl(x) - 1)].  [long_bits] is the width of
    [unsigned long]; the shift of the 32-bit constant is defined for counts
    [0..31] only. *)
Definition clzl (long_bits x : Z) : Z := long_bits - 1 - Z.log2 x.

Definition next_pow_of_2_gnuc (long_bits x : Z) : res Z :=
  if is_pow_of_2 x then Ok x
  else
    let count := clzl long_bits x - 1 in
    if (0 <=? count) && (count <? 32) then Ok (Z.shiftr (2 ^ 31) count)
    else Fault.

(** A shift count for which [<<] and [>>] on 32 bits are defined. *)
Definition shift_ok (count : Z) : bool := (0 <=? count) && (count <? 32).

(** Every operation of [_index_offset] is on [int]. *)
Definition _index_offset (min_lvl index lvl max_level : Z) : res Z :=
  if negb (shift_ok lvl && shift_ok (max_level - lvl) && shift_ok min_lvl)
  then Fault
  else
    let first := to_int (to_int (index + 1) - to_int (Z.shiftl 1 lvl)) in
    Ok (to_int (Z.shiftl (to_int (Z.shiftl first (max_level - lvl))) min_lvl)).

(** ** Allocation *)

Fixpoint mark_parent_loop (fuel : nat) (t : list Z) (index : Z) : res (list Z) :=
  match fuel with
  | O => OutOfFuel
  | S f =>
      let buddy := index - 1 + Z.land index 1 * 2 in
      if 0 <? buddy then
        do st <- _get_index_status t buddy;
        if (st =? NODE_USED) || (st =? NODE_FULL) then
          let index := (index + 1) ÷ 2 - 1 in
          do t' <- _set_index_status t index NODE_FULL;
          mark_parent_loop f t' index
        else Ok t
      else Ok t
  end.

Definition _mark_parent (t : list Z) (index : Z) : res (list Z) :=
  mark_parent_loop (Z.to_nat index + 1) t index.

(** Program points of the search loop of [buddy_alloc]: the loop head,
    the sibling test [if (index & 1)] and the ascending inner loop. *)
Inductive pc : Type := AtHead | AtBack | AtAscend.

Fixpoint alloc_loop (fuel : nat) (size min_lvl max_level : Z) (t : list Z)
    (p : pc) (index lvl length : Z) : res (option Z * list Z) :=
  match fuel with
  | O => OutOfFuel
  | S f =>
      match p with
      | AtHead =>
          if index <? 0 then Ok (None, t)
          else if size =? length then
            do st <- _get_index_status t index;
            if st =? NODE_UNUSED then
              do t1 <- _set_index_status t index NODE_USED;
              do t2 <- _mark_parent t1 index;
              do off <- _index_offset min_lvl index lvl max_level;
              Ok (Some off, t2)
            else alloc_loop f size min_lvl max_level t AtBack index lvl length
          else
            do st <- _get_index_status t index;
            if (st =? NODE_USED) || (st =? NODE_FULL) then
              alloc_loop f size min_lvl max_level t AtBack index lvl length
            else if st =? NODE_UNUSED then
              do t1 <- _set_index_status t index NODE_SPLIT;
              do t2 <- _set_index_status t1 (index * 2 + 1) NODE_UNUSED;
              do t3 <- _set_index_status t2 (index * 2 + 2) NODE_UNUSED;
              alloc_loop f size min_lvl max_level t3 AtHead
                (index * 2 + 1) (lvl + 1) (length ÷ 2)
            else
              alloc_loop f size min_lvl max_level t AtHead
                (index * 2 + 1) (lvl + 1) (length ÷ 2)
      | AtBack =>
          if negb (Z.land index 1 =? 0) then
            alloc_loop f size min_lvl max_level t AtHead (index + 1) lvl length
          else alloc_loop f size min_lvl max_level t AtAscend index lvl length
      | AtAscend =>
          let lvl := lvl - 1 in
          let length := length * 2 in
          let index := (index + 1) ÷ 2 - 1 in
          if index <? 0 then Ok (None, t)
          else if negb (Z.land index 1 =? 0) then
            alloc_loop f size min_lvl max_level t AtHead (index + 1) lvl length
          else alloc_loop f size min_lvl max_level t AtAscend index lvl length
      end
  end.

(** [(size_t) x] for an [int] [x], with a [size_t] of 64 bits. *)
Definition to_size_t (x : Z) : Z := x mod 2 ^ 64.

(** The allocation unit computed from the requested byte count.  In the
    comparison [1 << self->min_level] is converted to [size_t]; the width
    of [size_t] matters for [min_level = 31] only, where the shift gives
    [INT_MIN], and blocks of [2^31] bytes need a [size_t] of 64 bits. *)
Definition alloc_size (self : buddy) (s : Z) : Z :=
  if s <=? to_size_t (to_int (Z.shiftl 1 (min_level self))) then 1
  else Z.shiftr (to_int (next_pow_of_2 (s mod 2 ^ 32))) (min_level self).

Definition alloc_fuel (self : buddy) : nat := Z.to_nat (2 ^ (level self + 2)).

Definition buddy_alloc (self : buddy) (s : Z) : res (option Z * buddy) :=
  if negb (shift_ok (min_level self) && shift_ok (level self)) then Fault
  else
    let size := alloc_size self s in
    let length := to_int (Z.shiftl 1 (level self)) in
    if length <? size then Ok (None, self)
    else
      do r <- alloc_loop (alloc_fuel self) size (min_level self) (level self)
                (tree self) AtHead 0 0 length;
      Ok (fst r, with_tree self (snd r)).

(** ** Construction *)

(** [self->level] is [unsigned]: the difference wraps.  For a difference
    of 32, [md_size] is [INT_MIN] and [memset] runs far beyond the buffer;
    above that the shift is undefined. *)
Definition buddy_from_buffer (lvl min_lvl : Z) (dtor : bool) : res (option buddy) :=
  let self_level := (lvl - min_lvl) mod 2 ^ 32 in
  if (self_level <? 2) || (min_lvl <? 4) then Ok None
  else if 30 <? self_level - 1 then Fault
  else
    let md_size := Z.shiftl 1 (self_level - 1) in
    let self := mkBuddy min_lvl self_level dtor (replicate (Z.to_nat md_size) 0) in
    do r <- buddy_alloc self md_size;
    Ok (Some (snd r)).

(** [malloc_ok] tells whether [malloc] returned a buffer for the size
    [1 << level]. *)
Definition buddy_new (lvl min_lvl : Z) (malloc_ok : bool) : res (option buddy) :=
  if 31 <? lvl then Fault
  else if negb malloc_ok then Ok None
  else buddy_from_buffer lvl min_lvl true.

(** ** Release *)

Fixpoint demote_loop (fuel : nat) (t : list Z) (index : Z) : res (list Z) :=
  match fuel with
  | O => OutOfFuel
  | S f =>
      let index := (index + 1) ÷ 2 - 1 in
      if 0 <=? index then
        do st <- _get_index_status t index;
        if st =? NODE_FULL then
          do t' <- _set_index_status t index NODE_SPLIT;
          demote_loop f t' index
        else Ok t
      else Ok t
  end.

Fixpoint combine_loop (fuel : nat) (t : list Z) (index : Z) : res (list Z) :=
  match fuel with
  | O => OutOfFuel
  | S f =>
      let buddy := index - 1 + Z.land index 1 * 2 in
      do stop <- (if buddy <? 0 then Ok true
                  else do st <- _get_index_status t buddy;
                       Ok (negb (st =? NODE_UNUSED)));
      if stop : bool then
        do t' <- _set_index_status t index NODE_UNUSED;
        demote_loop (Z.to_nat index + 1) t' index
      else combine_loop f t ((index + 1) ÷ 2 - 1)
  end.

Definition _combine (t : list Z) (index : Z) : res (list Z) :=
  combine_loop (Z.to_nat index + 1) t index.

Fixpoint free_loop (fuel : nat) (t : list Z) (offset left length index : Z)
    : res (list Z) :=
  match fuel with
  | O => OutOfFuel
  | S f =>
      do st <- _get_index_status t index;
      if st =? NODE_USED then
        if offset =? left then _combine t index else Abort
      else if st =? NODE_UNUSED then Abort
      else
        let length := length ÷ 2 in
        if offset <? left + length then
          free_loop f t offset left length (index * 2 + 1)
        else free_loop f t offset (left + length) length (index * 2 + 2)
  end.

(** [ptr] is the byte distance [(uintptr_t) ptr - (uintptr_t) self->tree];
    it is shifted as a [uintptr_t], and [offset] is what is left of the
    result in an [int].  [1 << self->level] is an [int]. *)
Definition buddy_free (self : buddy) (ptr : Z) : res buddy :=
  if negb (shift_ok (level self)) then Fault
  else
    let offset := to_int (Z.shiftr ptr (min_level self)) in
    let length := to_int (Z.shiftl 1 (level self)) in
    if negb ((0 <=? offset) && (offset <? length)) then Abort
    else
      do t' <- free_loop (4 * List.length (tree self) + 1)%nat (tree self)
                 offset 0 length 0;
      Ok (with_tree self t').


(** * The tree the statuses denote

    A node is part of the tree only while every node above it is SPLIT or
    FULL; what the bytes hold beneath an UNUSED or USED node is not read
    by any operation until the node is split again. *)

Inductive shape : Type :=
| Free
| Used
| Split (full : bool) (l r : shape).

(** The tree below [index], [d] levels deep. *)
Fixpoint shape_at (d : nat) (t : list Z) (index : Z) : shape :=
  let st := status_of t index in
  if st =? NODE_UNUSED then Free
  else if st =? NODE_USED then Used
  else
    match d with
    | O => Split (st =? NODE_FULL) Free Free
    | S d' =>
        Split (st =? NODE_FULL)
          (shape_at d' t (index * 2 + 1)) (shape_at d' t (index * 2 + 2))
    end.

(** Node [i] is part of the tree below [root], [d] levels deep: every node
    from [root] down to the parent of [i] is SPLIT or FULL. *)
Fixpoint visible (d : nat) (t : list Z) (root i : Z) : Prop :=
  i = root \/
  match d with
  | O => False
  | S d' =>
      (status_of t root = NODE_SPLIT \/ status_of t root = NODE_FULL) /\
      (visible d' t (root * 2 + 1) i \/ visible d' t (root * 2 + 2) i)
  end.

Definition is_full (sh : shape) : bool :=
  match sh with
  | Free => false
  | Used => true
  | Split f _ _ => f
  end.

Definition is_free (sh : shape) : bool :=
  match sh with
  | Free => true
  | _ => false
  end.

(** Free capacity beneath a node. *)
Fixpoint has_free (sh : shape) : bool :=
  match sh with
  | Free => true
  | Used => false
  | Split _ l r => has_free l || has_free r
  end.

(** Consistency of a tree [d] levels deep: no split at the deepest level,
    a split node is FULL exactly when both children are USED or FULL, and
    two free buddies are always merged. *)
Fixpoint wf_shape (d : nat) (sh : shape) {struct sh} : bool :=
  match sh with
  | Free | Used => true
  | Split f l r =>
      match d with
      | O => false
      | S d' =>
          Bool.eqb f (is_full l && is_full r)
          && negb (is_free l && is_free r)
          && wf_shape d' l && wf_shape d' r
      end
  end.

(** The allocated blocks, as (offset, size) in minimum-block units, of a
    tree [d] levels deep whose block starts at [left]. *)
Fixpoint live (d : nat) (left : Z) (sh : shape) {struct sh} : list (Z * Z) :=
  match sh with
  | Free => []
  | Used => [(left, 2 ^ Z.of_nat d)]
  | Split _ l r =>
      match d with
      | O => []
      | S d' => live d' left l ++ live d' (left + 2 ^ Z.of_nat d') r
      end
  end.

(** The search of [buddy_alloc] on the denoted tree: leftmost UNUSED node
    of [size] units, splitting on the way. *)
Fixpoint alloc_sh (d : nat) (size left : Z) (sh : shape)
    : res (option (shape * Z)) :=
  if size =? 2 ^ Z.of_nat d then
    match sh with
    | Free => Ok (Some (Used, left))
    | _ => Ok None
    end
  else
    match sh with
    | Used => Ok None
    | Split true _ _ => Ok None
    | Free =>
        match d with
        | O => Fault
        | S d' =>
            do r <- alloc_sh d' size left Free;
            match r with
            | Some (l', off) => Ok (Some (Split false l' Free, off))
            | None => Ok None
            end
        end
    | Split false l r =>
        match d with
        | O => Fault
        | S d' =>
            do rl <- alloc_sh d' size left l;
            match rl with
            | Some (l', off) => Ok (Some (Split (is_full l' && is_full r) l' r, off))
            | None =>
                do rr <- alloc_sh d' size (left + 2 ^ Z.of_nat d') r;
                match rr with
                | Some (r', off) =>
                    Ok (Some (Split (is_full l && is_full r') l r', off))
                | None => Ok None
                end
            end
        end
    end.

Definition merge (l r : shape) : shape :=
  if is_free l && is_free r then Free else Split false l r.

(** The release of the block at [off] on the denoted tree; [None] where
    [buddy_free] fails an assertion. *)
Fixpoint free_sh (d : nat) (left off : Z) (sh : shape) {struct sh}
    : option shape :=
  match sh with
  | Free => None
  | Used => if off =? left then Some Free else None
  | Split _ l r =>
      match d with
      | O => None
      | S d' =>
          if off <? left + 2 ^ Z.of_nat d' then
            match free_sh d' left off l with
            | Some l' => Some (merge l' r)
            | None => None
            end
          else
            match free_sh d' (left + 2 ^ Z.of_nat d') off r with
            | Some r' => Some (merge l r')
            | None => None
            end
      end
  end.

(** Depth of the tree of a pool and the tree it denotes. *)
Definition depth (self : buddy) : nat := Z.to_nat (level self).

Definition pool_shape (self : buddy) : shape :=
  shape_at (depth self) (tree self) 0.

(** The allocated blocks of a pool as (byte offset, byte size). *)
Definition to_bytes (min_lvl : Z) (b : Z * Z) : Z * Z :=
  (Z.shiftl (fst b) min_lvl, Z.shiftl (snd b) min_lvl).

Definition pool_live (self : buddy) : list (Z * Z) :=
  map (to_bytes (min_level self)) (live (depth self) 0 (pool_shape self)).

(** The consistency invariant of a pool, for a tree of depth at most 30
    (where [1 << self->level] is positive). *)
Definition pool_ok (self : buddy) : Prop :=
  0 <= min_level self <= 31 /\ 1 <= level self <= 30 /\
  4 * Z.of_nat (length (tree self)) = 2 ^ (level self + 1) /\
  wf_shape (depth self) (pool_shape self) = true.

(** The pool of a tree of depth 31: [1 << self->level] is [INT_MIN], so
    that every request is refused, the reservation of the tree included,
    and every release fails its first assertion. *)
Definition pool_refusing (self : buddy) : Prop :=
  level self = 31 /\ 4 <= min_level self <= 31 /\
  status_of (tree self) 0 = NODE_UNUSED.

(** Bound on the steps of the search loop below a node [d] levels deep. *)
Fixpoint cost (d : nat) : nat :=
  match d with
  | O => 1
  | S d' => 2 * cost d' + 3
  end.

(** The nodes of the subtree of [root], [d] levels deep. *)
Definition in_sub (d : nat) (root i : Z) : Prop :=
  exists k, 0 <= k <= Z.of_nat d /\
    (root + 1) * 2 ^ k <= i + 1 < (root + 2) * 2 ^ k.

Definition same_outside (d : nat) (root : Z) (t t' : list Z) : Prop :=
  length t' = length t /\
  forall j, 0 <= j -> ~ in_sub d root j -> status_of t' j = status_of t j.

Definition demote (t : list Z) (index : Z) : res (list Z) :=
  demote_loop (Z.to_nat index + 1) t index.

(** A node [index] of level [lvl] in a tree of depth [maxl], with [d]
    levels below it. *)
Definition node_at (maxl : Z) (t : list Z) (d : nat) (index lvl : Z) : Prop :=
  0 <= lvl /\ lvl + Z.of_nat d = maxl /\
  2 ^ lvl <= index + 1 < 2 ^ (lvl + 1) /\
  4 * Z.of_nat (length t) = 2 ^ (maxl + 1).

(** What the search loop does from the head of a node, against the search
    on the tree the node denotes. *)
Definition alloc_outcome (size minl maxl : Z) (d : nat) (t : list Z)
    (index lvl : Z) : Prop :=
  match alloc_sh d size ((index + 1 - 2 ^ lvl) * 2 ^ Z.of_nat d)
          (shape_at d t index) with
  | Ok None =>
      exists c, (c <= cost d)%nat /\
        forall f,
          alloc_loop (c + S f) size minl maxl t AtHead index lvl (2 ^ Z.of_nat d)
          = alloc_loop (S f) size minl maxl t AtBack index lvl (2 ^ Z.of_nat d)
  | Ok (Some (sh', off)) =>
      exists c t1, (c <= cost d)%nat /\
        shape_at d t1 index = sh' /\ same_outside d index t t1 /\
        forall f,
          alloc_loop (c + S f) size minl maxl t AtHead index lvl (2 ^ Z.of_nat d)
          = do t2 <- (if is_full sh' then _mark_parent t1 index else Ok t1);
            Ok (Some (to_int (Z.shiftl off minl)), t2)
  | Fault =>
      exists c, (c <= cost d)%nat /\
        forall f,
          alloc_loop (c + S f) size minl maxl t AtHead index lvl (2 ^ Z.of_nat d)
          = Fault
  | _ => False
  end.

(** What the descent of [buddy_free] does from a node, against the release
    on the tree the node denotes. *)
Definition free_outcome (d : nat) (t : list Z) (offset left index : Z) : Prop :=
  match free_sh d left offset (shape_at d t index) with
  | None =>
      forall f, (d < f)%nat ->
        free_loop f t offset left (2 ^ Z.of_nat d) index = Abort
  | Some sh' =>
      if is_free sh' then
        forall f, (d < f)%nat ->
          free_loop f t offset left (2 ^ Z.of_nat d) index = _combine t index
      else
        exists t1,
          shape_at d t1 index = sh' /\ same_outside d index t t1 /\
          forall f, (d < f)%nat ->
            free_loop f t offset left (2 ^ Z.of_nat d) index
            = if is_full (shape_at d t index) then demote t1 index else Ok t1
  end.

(** * Sequences of calls *)

(** Pool states reached from a constructed pool by calls that return. *)
Inductive reachable : buddy -> Prop :=
| reach_new (lvl min_lvl : Z) (dtor : bool) (p : buddy) :
    buddy_from_buffer lvl min_lvl dtor = Ok (Some p) -> reachable p
| reach_alloc (p : buddy) (s : Z) (r : option Z) (p' : buddy) :
    reachable p -> buddy_alloc p s = Ok (r, p') -> reachable p'
| reach_free (p : buddy) (ptr : Z) (p' : buddy) :
    reachable p -> buddy_free p ptr = Ok p' -> reachable p'.

(** The consistency of the tree in the words of the specification: a FULL
    node has no free capacity beneath it, a SPLIT node has some, and no node
    of the deepest level is SPLIT or FULL. *)
Fixpoint consistent (d : nat) (sh : shape) {struct sh} : Prop :=
  match sh with
  | Free | Used => True
  | Split f l r =>
      match d with
      | O => False
      | S d' =>
          (f = true -> has_free l = false /\ has_free r = false) /\
          (f = false -> has_free l = true \/ has_free r = true) /\
          consistent d' l /\ consistent d' r
      end
  end.

(** The byte size of the block that serves a request of [s] bytes. *)
Definition block_size (self : buddy) (s : Z) : Z :=
  Z.shiftl (alloc_size self s) (min_level self).

(** A caller's view: [session p held] when [p] is reached, from a
    constructed pool of at most [2^30] bytes, by requests of at most
    [2^30] bytes and by calls of [buddy_free] on the offset of a block
    that the caller holds; [held] lists the blocks returned by
    [buddy_alloc] and not yet released, as (byte offset, byte size). *)
Inductive session : buddy -> list (Z * Z) -> Prop :=
| sess_new (lvl min_lvl : Z) (dtor : bool) (p : buddy) :
    buddy_from_buffer lvl min_lvl dtor = Ok (Some p) ->
    level p + min_level p <= 30 -> session p []
| sess_alloc (p : buddy) (held : list (Z * Z)) (s off : Z) (p' : buddy) :
    session p held -> 0 <= s <= 2 ^ 30 ->
    buddy_alloc p s = Ok (Some off, p') ->
    session p' ((off, block_size p s) :: held)
| sess_alloc_null (p : buddy) (held : list (Z * Z)) (s : Z) (p' : buddy) :
    session p held -> 0 <= s <= 2 ^ 30 ->
    buddy_alloc p s = Ok (None, p') -> session p' held
| sess_free (p : buddy) (held1 held2 : list (Z * Z)) (off sz : Z) (p' : buddy) :
    session p (held1 ++ (off, sz) :: held2) -> buddy_free p off = Ok p' ->
    session p' (held1 ++ held2).

(** A run of allocations that all succeed, with the offsets returned. *)
Fixpoint alloc_all (self : buddy) (sizes : list Z) : option (list Z * buddy) :=
  match sizes with
  | [] => Some ([], self)
  | s :: rest =>
      match buddy_alloc self s with
      | Ok (Some off, self') =>
          match alloc_all self' rest with
          | Some (offs, p) => Some (off :: offs, p)
          | None => None
          end
      | _ => None
      end
  end.

Fixpoint free_all (self : buddy) (ptrs : list Z) : res buddy :=
  match ptrs with
  | [] => Ok self
  | ptr :: rest => do self' <- buddy_free self ptr; free_all self' rest
  end.

(** Unit [u] is the first unit of an allocated block of the pool. *)
Definition starts_block (self : buddy) (u : Z) : Prop :=
  exists sz, In (u, sz) (live (depth self) 0 (pool_shape self)).

(** * Index arithmetic of the upward loops *)

Definition parent (i : Z) : Z := (i + 1) ÷ 2 - 1.

Definition buddy_of (i : Z) : Z := i - 1 + Z.land i 1 * 2.

(** The [k]-th node above [i] ([-1] above the root). *)
Fixpoint ancestor (k : nat) (i : Z) : Z :=
  match k with
  | O => i
  | S k' => parent (ancestor k' i)
  end.

(** The FULL nodes above [stop] that a release turns into SPLIT: the first
    [m] of them, the next one being absent or not FULL. *)
Definition demoted (t t' : list Z) (stop : Z) (m : nat) : Prop :=
  (forall j, (1 <= j <= m)%nat ->
     0 <= ancestor j stop /\
     status_of t (ancestor j stop) = NODE_FULL /\
     status_of t' (ancestor j stop) = NODE_SPLIT) /\
  (ancestor (S m) stop < 0 \/ status_of t (ancestor (S m) stop) <> NODE_FULL).

(** The levels that a release merges: the buddies of the first [k] nodes
    on the way up are UNUSED, the next one is absent or not UNUSED. *)
Definition merged (t : list Z) (index : Z) (k : nat) : Prop :=
  (forall j, (j < k)%nat ->
     0 <= buddy_of (ancestor j index) /\
     status_of t (buddy_of (ancestor j index)) = NODE_UNUSED) /\
  (buddy_of (ancestor k index) < 0 \/
   status_of t (buddy_of (ancestor k index)) <> NODE_UNUSED).

(** Every status but those of [stop] and of the [m] nodes above it is kept. *)
Definition others_kept (t t' : list Z) (stop : Z) (m : nat) : Prop :=
  length t' = length t /\
  forall x, 0 <= x -> x <> stop ->
    (forall j, (1 <= j <= m)%nat -> x <> ancestor j stop) ->
    status_of t' x = status_of t x.

(** * Example pools *)

(** The pool built by [buddy_from_buffer 7 4]: 128 bytes, 16-byte blocks,
    a tree of 15 nodes in 4 bytes, reserved by the block at offset 0. *)
Definition pool_7_4 : buddy := mkBuddy 4 3 false [138; 64; 0; 0].

(** [pool_7_4] after [buddy_alloc 16] (offset 16). *)
Definition pool_7_4_a : buddy := mkBuddy 4 3 false [202; 64; 1; 0].

(** [pool_7_4_a] after a second [buddy_alloc 16] (offset 32). *)
Definition pool_7_4_b : buddy := mkBuddy 4 3 false [202; 66; 5; 0].

(** The pool built by [buddy_from_buffer 6 4]: 64 bytes, a tree of 7 nodes
    in 2 bytes. *)
Definition pool_6_4 : buddy := mkBuddy 4 2 false [74; 0].

(** * Further vocabulary *)

(** [buddy_destroy]: tells whether the destructor of the pool is called
    (on the pool itself, which is the start of the buffer). *)
Definition buddy_destroy (self : buddy) : bool :=
  if destructor self then true else false.

(** The elements of a [uint8_t] array. *)
Definition bytes_ok (t : list Z) : Prop := Forall (fun b => 0 <= b < 256) t.

(** No block of [L] meets the [sz] bytes (or units) from [a]. *)
Definition free_at (L : list (Z * Z)) (a sz : Z) : Prop :=
  forall b, In b L -> fst b + snd b <= a \/ a + sz <= fst b.

(** The sizes of the blocks of [L], added up. *)
Definition total (L : list (Z * Z)) : Z :=
  fold_right (fun b acc => snd b + acc) 0 L.

(** A status that makes [_mark_parent] go on upwards. *)
Definition taken (st : Z) : Prop := st = NODE_USED \/ st = NODE_FULL.

(** The nodes above [i] that an allocation marks FULL: the buddies of the
    first [m] nodes on the way up are USED or FULL and the parents are
    written FULL; the next buddy is absent or neither USED nor FULL. *)
Definition promoted (t t' : list Z) (i : Z) (m : nat) : Prop :=
  (forall j, (j < m)%nat ->
     0 < buddy_of (ancestor j i) /\
     taken (status_of t (buddy_of (ancestor j i))) /\
     status_of t' (ancestor (S j) i) = NODE_FULL) /\
  (buddy_of (ancestor m i) <= 0 \/
   ~ taken (status_of t (buddy_of (ancestor m i)))).

(** Pools reached from [p0] by calls of [buddy_alloc] and [buddy_free]
    that return. *)
Inductive calls (p0 : buddy) : buddy -> Prop :=
| calls_none : calls p0 p0
| calls_alloc (p : buddy) (s : Z) (r : option Z) (p' : buddy) :
    calls p0 p -> buddy_alloc p s = Ok (r, p') -> calls p0 p'
| calls_free (p : buddy) (ptr : Z) (p' : buddy) :
    calls p0 p -> buddy_free p ptr = Ok p' -> calls p0 p'.

(** The consistency of a SPLIT or FULL node [i] with its children, on the
    statuses: FULL exactly when both children are USED or FULL, and never
    two UNUSED children. *)
Definition node_ok (t : list Z) (i : Z) : Prop :=
  (status_of t i = NODE_FULL <->
   taken (status_of t (i * 2 + 1)) /\ taken (status_of t (i * 2 + 2))) /\
  ~ (status_of t (i * 2 + 1) = NODE_UNUSED /\
     status_of t (i * 2 + 2) = NODE_UNUSED).
(** * Properties *)

(** *** Codec lemmas *)

Lemma land3_mod (i : Z) : Z.land i 3 = i mod 4.
Proof. exact (Z.land_ones i 2 ltac:(lia)). Qed.

Lemma land3_cases (i : Z) :
  Z.land i 3 = 0 \/ Z.land i 3 = 1 \/ Z.land i 3 = 2 \/ Z.land i 3 = 3.
Proof.
  rewrite land3_mod. pose proof (Z.mod_pos_bound i 4 ltac:(lia)). lia.
Qed.

Lemma index_split (i : Z) : i = 4 * Z.shiftr i 2 + Z.land i 3.
Proof.
  rewrite land3_mod, Z.shiftr_div_pow2 by lia. change (2 ^ 2) with 4.
  apply Z.div_mod. lia.
Qed.

Lemma tree_byte_in (t : list Z) (i : Z) :
  in_tree t i -> exists b, tree_byte t (Z.shiftr i 2) = Some b.
Proof.
  intros [H0 H1]. unfold tree_byte.
  pose proof (index_split i) as Hs. pose proof (land3_cases i) as Hc.
  assert (0 <= Z.shiftr i 2) by (apply Z.shiftr_nonneg; lia).
  destruct (Z.ltb_spec (Z.shiftr i 2) 0); [lia|].
  apply lookup_lt_is_Some_2. lia.
Qed.

Lemma tree_byte_out (t : list Z) (i : Z) :
  ~ in_tree t i -> tree_byte t (Z.shiftr i 2) = None.
Proof.
  intros Hn. unfold tree_byte, in_tree in *.
  pose proof (index_split i) as Hs. pose proof (land3_cases i) as Hc.
  destruct (Z.ltb_spec (Z.shiftr i 2) 0); [done|].
  apply lookup_ge_None_2. lia.
Qed.

Lemma get_in_tree (t : list Z) (i : Z) :
  in_tree t i -> _get_index_status t i = Ok (status_of t i).
Proof.
  intros H. unfold status_of, _get_index_status.
  destruct (tree_byte_in t i H) as [b ->]. reflexivity.
Qed.

Lemma get_out_tree (t : list Z) (i : Z) :
  ~ in_tree t i -> _get_index_status t i = Fault.
Proof.
  intros H. unfold _get_index_status. now rewrite tree_byte_out.
Qed.

Lemma status_of_range (t : list Z) (i : Z) : is_status (status_of t i).
Proof.
  unfold status_of, _get_index_status, is_status.
  destruct (tree_byte t (Z.shiftr i 2)) as [b|]; [|lia].
  rewrite (land3_mod (Z.shiftr b _)).
  pose proof (Z.mod_pos_bound (Z.shiftr b (Z.land i 3 * 2)) 4 ltac:(lia)). lia.
Qed.

Lemma set_in_tree (t : list Z) (i st : Z) :
  in_tree t i -> exists t', _set_index_status t i st = Ok t' /\ length t' = length t.
Proof.
  intros H. unfold _set_index_status.
  destruct (tree_byte_in t i H) as [b ->].
  eexists. split; [reflexivity|]. apply length_insert.
Qed.

Lemma set_out_tree (t : list Z) (i st : Z) :
  ~ in_tree t i -> _set_index_status t i st = Fault.
Proof.
  intros H. unfold _set_index_status. now rewrite tree_byte_out.
Qed.

Lemma set_length (t t' : list Z) (i st : Z) :
  _set_index_status t i st = Ok t' -> length t' = length t.
Proof.
  unfold _set_index_status. destruct (tree_byte t (Z.shiftr i 2)); [|done].
  intros [= <-]. apply length_insert.
Qed.

(** Two bits of a byte after the read-modify-write of one slot. *)
Lemma slot_same (b st sh : Z) :
  is_status st -> sh = 0 \/ sh = 2 \/ sh = 4 \/ sh = 6 ->
  Z.land (Z.shiftr (Z.lor (Z.land b (Z.lnot (Z.shiftl 3 sh)) mod 256)
                          (Z.shiftl st sh) mod 256) sh) 3 = st.
Proof.
  intros Hst Hsh.
  rewrite land3_mod. change 256 with (2 ^ 8). change 4 with (2 ^ 2).
  assert (Hm : st = st mod 2 ^ 2) by (symmetry; apply Z.mod_small; unfold is_status in Hst; lia).
  rewrite Hm at 2.
  apply Z.bits_inj'. intros n Hn.
  rewrite !Z.testbit_mod_pow2 by lia.
  destruct (Z.ltb_spec n 2); [|reflexivity]. simpl.
  rewrite Z.shiftr_spec by lia.
  rewrite Z.testbit_mod_pow2 by lia.
  rewrite Z.lor_spec, Z.testbit_mod_pow2 by lia.
  rewrite Z.land_spec, Z.lnot_spec by lia.
  rewrite !Z.shiftl_spec by lia.
  replace (n + sh - sh) with n by lia.
  change 3 with (Z.ones 2). rewrite Z.ones_spec_low by lia.
  destruct (Z.ltb_spec (n + sh) 8); [|lia].
  simpl. now rewrite andb_false_r.
Qed.

Lemma slot_other (b st sh sh' : Z) :
  is_status st -> sh = 0 \/ sh = 2 \/ sh = 4 \/ sh = 6 ->
  sh' = 0 \/ sh' = 2 \/ sh' = 4 \/ sh' = 6 -> sh <> sh' ->
  Z.land (Z.shiftr (Z.lor (Z.land b (Z.lnot (Z.shiftl 3 sh)) mod 256)
                          (Z.shiftl st sh) mod 256) sh') 3
  = Z.land (Z.shiftr b sh') 3.
Proof.
  intros Hst Hsh Hsh' Hne.
  rewrite !land3_mod. change 256 with (2 ^ 8). change 4 with (2 ^ 2).
  assert (Hm : st = st mod 2 ^ 2) by (symmetry; apply Z.mod_small; unfold is_status in Hst; lia).
  apply Z.bits_inj'. intros n Hn.
  rewrite !Z.testbit_mod_pow2 by lia.
  destruct (Z.ltb_spec n 2); [|reflexivity]. simpl.
  rewrite !Z.shiftr_spec by lia.
  rewrite Z.testbit_mod_pow2 by lia.
  rewrite Z.lor_spec, Z.testbit_mod_pow2 by lia.
  rewrite Z.land_spec, Z.lnot_spec by lia.
  destruct (Z.ltb_spec (n + sh') 8); [|lia]. simpl.
  assert (Hs0 : Z.testbit (Z.shiftl st sh) (n + sh') = false).
  { destruct (Z.ltb_spec (n + sh') sh).
    - apply Z.shiftl_spec_low. lia.
    - rewrite Z.shiftl_spec by lia. rewrite Hm.
      rewrite Z.testbit_mod_pow2 by lia.
      destruct (Z.ltb_spec (n + sh' - sh) 2); [lia|reflexivity]. }
  assert (Hs3 : Z.testbit (Z.shiftl 3 sh) (n + sh') = false).
  { destruct (Z.ltb_spec (n + sh') sh).
    - apply Z.shiftl_spec_low. lia.
    - rewrite Z.shiftl_spec by lia. change 3 with (Z.ones 2).
      apply Z.ones_spec_high. lia. }
  rewrite Hs0, Hs3. simpl. now rewrite orb_false_r, andb_true_r.
Qed.

Lemma shift_cases (i : Z) :
  Z.land i 3 * 2 = 0 \/ Z.land i 3 * 2 = 2 \/ Z.land i 3 * 2 = 4 \/ Z.land i 3 * 2 = 6.
Proof. pose proof (land3_cases i). lia. Qed.

Lemma status_set_same (t t' : list Z) (i st : Z) :
  is_status st -> _set_index_status t i st = Ok t' -> status_of t' i = st.
Proof.
  intros Hst. unfold _set_index_status, status_of, _get_index_status, tree_byte.
  destruct (Z.ltb_spec (Z.shiftr i 2) 0); [done|].
  destruct (t !! Z.to_nat (Z.shiftr i 2)) as [b|] eqn:Hb; [|done].
  intros [= <-].
  rewrite list_lookup_insert_eq by (eapply lookup_lt_Some; eauto).
  apply slot_same; [assumption | apply shift_cases].
Qed.

Lemma status_set_other (t t' : list Z) (i j st : Z) :
  is_status st -> 0 <= j -> i <> j ->
  _set_index_status t i st = Ok t' -> status_of t' j = status_of t j.
Proof.
  intros Hst Hj Hne. unfold _set_index_status, status_of, _get_index_status, tree_byte.
  destruct (Z.ltb_spec (Z.shiftr i 2) 0); [done|].
  destruct (t !! Z.to_nat (Z.shiftr i 2)) as [b|] eqn:Hb; [|done].
  intros [= <-].
  assert (0 <= Z.shiftr j 2) by (apply Z.shiftr_nonneg; lia).
  destruct (Z.ltb_spec (Z.shiftr j 2) 0); [lia|].
  destruct (Z.eq_dec (Z.shiftr i 2) (Z.shiftr j 2)) as [He|He].
  - rewrite <- He.
    rewrite list_lookup_insert_eq by (eapply lookup_lt_Some; eauto).
    rewrite Hb. apply slot_other; [assumption | apply shift_cases | apply shift_cases |].
    pose proof (index_split i). pose proof (index_split j). lia.
  - rewrite list_lookup_insert_ne by lia. reflexivity.
Qed.

(** ** Status codec *)

Lemma set_ok_in_tree (t t' : list Z) (i st : Z) :
  _set_index_status t i st = Ok t' -> in_tree t i.
Proof.
  intros H. destruct (Z.le_gt_cases 0 i) as [H0|H0];
    [destruct (Z.lt_ge_cases i (4 * Z.of_nat (length t))) as [H1|H1]|].
  - split; assumption.
  - rewrite set_out_tree in H; [discriminate | unfold in_tree; lia].
  - rewrite set_out_tree in H; [discriminate | unfold in_tree; lia].
Qed.

Lemma in_tree_length (t t' : list Z) (i : Z) :
  length t' = length t -> in_tree t i -> in_tree t' i.
Proof. unfold in_tree. intros ->. tauto. Qed.

Lemma get_set_same (t t' : list Z) (i st : Z) :
  is_status st -> _set_index_status t i st = Ok t' ->
  _get_index_status t' i = Ok st.
Proof.
  intros Hst H.
  rewrite get_in_tree
    by (eapply in_tree_length; [eapply set_length; eauto | eapply set_ok_in_tree; eauto]).
  f_equal. eapply status_set_same; eauto.
Qed.

(** C9: a status written with [_set_index_status] is the one read back,
    every other index in the tree reads as before, and no byte other than
    byte [index >> 2] changes. *)
Theorem set_then_get_status (t : list Z) (i st : Z) :
  in_tree t i -> is_status st ->
  exists t',
    _set_index_status t i st = Ok t' /\
    _get_index_status t' i = Ok st /\
    (forall j, in_tree t j -> j <> i ->
       _get_index_status t' j = _get_index_status t j) /\
    (forall k : nat, k <> Z.to_nat (Z.shiftr i 2) -> t' !! k = t !! k) /\
    length t' = length t.
Proof.
  intros Hi Hst.
  destruct (set_in_tree t i st Hi) as (t' & Hset & Hlen).
  exists t'. split; [assumption|]. split; [|split; [|split]].
  - eapply get_set_same; eauto.
  - intros j Hj Hne.
    rewrite !get_in_tree by (try eapply in_tree_length; eauto).
    f_equal. eapply status_set_other; eauto. destruct Hj; lia.
  - intros k Hk. unfold _set_index_status in Hset.
    destruct (tree_byte t (Z.shiftr i 2)); [|discriminate].
    injection Hset as <-. apply list_lookup_insert_ne. congruence.
  - assumption.
Qed.

Lemma set_then_get_status_witness :
  exists t',
    _set_index_status [138; 64; 0; 0] 9 NODE_USED = Ok t' /\
    _get_index_status t' 9 = Ok NODE_USED /\
    (forall j, in_tree [138; 64; 0; 0] j -> j <> 9 ->
       _get_index_status t' j = _get_index_status [138; 64; 0; 0] j) /\
    (forall k : nat, k <> Z.to_nat (Z.shiftr 9 2) -> t' !! k = [138; 64; 0; 0] !! k) /\
    length t' = length [138; 64; 0; 0].
Proof.
  apply (set_then_get_status [138; 64; 0; 0] 9 NODE_USED).
  - unfold in_tree. simpl. lia.
  - unfold is_status, NODE_USED. lia.
Defined.

(** ** Construction *)

(** C1: with [level = 4] and [min_level = 5] the unsigned difference wraps
    to [2^32 - 1], the guard of [buddy_from_buffer] lets the pair through
    and the constructor goes on to the undefined shift instead of
    returning NULL. *)
Theorem from_buffer_wraps_below_min :
  (4 - 5) mod 2 ^ 32 = 4294967295 /\
  buddy_from_buffer 4 5 false = Fault /\
  buddy_from_buffer 4 5 false <> Ok None /\
  buddy_new 4 5 true <> Ok None.
Proof.
  split; [reflexivity|]. split; [reflexivity|]. split; discriminate.
Qed.

(** A pool built by [buddy_new] is one built by [buddy_from_buffer]. *)
Lemma buddy_new_from_buffer (lvl min_lvl : Z) (p : buddy) :
  buddy_new lvl min_lvl true = Ok (Some p) ->
  buddy_from_buffer lvl min_lvl true = Ok (Some p).
Proof.
  unfold buddy_new. destruct (31 <? lvl); [discriminate|]. cbn [negb]. auto.
Qed.

(** Where the subtraction does not wrap, the guard is the one of the
    specification. *)
Lemma from_buffer_null_iff (lvl min_lvl : Z) (dtor : bool) :
  0 <= min_lvl <= lvl -> lvl < 2 ^ 32 ->
  (buddy_from_buffer lvl min_lvl dtor = Ok None <-> lvl - min_lvl < 2 \/ min_lvl < 4).
Proof.
  intros Hle Hlt. unfold buddy_from_buffer.
  rewrite (Z.mod_small (lvl - min_lvl)) by lia.
  destruct (Z.ltb_spec (lvl - min_lvl) 2); simpl.
  - split; [lia | reflexivity].
  - destruct (Z.ltb_spec min_lvl 4); simpl.
    + split; [lia | reflexivity].
    + split; [|lia]. intros H1.
      destruct (30 <? lvl - min_lvl - 1); [discriminate|].
      destruct (buddy_alloc _ _); discriminate.
Qed.

(** Every pair with [min_level] above [level] (and at least 4) passes the
    guard, whatever the distance. *)
Lemma from_buffer_wraps (lvl min_lvl : Z) (dtor : bool) :
  0 <= lvl < min_lvl -> 4 <= min_lvl -> min_lvl - lvl <= 2 ^ 32 - 2 ->
  buddy_from_buffer lvl min_lvl dtor <> Ok None.
Proof.
  intros Hlt Hm Hd. unfold buddy_from_buffer.
  replace ((lvl - min_lvl) mod 2 ^ 32) with (2 ^ 32 - (min_lvl - lvl)).
  2:{ apply (Z.mod_unique (lvl - min_lvl) (2 ^ 32) (-1)); lia. }
  destruct (Z.ltb_spec (2 ^ 32 - (min_lvl - lvl)) 2); [lia|].
  destruct (Z.ltb_spec min_lvl 4); [lia|]. cbn [orb].
  destruct (30 <? _); [discriminate|].
  destruct (buddy_alloc _ _); discriminate.
Qed.

(** ** A failed allocation leaves the tree alone *)

Lemma status_unused : is_status NODE_UNUSED.
Proof. unfold is_status, NODE_UNUSED. lia. Qed.

Lemma status_used : is_status NODE_USED.
Proof. unfold is_status, NODE_USED. lia. Qed.

Lemma status_split : is_status NODE_SPLIT.
Proof. unfold is_status, NODE_SPLIT. lia. Qed.

Lemma status_full : is_status NODE_FULL.
Proof. unfold is_status, NODE_FULL. lia. Qed.

#[local] Hint Resolve status_unused status_used status_split status_full : core.

(** After a split the left child reads UNUSED. *)
Lemma split_left_unused (t1 t2 t3 : list Z) (index : Z) :
  0 <= index ->
  _set_index_status t1 (index * 2 + 1) NODE_UNUSED = Ok t2 ->
  _set_index_status t2 (index * 2 + 2) NODE_UNUSED = Ok t3 ->
  _get_index_status t3 (index * 2 + 1) = Ok NODE_UNUSED.
Proof.
  intros Hi H2 H3.
  pose proof (set_ok_in_tree _ _ _ _ H2) as Hin.
  rewrite get_in_tree
    by (eapply in_tree_length; [eapply set_length; eauto | eapply in_tree_length; [eapply set_length; eauto | exact Hin]]).
  f_equal.
  rewrite (status_set_other t2 t3 (index * 2 + 2) (index * 2 + 1) NODE_UNUSED) by (auto; lia).
  eapply status_set_same; eauto.
Qed.

Lemma alloc_loop_unused_found fuel size minl maxl (t : list Z) index lvl len t' :
  0 <= index -> _get_index_status t index = Ok NODE_UNUSED ->
  alloc_loop fuel size minl maxl t AtHead index lvl len <> Ok (None, t').
Proof.
  revert t index lvl len. induction fuel as [|f IH]; intros t index lvl len Hi Hget; [discriminate|].
  simpl. destruct (Z.ltb_spec index 0); [lia|].
  rewrite Hget. simpl.
  destruct (size =? len).
  - destruct (_set_index_status t index NODE_USED) as [t1| | |]; simpl; try discriminate.
    destruct (_mark_parent t1 index); simpl; try discriminate.
    destruct (_index_offset minl index lvl maxl); simpl; discriminate.
  - destruct (_set_index_status t index NODE_SPLIT) as [t1| | |] eqn:H1; simpl; try discriminate.
    destruct (_set_index_status t1 (index * 2 + 1) NODE_UNUSED) as [t2| | |] eqn:H2; simpl; try discriminate.
    destruct (_set_index_status t2 (index * 2 + 2) NODE_UNUSED) as [t3| | |] eqn:H3; simpl; try discriminate.
    apply IH; [lia|]. eapply split_left_unused; eauto.
Qed.

Lemma alloc_loop_none_same fuel size minl maxl (t : list Z) p index lvl len t' :
  alloc_loop fuel size minl maxl t p index lvl len = Ok (None, t') -> t' = t.
Proof.
  revert t p index lvl len.
  induction fuel as [|f IH]; intros t p index lvl len H; [discriminate|].
  simpl in H. destruct p.
  - destruct (index <? 0) eqn:Hneg; [congruence|].
    apply Z.ltb_ge in Hneg.
    destruct (_get_index_status t index) as [st| | |] eqn:Hget;
      [|destruct (size =? len); discriminate..].
    destruct (size =? len); simpl in H.
    + destruct (st =? NODE_UNUSED); [|eauto].
      destruct (_set_index_status t index NODE_USED) as [t1| | |]; simpl in H; try discriminate.
      destruct (_mark_parent t1 index); simpl in H; try discriminate.
      destruct (_index_offset minl index lvl maxl); simpl in H; discriminate.
    + destruct ((st =? NODE_USED) || (st =? NODE_FULL)); [eauto|].
      destruct (Z.eqb_spec st NODE_UNUSED) as [->|]; [|eauto].
      destruct (_set_index_status t index NODE_SPLIT) as [t1| | |] eqn:H1; simpl in H; try discriminate.
      destruct (_set_index_status t1 (index * 2 + 1) NODE_UNUSED) as [t2| | |] eqn:H2; simpl in H; try discriminate.
      destruct (_set_index_status t2 (index * 2 + 2) NODE_UNUSED) as [t3| | |] eqn:H3; simpl in H; try discriminate.
      exfalso. eapply alloc_loop_unused_found; [| |exact H]; [lia|].
      eapply split_left_unused; eauto.
  - destruct (negb (Z.land index 1 =? 0)); eauto.
  - destruct ((index + 1) ÷ 2 - 1 <? 0); [congruence|].
    destruct (negb (Z.land ((index + 1) ÷ 2 - 1) 1 =? 0)); eauto.
Qed.

Lemma buddy_alloc_none (self self' : buddy) (s : Z) :
  buddy_alloc self s = Ok (None, self') -> self' = self.
Proof.
  unfold buddy_alloc.
  destruct (negb _); [discriminate|].
  destruct (to_int (Z.shiftl 1 (level self)) <? alloc_size self s); [congruence|].
  destruct (alloc_loop _ _ _ _ _ _ _ _ _) as [[r t']| | |] eqn:Hloop; simpl; try discriminate.
  intros [= -> <-]. apply alloc_loop_none_same in Hloop. subst t'.
  destruct self; reflexivity.
Qed.

(** C4: when [buddy_alloc] returns NULL, for an oversize request or after
    an exhausted search, the pool (its tree bytes included) is the one
    before the call; this does not depend on the fuel given to the search
    loop, nor on the length it starts with. *)
Theorem alloc_null_unchanged (self self' : buddy) (s : Z) :
  buddy_alloc self s = Ok (None, self') ->
  self' = self /\ tree self' = tree self /\
  (forall fuel len t', alloc_loop fuel (alloc_size self s) (min_level self) (level self)
                         (tree self) AtHead 0 0 len = Ok (None, t') ->
     t' = tree self).
Proof.
  intros H. apply buddy_alloc_none in H. subst.
  split; [reflexivity|]. split; [reflexivity|].
  intros fuel len t'. apply alloc_loop_none_same.
Qed.

Lemma alloc_null_unchanged_witness :
  buddy_alloc (mkBuddy 4 2 false [74; 0]) 64 = Ok (None, mkBuddy 4 2 false [74; 0]) /\
  (mkBuddy 4 2 false [74; 0] = mkBuddy 4 2 false [74; 0] /\
   tree (mkBuddy 4 2 false [74; 0]) = tree (mkBuddy 4 2 false [74; 0]) /\
   (forall fuel len t',
      alloc_loop fuel (alloc_size (mkBuddy 4 2 false [74; 0]) 64)
        (min_level (mkBuddy 4 2 false [74; 0])) (level (mkBuddy 4 2 false [74; 0]))
        (tree (mkBuddy 4 2 false [74; 0])) AtHead 0 0 len = Ok (None, t') ->
      t' = tree (mkBuddy 4 2 false [74; 0]))).
Proof.
  split; [vm_compute; reflexivity|].
  apply (alloc_null_unchanged (mkBuddy 4 2 false [74; 0]) (mkBuddy 4 2 false [74; 0]) 64).
  vm_compute. reflexivity.
Defined.

(** ** Index arithmetic *)

Lemma parent_left (i : Z) : 0 <= i -> (i * 2 + 1 + 1) ÷ 2 - 1 = i.
Proof.
  intros H. rewrite Z.quot_div_nonneg by lia.
  replace (i * 2 + 1 + 1) with ((i + 1) * 2) by lia.
  rewrite Z.div_mul by lia. lia.
Qed.

Lemma parent_right (i : Z) : 0 <= i -> (i * 2 + 2 + 1) ÷ 2 - 1 = i.
Proof.
  intros H. rewrite Z.quot_div_nonneg by lia.
  replace (i * 2 + 2 + 1) with (1 + (i + 1) * 2) by lia.
  rewrite Z.div_add by lia. change (1 / 2) with 0. lia.
Qed.

Lemma land1_mod (i : Z) : Z.land i 1 = i mod 2.
Proof. exact (Z.land_ones i 1 ltac:(lia)). Qed.

Lemma land1_left (i : Z) : Z.land (i * 2 + 1) 1 = 1.
Proof.
  rewrite land1_mod. rewrite Z.add_comm, Z.mod_add by lia. reflexivity.
Qed.

Lemma land1_right (i : Z) : Z.land (i * 2 + 2) 1 = 0.
Proof.
  rewrite land1_mod. replace (i * 2 + 2) with (0 + (i + 1) * 2) by lia.
  rewrite Z.mod_add by lia. reflexivity.
Qed.

Lemma pow2_S (d : nat) : 2 ^ Z.of_nat (S d) = 2 * 2 ^ Z.of_nat d.
Proof. rewrite Nat2Z.inj_succ, Z.pow_succ_r by lia. reflexivity. Qed.

Lemma pow2_pos (k : Z) : 0 <= k -> 0 < 2 ^ k.
Proof. intros. apply Z.pow_pos_nonneg; lia. Qed.

Lemma pow2_half (d : nat) : 2 ^ Z.of_nat (S d) ÷ 2 = 2 ^ Z.of_nat d.
Proof.
  rewrite pow2_S. pose proof (pow2_pos (Z.of_nat d) ltac:(lia)).
  rewrite Z.quot_div_nonneg by lia.
  rewrite Z.mul_comm, Z.div_mul by lia. reflexivity.
Qed.

(** ** Subtrees *)

Lemma in_sub_root (d : nat) (i : Z) : in_sub d i i.
Proof. exists 0. simpl. lia. Qed.

Lemma in_sub_left (d : nat) (i j : Z) : in_sub d (i * 2 + 1) j -> in_sub (S d) i j.
Proof.
  intros (k & Hk & H). exists (k + 1).
  rewrite Z.pow_add_r by lia. change (2 ^ 1) with 2.
  pose proof (pow2_pos k ltac:(lia)). split; [lia|]. nia.
Qed.

Lemma in_sub_right (d : nat) (i j : Z) : in_sub d (i * 2 + 2) j -> in_sub (S d) i j.
Proof.
  intros (k & Hk & H). exists (k + 1).
  rewrite Z.pow_add_r by lia. change (2 ^ 1) with 2.
  pose proof (pow2_pos k ltac:(lia)). split; [lia|]. nia.
Qed.

Lemma in_sub_ge (d : nat) (i j : Z) : 0 <= i -> in_sub d i j -> i <= j.
Proof.
  intros Hi (k & Hk & H). pose proof (pow2_pos k ltac:(lia)). nia.
Qed.

Lemma not_in_sub_left (d : nat) (i : Z) : 0 <= i -> ~ in_sub d (i * 2 + 1) i.
Proof. intros Hi H. apply in_sub_ge in H; lia. Qed.

Lemma not_in_sub_right (d : nat) (i : Z) : 0 <= i -> ~ in_sub d (i * 2 + 2) i.
Proof. intros Hi H. apply in_sub_ge in H; lia. Qed.

Lemma log2_in_sub (n k m : Z) :
  1 <= n -> 0 <= k -> n * 2 ^ k <= m < (n + 1) * 2 ^ k ->
  Z.log2 m = Z.log2 n + k.
Proof.
  intros Hn Hk H.
  pose proof (Z.log2_spec n ltac:(lia)) as [Hl Hu].
  pose proof (Z.log2_nonneg n) as Hnn.
  pose proof (pow2_pos k Hk).
  apply Z.log2_unique; [lia|].
  rewrite Z.pow_add_r by lia.
  replace (Z.succ (Z.log2 n + k)) with (Z.succ (Z.log2 n) + k) by lia.
  rewrite (Z.pow_add_r 2 (Z.succ (Z.log2 n))) by lia.
  split; nia.
Qed.

Lemma log2_children (n : Z) :
  1 <= n -> Z.log2 (2 * n) = Z.log2 n + 1 /\ Z.log2 (2 * n + 1) = Z.log2 n + 1.
Proof.
  intros Hn. split.
  - apply (log2_in_sub n 1 (2 * n)); lia.
  - apply (log2_in_sub n 1 (2 * n + 1)); lia.
Qed.

Lemma sub_disjoint (d d' : nat) (i j : Z) :
  0 <= i -> in_sub d (i * 2 + 1) j -> ~ in_sub d' (i * 2 + 2) j.
Proof.
  intros Hi (k & Hk & H) (k' & Hk' & H').
  pose proof (log2_in_sub (i * 2 + 1 + 1) k (j + 1) ltac:(lia) ltac:(lia) ltac:(lia)) as E.
  pose proof (log2_in_sub (i * 2 + 2 + 1) k' (j + 1) ltac:(lia) ltac:(lia) ltac:(lia)) as E'.
  destruct (log2_children (i + 1) ltac:(lia)) as [L1 L2].
  replace (i * 2 + 1 + 1) with (2 * (i + 1)) in E by lia.
  replace (i * 2 + 2 + 1) with (2 * (i + 1) + 1) in E' by lia.
  assert (k = k') by lia. subst k'.
  pose proof (pow2_pos k ltac:(lia)). nia.
Qed.

Lemma shape_frame (d : nat) (t t' : list Z) (i : Z) :
  (forall j, in_sub d i j -> status_of t' j = status_of t j) ->
  shape_at d t' i = shape_at d t i.
Proof.
  revert i. induction d as [|d IH]; intros i H; simpl.
  - rewrite (H i (in_sub_root _ _)). reflexivity.
  - rewrite (H i (in_sub_root _ _)).
    rewrite (IH (i * 2 + 1)) by (intros; apply H, in_sub_left; assumption).
    rewrite (IH (i * 2 + 2)) by (intros; apply H, in_sub_right; assumption).
    reflexivity.
Qed.

Lemma same_outside_refl (d : nat) (i : Z) (t : list Z) : same_outside d i t t.
Proof. split; auto. Qed.

Lemma same_outside_trans (d : nat) (i : Z) (t1 t2 t3 : list Z) :
  same_outside d i t1 t2 -> same_outside d i t2 t3 -> same_outside d i t1 t3.
Proof.
  intros [L1 H1] [L2 H2]. split; [congruence|].
  intros j Hj Hn. rewrite H2, H1; auto.
Qed.

Lemma same_outside_left (d : nat) (i : Z) (t t' : list Z) :
  same_outside d (i * 2 + 1) t t' -> same_outside (S d) i t t'.
Proof.
  intros [L H]. split; [assumption|].
  intros j Hj Hn. apply H; [assumption|]. intros Hs. apply Hn, in_sub_left, Hs.
Qed.

Lemma same_outside_right (d : nat) (i : Z) (t t' : list Z) :
  same_outside d (i * 2 + 2) t t' -> same_outside (S d) i t t'.
Proof.
  intros [L H]. split; [assumption|].
  intros j Hj Hn. apply H; [assumption|]. intros Hs. apply Hn, in_sub_right, Hs.
Qed.

Lemma same_outside_set (d : nat) (t t' : list Z) (i st : Z) :
  is_status st -> _set_index_status t i st = Ok t' -> same_outside d i t t'.
Proof.
  intros Hst H. split; [eapply set_length; eauto|].
  intros j Hj Hn. eapply status_set_other; eauto.
  intros ->. apply Hn, in_sub_root.
Qed.

(** A write outside of a subtree does not change the tree it denotes. *)
Lemma shape_outside (d d' : nat) (r i : Z) (t t' : list Z) :
  0 <= i -> same_outside d r t t' ->
  (forall j, in_sub d' i j -> ~ in_sub d r j) ->
  shape_at d' t' i = shape_at d' t i.
Proof.
  intros Hi [_ H] Hd. apply shape_frame. intros j Hj.
  apply H; [|apply Hd, Hj]. apply in_sub_ge in Hj; lia.
Qed.

Lemma shape_set_other (d : nat) (t t' : list Z) (i j st : Z) :
  0 <= j -> is_status st -> _set_index_status t i st = Ok t' ->
  ~ in_sub d j i -> shape_at d t' j = shape_at d t j.
Proof.
  intros Hj Hst H Hn. apply shape_frame. intros k Hk.
  eapply status_set_other; eauto.
  - apply in_sub_ge in Hk; lia.
  - intros ->. contradiction.
Qed.

(** ** The upward loops do not depend on their fuel *)

Lemma land1_cases (i : Z) : Z.land i 1 = 0 \/ Z.land i 1 = 1.
Proof. rewrite land1_mod. pose proof (Z.mod_pos_bound i 2 ltac:(lia)). lia. Qed.

Lemma land1_zero : Z.land 0 1 = 0.
Proof. reflexivity. Qed.

Lemma buddy_pos_index (i : Z) : 0 < i - 1 + Z.land i 1 * 2 -> 1 <= i.
Proof.
  intros H. destruct (Z.eq_dec i 0) as [->|]; [rewrite land1_zero in H; lia|].
  pose proof (land1_cases i). lia.
Qed.

Lemma buddy_nonneg_index (i : Z) : 0 <= i -> ~ i - 1 + Z.land i 1 * 2 < 0 -> 1 <= i.
Proof.
  intros Hi H. destruct (Z.eq_dec i 0) as [->|]; [rewrite land1_zero in H; lia|lia].
Qed.

Lemma parent_lt (i : Z) : 1 <= i -> 0 <= (i + 1) ÷ 2 - 1 < i.
Proof.
  intros H. rewrite Z.quot_div_nonneg by lia.
  pose proof (Z.div_mod (i + 1) 2 ltac:(lia)).
  pose proof (Z.mod_pos_bound (i + 1) 2 ltac:(lia)). lia.
Qed.

Lemma mark_parent_fuel (f1 f2 : nat) (t : list Z) (i : Z) :
  (Z.to_nat i < f1)%nat -> (Z.to_nat i < f2)%nat ->
  mark_parent_loop f1 t i = mark_parent_loop f2 t i.
Proof.
  revert f2 t i. induction f1 as [|f1 IH]; intros f2 t i H1 H2; [lia|].
  destruct f2 as [|f2]; [lia|]. simpl.
  destruct (Z.ltb_spec 0 (i - 1 + Z.land i 1 * 2)) as [Hb|]; [|reflexivity].
  apply buddy_pos_index in Hb. pose proof (parent_lt i Hb).
  destruct (_get_index_status t _) as [st| | |]; simpl; try reflexivity.
  destruct ((st =? NODE_USED) || (st =? NODE_FULL)); [|reflexivity].
  destruct (_set_index_status t _ _) as [t'| | |]; simpl; try reflexivity.
  apply IH; lia.
Qed.

Lemma mark_parent_root (t : list Z) : _mark_parent t 0 = Ok t.
Proof. reflexivity. Qed.

Lemma mark_parent_left (t : list Z) (i : Z) :
  0 <= i ->
  _mark_parent t (i * 2 + 1) =
  do st <- _get_index_status t (i * 2 + 2);
  if (st =? NODE_USED) || (st =? NODE_FULL) then
    do t' <- _set_index_status t i NODE_FULL; _mark_parent t' i
  else Ok t.
Proof.
  intros Hi. unfold _mark_parent.
  replace (Z.to_nat (i * 2 + 1) + 1)%nat with (S (Z.to_nat (i * 2 + 1))) by lia.
  simpl. rewrite land1_left, parent_left by lia.
  replace (i * 2 + 1 - 1 + 1 * 2) with (i * 2 + 2) by lia.
  destruct (Z.ltb_spec 0 (i * 2 + 2)); [|lia].
  destruct (_get_index_status t _) as [st| | |]; simpl; try reflexivity.
  destruct ((st =? NODE_USED) || (st =? NODE_FULL)); [|reflexivity].
  destruct (_set_index_status t _ _) as [t'| | |]; simpl; try reflexivity.
  apply mark_parent_fuel; lia.
Qed.

Lemma mark_parent_right (t : list Z) (i : Z) :
  0 <= i ->
  _mark_parent t (i * 2 + 2) =
  do st <- _get_index_status t (i * 2 + 1);
  if (st =? NODE_USED) || (st =? NODE_FULL) then
    do t' <- _set_index_status t i NODE_FULL; _mark_parent t' i
  else Ok t.
Proof.
  intros Hi. unfold _mark_parent.
  replace (Z.to_nat (i * 2 + 2) + 1)%nat with (S (Z.to_nat (i * 2 + 2))) by lia.
  simpl. rewrite land1_right, parent_right by lia.
  replace (i * 2 + 2 - 1 + 0 * 2) with (i * 2 + 1) by lia.
  destruct (Z.ltb_spec 0 (i * 2 + 1)); [|lia].
  destruct (_get_index_status t _) as [st| | |]; simpl; try reflexivity.
  destruct ((st =? NODE_USED) || (st =? NODE_FULL)); [|reflexivity].
  destruct (_set_index_status t _ _) as [t'| | |]; simpl; try reflexivity.
  apply mark_parent_fuel; lia.
Qed.

Lemma demote_fuel (f1 f2 : nat) (t : list Z) (i : Z) :
  (Z.to_nat i < f1)%nat -> (Z.to_nat i < f2)%nat ->
  demote_loop f1 t i = demote_loop f2 t i.
Proof.
  revert f2 t i. induction f1 as [|f1 IH]; intros f2 t i H1 H2; [lia|].
  destruct f2 as [|f2]; [lia|]. simpl.
  destruct (Z.leb_spec 0 ((i + 1) ÷ 2 - 1)) as [Hb|]; [|reflexivity].
  assert (1 <= i).
  { destruct (Z.le_gt_cases 1 i); [assumption|]. exfalso.
    destruct (Z.eq_dec i 0) as [->|];
      [change ((0 + 1) ÷ 2 - 1) with (-1) in Hb; lia|].
    assert (i + 1 <= 0) by lia.
    pose proof (Z.quot_le_mono (i + 1) 0 2 ltac:(lia) ltac:(lia)) as Q.
    change (0 ÷ 2) with 0 in Q. lia. }
  pose proof (parent_lt i ltac:(lia)).
  destruct (_get_index_status t _) as [st| | |]; simpl; try reflexivity.
  destruct (st =? NODE_FULL); [|reflexivity].
  destruct (_set_index_status t _ _) as [t'| | |]; simpl; try reflexivity.
  apply IH; lia.
Qed.

Lemma demote_root (t : list Z) : demote t 0 = Ok t.
Proof. reflexivity. Qed.

Lemma demote_step (t : list Z) (c i : Z) :
  0 <= i -> (c + 1) ÷ 2 - 1 = i -> 1 <= c ->
  demote t c =
  do st <- _get_index_status t i;
  if st =? NODE_FULL then
    do t' <- _set_index_status t i NODE_SPLIT; demote t' i
  else Ok t.
Proof.
  intros Hi Hp Hc. unfold demote.
  replace (Z.to_nat c + 1)%nat with (S (Z.to_nat c)) by lia.
  simpl. rewrite Hp.
  destruct (Z.leb_spec 0 i); [|lia].
  destruct (_get_index_status t _) as [st| | |]; simpl; try reflexivity.
  destruct (st =? NODE_FULL); [|reflexivity].
  destruct (_set_index_status t _ _) as [t'| | |]; simpl; try reflexivity.
  pose proof (parent_lt c Hc). apply demote_fuel; lia.
Qed.

Lemma demote_left (t : list Z) (i : Z) :
  0 <= i ->
  demote t (i * 2 + 1) =
  do st <- _get_index_status t i;
  if st =? NODE_FULL then
    do t' <- _set_index_status t i NODE_SPLIT; demote t' i
  else Ok t.
Proof. intros Hi. apply demote_step; [lia | apply parent_left; lia | lia]. Qed.

Lemma demote_right (t : list Z) (i : Z) :
  0 <= i ->
  demote t (i * 2 + 2) =
  do st <- _get_index_status t i;
  if st =? NODE_FULL then
    do t' <- _set_index_status t i NODE_SPLIT; demote t' i
  else Ok t.
Proof. intros Hi. apply demote_step; [lia | apply parent_right; lia | lia]. Qed.

Lemma combine_fuel (f1 f2 : nat) (t : list Z) (i : Z) :
  0 <= i -> (Z.to_nat i < f1)%nat -> (Z.to_nat i < f2)%nat ->
  combine_loop f1 t i = combine_loop f2 t i.
Proof.
  revert f2 t i. induction f1 as [|f1 IH]; intros f2 t i Hi H1 H2; [lia|].
  destruct f2 as [|f2]; [lia|]. simpl.
  destruct (Z.ltb_spec (i - 1 + Z.land i 1 * 2) 0) as [Hb|Hb]; simpl; [reflexivity|].
  pose proof (buddy_nonneg_index i Hi ltac:(lia)) as H1i.
  pose proof (parent_lt i H1i).
  destruct (_get_index_status t _) as [st| | |]; simpl; try reflexivity.
  destruct (negb (st =? NODE_UNUSED)); [reflexivity|].
  apply IH; lia.
Qed.

Lemma combine_root (t : list Z) :
  _combine t 0 = do t' <- _set_index_status t 0 NODE_UNUSED; Ok t'.
Proof.
  unfold _combine. simpl.
  destruct (_set_index_status t 0 NODE_UNUSED); reflexivity.
Qed.

Lemma combine_left (t : list Z) (i : Z) :
  0 <= i ->
  _combine t (i * 2 + 1) =
  do st <- _get_index_status t (i * 2 + 2);
  if negb (st =? NODE_UNUSED) then
    do t' <- _set_index_status t (i * 2 + 1) NODE_UNUSED; demote t' (i * 2 + 1)
  else _combine t i.
Proof.
  intros Hi. unfold _combine.
  replace (Z.to_nat (i * 2 + 1) + 1)%nat with (S (Z.to_nat (i * 2 + 1))) by lia.
  simpl. rewrite land1_left, parent_left by lia.
  replace (i * 2 + 1 - 1 + 1 * 2) with (i * 2 + 2) by lia.
  destruct (Z.ltb_spec (i * 2 + 2) 0); [lia|].
  destruct (_get_index_status t _) as [st| | |]; simpl; try reflexivity.
  destruct (negb (st =? NODE_UNUSED)).
  - unfold demote.
    replace (Z.to_nat (i * 2 + 1) + 1)%nat with (S (Z.to_nat (i * 2 + 1))) by lia.
    reflexivity.
  - apply combine_fuel; lia.
Qed.

Lemma combine_right (t : list Z) (i : Z) :
  0 <= i ->
  _combine t (i * 2 + 2) =
  do st <- _get_index_status t (i * 2 + 1);
  if negb (st =? NODE_UNUSED) then
    do t' <- _set_index_status t (i * 2 + 2) NODE_UNUSED; demote t' (i * 2 + 2)
  else _combine t i.
Proof.
  intros Hi. unfold _combine.
  replace (Z.to_nat (i * 2 + 2) + 1)%nat with (S (Z.to_nat (i * 2 + 2))) by lia.
  simpl. rewrite land1_right, parent_right by lia.
  replace (i * 2 + 2 - 1 + 0 * 2) with (i * 2 + 1) by lia.
  destruct (Z.ltb_spec (i * 2 + 1) 0); [lia|].
  destruct (_get_index_status t _) as [st| | |]; simpl; try reflexivity.
  destruct (negb (st =? NODE_UNUSED)).
  - unfold demote.
    replace (Z.to_nat (i * 2 + 2) + 1)%nat with (S (Z.to_nat (i * 2 + 2))) by lia.
    reflexivity.
  - apply combine_fuel; lia.
Qed.

(** ** Statuses and the denoted tree *)

#[local] Arguments Z.of_nat : simpl never.
#[local] Arguments Z.pow : simpl never.
#[local] Arguments Z.mul : simpl never.
#[local] Arguments Z.add : simpl never.
#[local] Arguments Z.quot : simpl never.

Lemma shape_at_free (d : nat) (t : list Z) (i : Z) :
  status_of t i = NODE_UNUSED -> shape_at d t i = Free.
Proof. intros H. destruct d; simpl; rewrite H; reflexivity. Qed.

Lemma shape_at_used (d : nat) (t : list Z) (i : Z) :
  status_of t i = NODE_USED -> shape_at d t i = Used.
Proof. intros H. destruct d; simpl; rewrite H; reflexivity. Qed.

Lemma shape_at_split (d : nat) (t : list Z) (i : Z) :
  status_of t i = NODE_SPLIT ->
  shape_at (S d) t i =
  Split false (shape_at d t (i * 2 + 1)) (shape_at d t (i * 2 + 2)).
Proof. intros H. simpl. rewrite H. reflexivity. Qed.

Lemma shape_at_full (d : nat) (t : list Z) (i : Z) :
  status_of t i = NODE_FULL ->
  shape_at (S d) t i =
  Split true (shape_at d t (i * 2 + 1)) (shape_at d t (i * 2 + 2)).
Proof. intros H. simpl. rewrite H. reflexivity. Qed.

Lemma shape_at_inv (d : nat) (t : list Z) (i : Z) :
  match shape_at d t i with
  | Free => status_of t i = NODE_UNUSED
  | Used => status_of t i = NODE_USED
  | Split f l r =>
      status_of t i = (if f then NODE_FULL else NODE_SPLIT) /\
      match d with
      | O => l = Free /\ r = Free
      | S d' => l = shape_at d' t (i * 2 + 1) /\ r = shape_at d' t (i * 2 + 2)
      end
  end.
Proof.
  pose proof (status_of_range t i) as R. unfold is_status in R.
  unfold NODE_UNUSED, NODE_USED, NODE_SPLIT, NODE_FULL.
  destruct d; simpl; unfold NODE_UNUSED, NODE_USED, NODE_FULL;
    destruct (Z.eqb_spec (status_of t i) 0); auto;
    destruct (Z.eqb_spec (status_of t i) 1); auto;
    destruct (Z.eqb_spec (status_of t i) 3); split; auto; lia.
Qed.

Lemma is_full_status (d : nat) (t : list Z) (i : Z) :
  is_full (shape_at d t i)
  = (status_of t i =? NODE_USED) || (status_of t i =? NODE_FULL).
Proof.
  pose proof (shape_at_inv d t i) as H.
  destruct (shape_at d t i) as [| |f l r]; simpl.
  - rewrite H. reflexivity.
  - rewrite H. reflexivity.
  - destruct H as [-> _]. destruct f; reflexivity.
Qed.

Lemma is_free_status (d : nat) (t : list Z) (i : Z) :
  is_free (shape_at d t i) = (status_of t i =? NODE_UNUSED).
Proof.
  pose proof (shape_at_inv d t i) as H.
  destruct (shape_at d t i) as [| |f l r]; simpl.
  - rewrite H. reflexivity.
  - rewrite H. reflexivity.
  - destruct H as [-> _]. destruct f; reflexivity.
Qed.

(** Two byte arrays that denote the same tree agree on the status of every
    node that is part of it. *)
Lemma shape_eq_visible (d : nat) :
  forall (t t' : list Z) (root i : Z),
    shape_at d t' root = shape_at d t root ->
    visible d t root i -> status_of t' i = status_of t i.
Proof.
  induction d as [|d IH]; intros t t' root i E V.
  - destruct V as [->|[]].
    pose proof (shape_at_inv O t root) as H. pose proof (shape_at_inv O t' root) as H'.
    rewrite E in H'. destruct (shape_at O t root) as [| |f l r]; try congruence.
    destruct H as [-> _], H' as [-> _]. reflexivity.
  - pose proof (shape_at_inv (S d) t root) as H.
    pose proof (shape_at_inv (S d) t' root) as H'.
    rewrite E in H'. destruct V as [->|[Hst V]].
    + destruct (shape_at (S d) t root) as [| |f l r]; try congruence.
      destruct H as [-> _], H' as [-> _]. reflexivity.
    + destruct (shape_at (S d) t root) as [| |f l r].
      * rewrite H in Hst. destruct Hst; discriminate.
      * rewrite H in Hst. destruct Hst; discriminate.
      * destruct H as (_ & -> & ->), H' as (_ & El & Er).
        destruct V as [V|V]; [apply (IH t t' _ i (eq_sym El) V)
                             | apply (IH t t' _ i (eq_sym Er) V)].
Qed.

(** ** Single steps of the search loop *)

Section AllocSteps.

Variables size minl maxl : Z.

Lemma head_skip (f : nat) (t : list Z) (index lvl len st : Z) :
  0 <= index -> _get_index_status t index = Ok st ->
  (size = len /\ st <> NODE_UNUSED) \/
  (size <> len /\ (st = NODE_USED \/ st = NODE_FULL)) ->
  alloc_loop (S f) size minl maxl t AtHead index lvl len
  = alloc_loop f size minl maxl t AtBack index lvl len.
Proof.
  intros Hi Hg H. simpl. destruct (Z.ltb_spec index 0); [lia|].
  rewrite Hg. simpl. destruct H as [[-> H]|[Hne H]].
  - rewrite Z.eqb_refl. destruct (Z.eqb_spec st NODE_UNUSED); [contradiction|reflexivity].
  - destruct (Z.eqb_spec size len); [contradiction|].
    destruct H as [-> | ->]; reflexivity.
Qed.

Lemma head_take (f : nat) (t t1 : list Z) (index lvl len : Z) :
  0 <= index -> size = len -> _get_index_status t index = Ok NODE_UNUSED ->
  _set_index_status t index NODE_USED = Ok t1 ->
  alloc_loop (S f) size minl maxl t AtHead index lvl len
  = do t2 <- _mark_parent t1 index;
    do off <- _index_offset minl index lvl maxl;
    Ok (Some off, t2).
Proof.
  intros Hi -> Hg Hs. simpl. destruct (Z.ltb_spec index 0); [lia|].
  rewrite Hg, Z.eqb_refl. simpl. rewrite Hs. reflexivity.
Qed.

Lemma head_descend (f : nat) (t : list Z) (index lvl len : Z) :
  0 <= index -> size <> len -> _get_index_status t index = Ok NODE_SPLIT ->
  alloc_loop (S f) size minl maxl t AtHead index lvl len
  = alloc_loop f size minl maxl t AtHead (index * 2 + 1) (lvl + 1) (len ÷ 2).
Proof.
  intros Hi Hne Hg. simpl. destruct (Z.ltb_spec index 0); [lia|].
  rewrite Hg. destruct (Z.eqb_spec size len); [contradiction|]. reflexivity.
Qed.

Lemma head_split (f : nat) (t : list Z) (index lvl len : Z) :
  0 <= index -> size <> len -> _get_index_status t index = Ok NODE_UNUSED ->
  alloc_loop (S f) size minl maxl t AtHead index lvl len
  = do t1 <- _set_index_status t index NODE_SPLIT;
    do t2 <- _set_index_status t1 (index * 2 + 1) NODE_UNUSED;
    do t3 <- _set_index_status t2 (index * 2 + 2) NODE_UNUSED;
    alloc_loop f size minl maxl t3 AtHead (index * 2 + 1) (lvl + 1) (len ÷ 2).
Proof.
  intros Hi Hne Hg. simpl. destruct (Z.ltb_spec index 0); [lia|].
  rewrite Hg. destruct (Z.eqb_spec size len); [contradiction|]. reflexivity.
Qed.

Lemma back_left (f : nat) (t : list Z) (i lvl len : Z) :
  alloc_loop (S f) size minl maxl t AtBack (i * 2 + 1) lvl len
  = alloc_loop f size minl maxl t AtHead (i * 2 + 2) lvl len.
Proof.
  simpl. rewrite land1_left. simpl.
  replace (i * 2 + 1 + 1) with (i * 2 + 2) by lia. reflexivity.
Qed.

Lemma back_right (f : nat) (t : list Z) (i lvl len : Z) :
  alloc_loop (S f) size minl maxl t AtBack (i * 2 + 2) lvl len
  = alloc_loop f size minl maxl t AtAscend (i * 2 + 2) lvl len.
Proof. simpl. rewrite land1_right. reflexivity. Qed.

Lemma ascend_right (f : nat) (t : list Z) (i lvl len : Z) :
  0 <= i ->
  alloc_loop (S f) size minl maxl t AtAscend (i * 2 + 2) (lvl + 1) len
  = alloc_loop (S f) size minl maxl t AtBack i lvl (len * 2).
Proof.
  intros Hi. simpl. rewrite parent_right by lia.
  destruct (Z.ltb_spec i 0); [lia|].
  replace (lvl + 1 - 1) with lvl by lia. reflexivity.
Qed.

Lemma ascend_root (f : nat) (t : list Z) (lvl len : Z) :
  alloc_loop (S (S f)) size minl maxl t AtBack 0 lvl len = Ok (None, t).
Proof. reflexivity. Qed.

End AllocSteps.

(** ** Nodes of the tree *)

Lemma node_index_nonneg maxl t d index lvl :
  node_at maxl t d index lvl -> 0 <= index.
Proof. intros (H0 & _ & H & _). pose proof (pow2_pos lvl H0). lia. Qed.

Lemma node_in_tree maxl t d index lvl :
  node_at maxl t d index lvl -> in_tree t index.
Proof.
  intros (H0 & H1 & H & H2). pose proof (pow2_pos lvl H0).
  unfold in_tree. rewrite H2.
  assert (2 ^ (lvl + 1) <= 2 ^ (maxl + 1)) by (apply Z.pow_le_mono_r; lia).
  lia.
Qed.

Lemma node_left maxl t d index lvl :
  node_at maxl t (S d) index lvl -> node_at maxl t d (index * 2 + 1) (lvl + 1).
Proof.
  intros (H0 & H1 & H & H2). unfold node_at.
  rewrite (Z.pow_add_r 2 (lvl + 1) 1), (Z.pow_add_r 2 lvl 1) in * by lia.
  change (2 ^ 1) with 2 in *. repeat split; lia.
Qed.

Lemma node_right maxl t d index lvl :
  node_at maxl t (S d) index lvl -> node_at maxl t d (index * 2 + 2) (lvl + 1).
Proof.
  intros (H0 & H1 & H & H2). unfold node_at.
  rewrite (Z.pow_add_r 2 (lvl + 1) 1), (Z.pow_add_r 2 lvl 1) in * by lia.
  change (2 ^ 1) with 2 in *. repeat split; lia.
Qed.

Lemma node_leaf_right_out maxl t index lvl :
  node_at maxl t O index lvl -> ~ in_tree t (index * 2 + 2).
Proof.
  intros (H0 & H1 & H & H2). unfold in_tree. rewrite H2.
  replace (maxl + 1) with (lvl + 1) by lia.
  rewrite (Z.pow_add_r 2 lvl 1) by lia. change (2 ^ 1) with 2. lia.
Qed.

Lemma node_length maxl t t' d index lvl :
  length t' = length t -> node_at maxl t d index lvl -> node_at maxl t' d index lvl.
Proof. unfold node_at. intros ->. tauto. Qed.

Lemma node_left_offset (d : nat) (index lvl : Z) :
  0 <= lvl ->
  (index * 2 + 1 + 1 - 2 ^ (lvl + 1)) * 2 ^ Z.of_nat d
  = (index + 1 - 2 ^ lvl) * 2 ^ Z.of_nat (S d).
Proof.
  intros H. rewrite pow2_S, Z.pow_add_r by lia. change (2 ^ 1) with 2. ring.
Qed.

Lemma node_right_offset (d : nat) (index lvl : Z) :
  0 <= lvl ->
  (index * 2 + 2 + 1 - 2 ^ (lvl + 1)) * 2 ^ Z.of_nat d
  = (index + 1 - 2 ^ lvl) * 2 ^ Z.of_nat (S d) + 2 ^ Z.of_nat d.
Proof.
  intros H. rewrite pow2_S, Z.pow_add_r by lia. change (2 ^ 1) with 2. ring.
Qed.

(** Two integers with the same low 32 bits are the same [int]. *)
Lemma to_int_eqm (x y : Z) : x mod 2 ^ 32 = y mod 2 ^ 32 -> to_int x = to_int y.
Proof.
  intros H. unfold to_int.
  rewrite <- (Zplus_mod_idemp_l x), <- (Zplus_mod_idemp_l y), H. reflexivity.
Qed.

Lemma to_int_mod (x : Z) : to_int x mod 2 ^ 32 = x mod 2 ^ 32.
Proof.
  unfold to_int. rewrite Zminus_mod_idemp_l. f_equal. lia.
Qed.

Lemma to_int_sub (a b : Z) : to_int (to_int a - to_int b) = to_int (a - b).
Proof.
  apply to_int_eqm. rewrite Zminus_mod, !to_int_mod, <- Zminus_mod. reflexivity.
Qed.

Lemma to_int_shiftl (x k : Z) :
  0 <= k -> to_int (Z.shiftl (to_int x) k) = to_int (Z.shiftl x k).
Proof.
  intros Hk. apply to_int_eqm. rewrite !Z.shiftl_mul_pow2 by lia.
  rewrite Zmult_mod, to_int_mod, <- Zmult_mod. reflexivity.
Qed.

Lemma shift_ok_true (count : Z) : 0 <= count <= 31 -> shift_ok count = true.
Proof.
  intros H. unfold shift_ok.
  destruct (Z.leb_spec 0 count); [|lia]. destruct (Z.ltb_spec count 32); [|lia].
  reflexivity.
Qed.

(** The wrap-around of the steps of [_index_offset] is the wrap-around of
    its result. *)
Lemma index_offset_units (minl maxl index lvl : Z) (d : nat) :
  0 <= minl <= 31 -> maxl <= 31 -> 0 <= lvl -> lvl + Z.of_nat d = maxl ->
  _index_offset minl index lvl maxl
  = Ok (to_int (Z.shiftl ((index + 1 - 2 ^ lvl) * 2 ^ Z.of_nat d) minl)).
Proof.
  intros Hm Hx H0 H1. unfold _index_offset. cbv zeta.
  rewrite !shift_ok_true by lia. cbn [andb negb]. f_equal.
  rewrite Z.shiftl_1_l, to_int_sub, to_int_shiftl by lia.
  rewrite Z.shiftl_shiftl, to_int_shiftl, <- Z.shiftl_shiftl by lia.
  rewrite (Z.shiftl_mul_pow2 _ (maxl - lvl)) by lia.
  replace (maxl - lvl) with (Z.of_nat d) by lia. reflexivity.
Qed.

(** ** The search on the denoted tree *)

Lemma alloc_sh_eq (d : nat) (size left : Z) (sh : shape) :
  alloc_sh d size left sh =
  if size =? 2 ^ Z.of_nat d then
    match sh with
    | Free => Ok (Some (Used, left))
    | _ => Ok None
    end
  else
    match sh with
    | Used => Ok None
    | Split true _ _ => Ok None
    | Free =>
        match d with
        | O => Fault
        | S d' =>
            do r <- alloc_sh d' size left Free;
            match r with
            | Some (l', off) => Ok (Some (Split false l' Free, off))
            | None => Ok None
            end
        end
    | Split false l r =>
        match d with
        | O => Fault
        | S d' =>
            do rl <- alloc_sh d' size left l;
            match rl with
            | Some (l', off) => Ok (Some (Split (is_full l' && is_full r) l' r, off))
            | None =>
                do rr <- alloc_sh d' size (left + 2 ^ Z.of_nat d') r;
                match rr with
                | Some (r', off) =>
                    Ok (Some (Split (is_full l && is_full r') l r', off))
                | None => Ok None
                end
            end
        end
    end.
Proof. destruct d; reflexivity. Qed.

Lemma alloc_sh_exact (d : nat) (size left : Z) (sh : shape) :
  size = 2 ^ Z.of_nat d ->
  alloc_sh d size left sh =
  match sh with
  | Free => Ok (Some (Used, left))
  | _ => Ok None
  end.
Proof. intros ->. rewrite alloc_sh_eq, Z.eqb_refl. reflexivity. Qed.

Lemma alloc_sh_used (d : nat) (size left : Z) :
  alloc_sh d size left Used = Ok None.
Proof. rewrite alloc_sh_eq. destruct (size =? 2 ^ Z.of_nat d); reflexivity. Qed.

Lemma alloc_sh_full (d : nat) (size left : Z) (l r : shape) :
  alloc_sh d size left (Split true l r) = Ok None.
Proof. rewrite alloc_sh_eq. destruct (size =? 2 ^ Z.of_nat d); reflexivity. Qed.

Lemma alloc_sh_free_O (size left : Z) :
  size <> 2 ^ Z.of_nat O -> alloc_sh O size left Free = Fault.
Proof.
  intros H. rewrite alloc_sh_eq.
  destruct (Z.eqb_spec size (2 ^ Z.of_nat 0)); [contradiction|reflexivity].
Qed.

Lemma alloc_sh_free_S (d : nat) (size left : Z) :
  size <> 2 ^ Z.of_nat (S d) ->
  alloc_sh (S d) size left Free =
  do r <- alloc_sh d size left Free;
  match r with
  | Some (l', off) => Ok (Some (Split false l' Free, off))
  | None => Ok None
  end.
Proof.
  intros H. rewrite alloc_sh_eq.
  destruct (Z.eqb_spec size (2 ^ Z.of_nat (S d))); [contradiction|reflexivity].
Qed.

Lemma alloc_sh_split_S (d : nat) (size left : Z) (l r : shape) :
  size <> 2 ^ Z.of_nat (S d) ->
  alloc_sh (S d) size left (Split false l r) =
  do rl <- alloc_sh d size left l;
  match rl with
  | Some (l', off) => Ok (Some (Split (is_full l' && is_full r) l' r, off))
  | None =>
      do rr <- alloc_sh d size (left + 2 ^ Z.of_nat d) r;
      match rr with
      | Some (r', off) => Ok (Some (Split (is_full l && is_full r') l r', off))
      | None => Ok None
      end
  end.
Proof.
  intros H. rewrite alloc_sh_eq.
  destruct (Z.eqb_spec size (2 ^ Z.of_nat (S d))); [contradiction|reflexivity].
Qed.

Lemma alloc_sh_free_found (d : nat) (size left : Z) :
  alloc_sh d size left Free <> Ok None.
Proof.
  revert left. induction d as [|d IH]; intros left.
  - rewrite alloc_sh_eq. destruct (size =? 2 ^ Z.of_nat 0); discriminate.
  - destruct (Z.eq_dec size (2 ^ Z.of_nat (S d))) as [E|E].
    + rewrite alloc_sh_exact by assumption. discriminate.
    + rewrite alloc_sh_free_S by assumption.
      specialize (IH left).
      destruct (alloc_sh d size left Free) as [[[l' off]|]| | |]; simpl;
        try discriminate. contradiction.
Qed.

Lemma cost_pos (d : nat) : (1 <= cost d)%nat.
Proof. destruct d; simpl; lia. Qed.

(** ** The search loop follows the search on the denoted tree *)

Section AllocSim.

Variables size minl maxl : Z.
Hypothesis Hminl : 0 <= minl <= 31.
Hypothesis Hmaxl : maxl <= 31.

(** The node itself has the requested size. *)
Lemma alloc_sim_exact (d : nat) (t : list Z) (index lvl : Z) :
  node_at maxl t d index lvl -> size = 2 ^ Z.of_nat d ->
  alloc_outcome size minl maxl d t index lvl.
Proof.
  intros Hn Hsz. unfold alloc_outcome.
  pose proof (node_index_nonneg _ _ _ _ _ Hn) as Hi.
  pose proof (node_in_tree _ _ _ _ _ Hn) as Hin.
  pose proof (get_in_tree t index Hin) as Hg.
  rewrite alloc_sh_exact by assumption.
  pose proof (shape_at_inv d t index) as Hs.
  destruct (shape_at d t index) as [| |fl l r].
  - destruct (set_in_tree t index NODE_USED Hin) as (t1 & Hset & Hlen).
    exists O, t1. split; [lia|]. split; [|split].
    + apply shape_at_used. eapply status_set_same; eauto.
    + exact (same_outside_set d t t1 index NODE_USED status_used Hset).
    + intros f. rewrite Hs in Hg. change (0 + S f)%nat with (S f).
      rewrite (head_take size minl maxl f t t1) by assumption.
      destruct Hn as (H0 & H1 & _).
      rewrite (index_offset_units minl maxl index lvl d) by assumption.
      reflexivity.
  - exists 1%nat. split; [apply cost_pos|]. intros f.
    apply (head_skip size minl maxl (S f) t index lvl _ _ Hi Hg).
    left. split; [assumption|]. rewrite Hs. discriminate.
  - exists 1%nat. split; [apply cost_pos|]. intros f.
    apply (head_skip size minl maxl (S f) t index lvl _ _ Hi Hg).
    left. split; [assumption|]. destruct Hs as [-> _]. destruct fl; discriminate.
Qed.

(** The node is larger than the request and is USED or FULL. *)
Lemma alloc_sim_skip (d : nat) (t : list Z) (index lvl : Z) :
  node_at maxl t d index lvl -> size <> 2 ^ Z.of_nat d ->
  is_full (shape_at d t index) = true ->
  alloc_outcome size minl maxl d t index lvl.
Proof.
  intros Hn Hsz Hfull. unfold alloc_outcome.
  pose proof (node_index_nonneg _ _ _ _ _ Hn) as Hi.
  pose proof (node_in_tree _ _ _ _ _ Hn) as Hin.
  pose proof (get_in_tree t index Hin) as Hg.
  pose proof (shape_at_inv d t index) as Hs.
  destruct (shape_at d t index) as [| |fl l r]; simpl in Hfull; [discriminate| |subst fl].
  - rewrite alloc_sh_used. exists 1%nat. split; [apply cost_pos|]. intros f.
    apply (head_skip size minl maxl (S f) t index lvl _ _ Hi Hg). right. split; auto.
  - rewrite alloc_sh_full. exists 1%nat. split; [apply cost_pos|]. intros f.
    apply (head_skip size minl maxl (S f) t index lvl _ _ Hi Hg). right. split; [assumption|].
    right. apply Hs.
Qed.

Lemma set_total (t : list Z) (i st : Z) :
  (exists t', _set_index_status t i st = Ok t' /\ length t' = length t) \/
  _set_index_status t i st = Fault.
Proof.
  unfold _set_index_status. destruct (tree_byte t (Z.shiftr i 2)); [left|right; reflexivity].
  eexists. split; [reflexivity | apply length_insert].
Qed.

Lemma not_sub_left_right (d : nat) (i : Z) :
  0 <= i -> ~ in_sub d (i * 2 + 1) (i * 2 + 2).
Proof. intros Hi H. apply (sub_disjoint d O i _ Hi H), in_sub_root. Qed.

Lemma not_sub_right_left (d : nat) (i : Z) :
  0 <= i -> ~ in_sub d (i * 2 + 2) (i * 2 + 1).
Proof. intros Hi H. apply (sub_disjoint O d i (i * 2 + 1) Hi); [apply in_sub_root|exact H]. Qed.

(** A leaf that is UNUSED but not of the requested size: the split writes
    outside of the tree. *)
Lemma alloc_sim_leaf_fault (t : list Z) (index lvl : Z) :
  node_at maxl t O index lvl -> size <> 2 ^ Z.of_nat O ->
  status_of t index = NODE_UNUSED ->
  forall f, alloc_loop (S f) size minl maxl t AtHead index lvl (2 ^ Z.of_nat O) = Fault.
Proof.
  intros Hn Hsz Hst f.
  pose proof (node_index_nonneg _ _ _ _ _ Hn) as Hi.
  pose proof (node_in_tree _ _ _ _ _ Hn) as Hin.
  pose proof (get_in_tree t index Hin) as Hg. rewrite Hst in Hg.
  rewrite head_split by assumption.
  destruct (set_in_tree t index NODE_SPLIT Hin) as (t1 & -> & Hlen1). simpl.
  destruct (set_total t1 (index * 2 + 1) NODE_UNUSED) as [(t2 & -> & Hlen2)| ->];
    [simpl|reflexivity].
  rewrite set_out_tree; [reflexivity|].
  intros Hc. apply (node_leaf_right_out _ _ _ _ Hn).
  unfold in_tree in *. rewrite Hlen2, Hlen1 in Hc. exact Hc.
Qed.

Lemma wf_split_inv (d : nat) (f : bool) (l r : shape) :
  wf_shape (S d) (Split f l r) = true ->
  f = is_full l && is_full r /\ is_free l && is_free r = false /\
  wf_shape d l = true /\ wf_shape d r = true.
Proof.
  simpl. rewrite !andb_true_iff, negb_true_iff. intros [[[H1 H2] H3] H4].
  apply Bool.eqb_prop in H1. auto.
Qed.

Lemma alloc_sim (d : nat) :
  forall (t : list Z) (index lvl : Z),
    node_at maxl t d index lvl ->
    wf_shape d (shape_at d t index) = true ->
    alloc_outcome size minl maxl d t index lvl.
Proof.
  induction d as [|d IH]; intros t index lvl Hn Hwf.
  - destruct (Z.eq_dec size (2 ^ Z.of_nat O)) as [E|E]; [apply alloc_sim_exact; assumption|].
    destruct (is_full (shape_at O t index)) eqn:Hf; [apply alloc_sim_skip; assumption|].
    unfold alloc_outcome.
    pose proof (shape_at_inv O t index) as Hs.
    destruct (shape_at O t index) as [| |fl l r]; [|discriminate|discriminate].
    rewrite alloc_sh_free_O by assumption.
    exists O. split; [lia|]. intros f. apply alloc_sim_leaf_fault; assumption.
  - destruct (Z.eq_dec size (2 ^ Z.of_nat (S d))) as [E|E]; [apply alloc_sim_exact; assumption|].
    destruct (is_full (shape_at (S d) t index)) eqn:Hf; [apply alloc_sim_skip; assumption|].
    unfold alloc_outcome.
    pose proof (node_index_nonneg _ _ _ _ _ Hn) as Hi.
    pose proof (node_in_tree _ _ _ _ _ Hn) as Hin.
    pose proof (get_in_tree t index Hin) as Hg.
    pose proof (node_left _ _ _ _ _ Hn) as Hnl.
    pose proof (node_right _ _ _ _ _ Hn) as Hnr.
    assert (Hlvl : 0 <= lvl) by apply Hn.
    pose proof (shape_at_inv (S d) t index) as Hs.
    destruct (shape_at (S d) t index) as [| |fl l r] eqn:Hsh; [|discriminate|].
    + (* UNUSED: split, then search the left child *)
      rewrite Hs in Hg.
      rewrite alloc_sh_free_S by assumption.
      destruct (set_in_tree t index NODE_SPLIT Hin) as (t1 & H1 & Hlen1).
      destruct (set_in_tree t1 (index * 2 + 1) NODE_UNUSED) as (t2 & H2 & Hlen2).
      { eapply in_tree_length; [exact Hlen1|]. eapply node_in_tree; exact Hnl. }
      destruct (set_in_tree t2 (index * 2 + 2) NODE_UNUSED) as (t3 & H3 & Hlen3).
      { eapply in_tree_length; [exact Hlen2|]. eapply in_tree_length; [exact Hlen1|].
        eapply node_in_tree; exact Hnr. }
      assert (Hlen : length t3 = length t) by congruence.
      assert (S0 : status_of t3 index = NODE_SPLIT).
      { rewrite (status_set_other t2 t3 (index * 2 + 2) index NODE_UNUSED) by (auto; lia).
        rewrite (status_set_other t1 t2 (index * 2 + 1) index NODE_UNUSED) by (auto; lia).
        eapply status_set_same; eauto. }
      assert (S1 : status_of t3 (index * 2 + 1) = NODE_UNUSED).
      { rewrite (status_set_other t2 t3 (index * 2 + 2) (index * 2 + 1) NODE_UNUSED) by (auto; lia).
        eapply status_set_same; eauto. }
      assert (S2 : status_of t3 (index * 2 + 2) = NODE_UNUSED).
      { eapply status_set_same; eauto. }
      assert (Hout : same_outside (S d) index t t3).
      { eapply same_outside_trans; [exact (same_outside_set (S d) t t1 index _ status_split H1)|].
        eapply same_outside_trans.
        - apply same_outside_left. exact (same_outside_set d t1 t2 _ _ status_unused H2).
        - apply same_outside_right. exact (same_outside_set d t2 t3 _ _ status_unused H3). }
      pose proof (IH t3 (index * 2 + 1) (lvl + 1)
                    (node_length _ _ _ _ _ _ Hlen Hnl)) as IHl.
      rewrite (shape_at_free d t3 _ S1) in IHl. specialize (IHl eq_refl).
      unfold alloc_outcome in IHl.
      rewrite node_left_offset, (shape_at_free d t3 _ S1) in IHl by assumption.
      pose proof (alloc_sh_free_found d size ((index + 1 - 2 ^ lvl) * 2 ^ Z.of_nat (S d))) as Hnn.
      destruct (alloc_sh d size _ Free) as [[[l' off]|]| | |]; cbn [bind is_full andb];
        [|contradiction| |contradiction|contradiction].
      * destruct IHl as (c & t4 & Hc & Hshape & Hsame & Hloop).
        assert (S0' : status_of t4 index = NODE_SPLIT).
        { rewrite <- S0. apply Hsame; [lia | apply not_in_sub_left; lia]. }
        assert (S2' : status_of t4 (index * 2 + 2) = NODE_UNUSED).
        { rewrite <- S2. apply Hsame; [lia | apply not_sub_left_right; lia]. }
        exists (S c), t4. split; [simpl; lia|]. split; [|split].
        -- rewrite (shape_at_split d t4 index S0'), Hshape.
           rewrite (shape_at_free d t4 _ S2'). reflexivity.
        -- eapply same_outside_trans; [exact Hout|]. apply same_outside_left, Hsame.
        -- intros f. change (S c + S f)%nat with (S (c + S f)).
           rewrite head_split by assumption.
           rewrite H1. cbn [bind is_full andb]. rewrite H2. cbn [bind is_full andb]. rewrite H3. cbn [bind is_full andb].
           rewrite pow2_half, Hloop.
           destruct (is_full l'); [|reflexivity].
           rewrite mark_parent_left by lia.
           rewrite get_in_tree.
           2:{ eapply in_tree_length; [apply Hsame|]. eapply in_tree_length; [exact Hlen|].
               eapply node_in_tree; exact Hnr. }
           rewrite S2'. reflexivity.
      * destruct IHl as (c & Hc & Hloop).
        exists (S c). split; [simpl; lia|].
        intros f. change (S c + S f)%nat with (S (c + S f)).
        rewrite head_split by assumption.
        rewrite H1. cbn [bind is_full andb]. rewrite H2. cbn [bind is_full andb]. rewrite H3. cbn [bind is_full andb].
        rewrite pow2_half. apply Hloop.
    + (* SPLIT: search the left child, then the right child *)
      simpl in Hf. subst fl. destruct Hs as (Hst & -> & ->).
      rewrite Hst in Hg.
      apply wf_split_inv in Hwf. destruct Hwf as (Hfl & _ & Hwl & Hwr).
      rewrite alloc_sh_split_S by assumption.
      pose proof (IH t (index * 2 + 1) (lvl + 1) Hnl Hwl) as IHl.
      unfold alloc_outcome in IHl. rewrite node_left_offset in IHl by assumption.
      destruct (alloc_sh d size _ (shape_at d t (index * 2 + 1)))
        as [[[l' off]|]| | |]; cbn [bind is_full andb]; [| | |contradiction|contradiction].
      * (* found on the left *)
        destruct IHl as (c & t1 & Hc & Hshape & Hsame & Hloop).
        assert (S0 : status_of t1 index = NODE_SPLIT).
        { rewrite <- Hst. apply Hsame; [lia | apply not_in_sub_left; lia]. }
        assert (Sr : status_of t1 (index * 2 + 2) = status_of t (index * 2 + 2)).
        { apply Hsame; [lia | apply not_sub_left_right; lia]. }
        assert (Shr : shape_at d t1 (index * 2 + 2) = shape_at d t (index * 2 + 2)).
        { apply (shape_outside d d (index * 2 + 1)); [lia | exact Hsame |].
          intros j Hj Hj'. exact (sub_disjoint d d index j Hi Hj' Hj). }
        assert (Hinr : in_tree t1 (index * 2 + 2)).
        { eapply in_tree_length; [apply Hsame|]. eapply node_in_tree; exact Hnr. }
        destruct (is_full l' && is_full (shape_at d t (index * 2 + 2))) eqn:Hboth.
        -- apply andb_true_iff in Hboth. destruct Hboth as [Fl Fr].
           destruct (set_in_tree t1 index NODE_FULL) as (t2 & H2 & Hlen2).
           { eapply in_tree_length; [apply Hsame|]. exact Hin. }
           exists (S c), t2. split; [simpl; lia|]. split; [|split].
           ++ rewrite (shape_at_full d t2 index) by (eapply status_set_same; eauto).
              rewrite (shape_set_other d t1 t2 index (index * 2 + 1) NODE_FULL)
                by (auto; try lia; apply not_in_sub_left; lia).
              rewrite (shape_set_other d t1 t2 index (index * 2 + 2) NODE_FULL)
                by (auto; try lia; apply not_in_sub_right; lia).
              rewrite Hshape, Shr. reflexivity.
           ++ eapply same_outside_trans; [apply same_outside_left, Hsame|].
              exact (same_outside_set (S d) t1 t2 index _ status_full H2).
           ++ intros f. change (S c + S f)%nat with (S (c + S f)).
              rewrite head_descend by assumption.
              rewrite pow2_half, Hloop, Fl. cbn [bind is_full andb].
              rewrite mark_parent_left by lia.
              rewrite get_in_tree by assumption. cbn [bind is_full andb].
              rewrite Sr, <- (is_full_status d t), Fr, H2. reflexivity.
        -- exists (S c), t1. split; [simpl; lia|]. split; [|split].
           ++ rewrite (shape_at_split d t1 index S0), Hshape, Shr. reflexivity.
           ++ apply same_outside_left, Hsame.
           ++ intros f. change (S c + S f)%nat with (S (c + S f)).
              rewrite head_descend by assumption.
              rewrite pow2_half, Hloop. cbn [bind is_full andb].
              destruct (is_full l'); [|reflexivity]. simpl in Hboth.
              rewrite mark_parent_left by lia.
              rewrite get_in_tree by assumption. cbn [bind is_full andb].
              rewrite Sr, <- (is_full_status d t), Hboth. reflexivity.
      * (* nothing on the left *)
        destruct IHl as (cl & Hcl & Hloopl).
        pose proof (IH t (index * 2 + 2) (lvl + 1) Hnr Hwr) as IHr.
        unfold alloc_outcome in IHr. rewrite node_right_offset in IHr by assumption.
        destruct (alloc_sh d size _ (shape_at d t (index * 2 + 2)))
          as [[[r' off]|]| | |]; cbn [bind is_full andb]; [| | |contradiction|contradiction].
        -- destruct IHr as (c & t1 & Hc & Hshape & Hsame & Hloop).
           assert (S0 : status_of t1 index = NODE_SPLIT).
           { rewrite <- Hst. apply Hsame; [lia | apply not_in_sub_right; lia]. }
           assert (Sl : status_of t1 (index * 2 + 1) = status_of t (index * 2 + 1)).
           { apply Hsame; [lia | apply not_sub_right_left; lia]. }
           assert (Shl : shape_at d t1 (index * 2 + 1) = shape_at d t (index * 2 + 1)).
           { apply (shape_outside d d (index * 2 + 2)); [lia | exact Hsame |].
             intros j Hj Hj'. exact (sub_disjoint d d index j Hi Hj Hj'). }
           assert (Hinl : in_tree t1 (index * 2 + 1)).
           { eapply in_tree_length; [apply Hsame|]. eapply node_in_tree; exact Hnl. }
           assert (Hfuel : forall f,
             alloc_loop (S (cl + S c) + S f) size minl maxl t AtHead index lvl
               (2 ^ Z.of_nat (S d))
             = do t2 <- (if is_full r' then _mark_parent t1 (index * 2 + 2) else Ok t1);
               Ok (Some (to_int (Z.shiftl off minl)), t2)).
           { intros f.
             replace (S (cl + S c) + S f)%nat with (S (cl + S (c + S f))) by lia.
             rewrite head_descend by assumption.
             rewrite pow2_half, Hloopl, back_left. apply Hloop. }
           destruct (is_full (shape_at d t (index * 2 + 1)) && is_full r') eqn:Hboth.
           ++ apply andb_true_iff in Hboth. destruct Hboth as [Fl Fr].
              destruct (set_in_tree t1 index NODE_FULL) as (t2 & H2 & Hlen2).
              { eapply in_tree_length; [apply Hsame|]. exact Hin. }
              exists (S (cl + S c)), t2. split; [simpl; lia|]. split; [|split].
              ** rewrite (shape_at_full d t2 index) by (eapply status_set_same; eauto).
                 rewrite (shape_set_other d t1 t2 index (index * 2 + 1) NODE_FULL)
                   by (auto; try lia; apply not_in_sub_left; lia).
                 rewrite (shape_set_other d t1 t2 index (index * 2 + 2) NODE_FULL)
                   by (auto; try lia; apply not_in_sub_right; lia).
                 rewrite Hshape, Shl. reflexivity.
              ** eapply same_outside_trans; [apply same_outside_right, Hsame|].
                 exact (same_outside_set (S d) t1 t2 index _ status_full H2).
              ** intros f. rewrite Hfuel, Fr. cbn [bind is_full andb].
                 rewrite mark_parent_right by lia.
                 rewrite get_in_tree by assumption. cbn [bind is_full andb].
                 rewrite Sl, <- (is_full_status d t), Fl, H2. reflexivity.
           ++ exists (S (cl + S c)), t1. split; [simpl; lia|]. split; [|split].
              ** rewrite (shape_at_split d t1 index S0), Hshape, Shl. reflexivity.
              ** apply same_outside_right, Hsame.
              ** intros f. rewrite Hfuel. cbn [bind is_full andb].
                 destruct (is_full r'); [|reflexivity].
                 rewrite andb_true_r in Hboth.
                 rewrite mark_parent_right by lia.
                 rewrite get_in_tree by assumption. cbn [bind is_full andb].
                 rewrite Sl, <- (is_full_status d t), Hboth. reflexivity.
        -- destruct IHr as (cr & Hcr & Hloopr).
           exists (S (cl + S (cr + 1))). split; [simpl; lia|].
           intros f.
           replace (S (cl + S (cr + 1)) + S f)%nat with (S (cl + S (cr + S (S f)))) by lia.
           rewrite head_descend by assumption.
           rewrite pow2_half, Hloopl, back_left, Hloopr, back_right.
           rewrite ascend_right by assumption.
           rewrite pow2_S. f_equal. lia.
        -- destruct IHr as (cr & Hcr & Hloopr).
           exists (S (cl + S cr)). split; [simpl; lia|].
           intros f.
           replace (S (cl + S cr) + S f)%nat with (S (cl + S (cr + S f))) by lia.
           rewrite head_descend by assumption.
           rewrite pow2_half, Hloopl, back_left. apply Hloopr.
      * destruct IHl as (cl & Hcl & Hloopl).
        exists (S cl). split; [simpl; lia|].
        intros f. change (S cl + S f)%nat with (S (cl + S f)).
        rewrite head_descend by assumption.
        rewrite pow2_half. apply Hloopl.
Qed.

End AllocSim.

(** ** The release follows the release on the denoted tree *)

Lemma free_step_used (f : nat) (t : list Z) (offset left len index : Z) :
  _get_index_status t index = Ok NODE_USED ->
  free_loop (S f) t offset left len index
  = if offset =? left then _combine t index else Abort.
Proof. intros H. simpl. rewrite H. reflexivity. Qed.

Lemma free_step_unused (f : nat) (t : list Z) (offset left len index : Z) :
  _get_index_status t index = Ok NODE_UNUSED ->
  free_loop (S f) t offset left len index = Abort.
Proof. intros H. simpl. rewrite H. reflexivity. Qed.

Lemma free_step_descend (f : nat) (t : list Z) (offset left len index st : Z) :
  _get_index_status t index = Ok st -> st = NODE_SPLIT \/ st = NODE_FULL ->
  free_loop (S f) t offset left len index
  = if offset <? left + len ÷ 2 then
      free_loop f t offset left (len ÷ 2) (index * 2 + 1)
    else free_loop f t offset (left + len ÷ 2) (len ÷ 2) (index * 2 + 2).
Proof. intros H [-> | ->]; simpl; rewrite H; reflexivity. Qed.

Lemma free_sh_not_full (d : nat) (left off : Z) (sh sh' : shape) :
  free_sh d left off sh = Some sh' -> is_full sh' = false.
Proof.
  destruct sh as [| |f l r]; simpl; [discriminate| |].
  - destruct (off =? left); [|discriminate]. intros [= <-]. reflexivity.
  - destruct d as [|d]; [discriminate|].
    destruct (off <? left + 2 ^ Z.of_nat d).
    + destruct (free_sh d left off l) as [l'|]; [|discriminate].
      intros [= <-]. unfold merge. destruct (is_free l' && is_free r); reflexivity.
    + destruct (free_sh d _ off r) as [r'|]; [|discriminate].
      intros [= <-]. unfold merge. destruct (is_free l && is_free r'); reflexivity.
Qed.

Lemma is_free_eq (sh : shape) : is_free sh = true -> sh = Free.
Proof. destruct sh; simpl; congruence. Qed.

Lemma free_sim (maxl offset : Z) (d : nat) :
  forall (t : list Z) (left index lvl : Z),
    node_at maxl t d index lvl ->
    wf_shape d (shape_at d t index) = true ->
    free_outcome d t offset left index.
Proof.
  induction d as [|d IH]; intros t left index lvl Hn Hwf; unfold free_outcome;
    pose proof (node_index_nonneg _ _ _ _ _ Hn) as Hi;
    pose proof (node_in_tree _ _ _ _ _ Hn) as Hin;
    pose proof (get_in_tree t index Hin) as Hg.
  - pose proof (shape_at_inv O t index) as Hs.
    destruct (shape_at O t index) as [| |fl l r]; [| |discriminate].
    + simpl. intros [|f] Hf; [lia|]. rewrite Hs in Hg. apply free_step_unused; assumption.
    + rewrite Hs in Hg. simpl. destruct (offset =? left) eqn:E; simpl.
      * intros [|f] Hf; [lia|]. rewrite free_step_used by assumption. rewrite E. reflexivity.
      * intros [|f] Hf; [lia|]. rewrite free_step_used by assumption. rewrite E. reflexivity.
  - pose proof (node_left _ _ _ _ _ Hn) as Hnl.
    pose proof (node_right _ _ _ _ _ Hn) as Hnr.
    pose proof (shape_at_inv (S d) t index) as Hs.
    destruct (shape_at (S d) t index) as [| |fl l r] eqn:Hsh.
    + simpl. intros [|f] Hf; [lia|]. rewrite Hs in Hg. apply free_step_unused; assumption.
    + rewrite Hs in Hg. simpl. destruct (offset =? left) eqn:E; simpl.
      * intros [|f] Hf; [lia|]. rewrite free_step_used by assumption. rewrite E. reflexivity.
      * intros [|f] Hf; [lia|]. rewrite free_step_used by assumption. rewrite E. reflexivity.
    + destruct Hs as (Hst & -> & ->).
      apply wf_split_inv in Hwf. destruct Hwf as (Hfl & Hnf & Hwl & Hwr).
      assert (Hst' : status_of t index = NODE_SPLIT \/ status_of t index = NODE_FULL)
        by (rewrite Hst; destruct fl; auto).
      assert (Hstep : forall f,
        free_loop (S f) t offset left (2 ^ Z.of_nat (S d)) index
        = if offset <? left + 2 ^ Z.of_nat d then
            free_loop f t offset left (2 ^ Z.of_nat d) (index * 2 + 1)
          else free_loop f t offset (left + 2 ^ Z.of_nat d) (2 ^ Z.of_nat d) (index * 2 + 2)).
      { intros f. rewrite (free_step_descend f t offset left _ index _ Hg Hst').
        rewrite pow2_half. reflexivity. }
      assert (Hinl : in_tree t (index * 2 + 1)) by (eapply node_in_tree; exact Hnl).
      assert (Hinr : in_tree t (index * 2 + 2)) by (eapply node_in_tree; exact Hnr).
      cbn [free_sh is_full].
      destruct (offset <? left + 2 ^ Z.of_nat d) eqn:Hside.
      * (* the block lies in the left half *)
        pose proof (IH t left (index * 2 + 1) (lvl + 1) Hnl Hwl) as IHl.
        unfold free_outcome in IHl.
        destruct (free_sh d left offset (shape_at d t (index * 2 + 1))) as [l'|] eqn:El.
        2:{ intros [|f] Hf; [lia|]. rewrite Hstep. apply IHl. lia. }
        pose proof (free_sh_not_full _ _ _ _ _ El) as Hnfl.
        unfold merge. destruct (is_free l') eqn:Fl'.
        -- apply is_free_eq in Fl'. subst l'.
           rewrite (is_free_status d t (index * 2 + 2)). cbn [andb].
           destruct (Z.eqb_spec (status_of t (index * 2 + 2)) NODE_UNUSED) as [Er|Er];
             cbn [is_free].
           ++ intros [|f] Hf; [lia|]. rewrite Hstep, IHl by lia.
              rewrite combine_left, get_in_tree by assumption. cbn [bind].
              rewrite Er. reflexivity.
           ++ destruct (set_in_tree t (index * 2 + 1) NODE_UNUSED Hinl) as (t0 & H0 & Hlen0).
              assert (S0 : status_of t0 index = status_of t index).
              { apply (status_set_other t t0 (index * 2 + 1) index NODE_UNUSED); auto; lia. }
              assert (Sl0 : status_of t0 (index * 2 + 1) = NODE_UNUSED).
              { eapply status_set_same; eauto. }
              assert (Shr0 : shape_at d t0 (index * 2 + 2) = shape_at d t (index * 2 + 2)).
              { apply (shape_set_other d t t0 (index * 2 + 1) (index * 2 + 2) NODE_UNUSED);
                  [lia | auto | exact H0 | apply not_sub_right_left; lia]. }
              assert (Hcomb : _combine t (index * 2 + 1) = demote t0 (index * 2 + 1)).
              { rewrite combine_left, get_in_tree by assumption. cbn [bind].
                destruct (Z.eqb_spec (status_of t (index * 2 + 2)) NODE_UNUSED);
                  [contradiction|]. cbn [negb]. rewrite H0. reflexivity. }
              destruct fl.
              ** destruct (set_in_tree t0 index NODE_SPLIT) as (t1 & H1 & Hlen1).
                 { eapply in_tree_length; [exact Hlen0 | exact Hin]. }
                 exists t1. split; [|split].
                 --- rewrite (shape_at_split d t1 index) by (eapply status_set_same; eauto).
                     rewrite (shape_set_other d t0 t1 index (index * 2 + 1) NODE_SPLIT)
                       by (auto; try lia; apply not_in_sub_left; lia).
                     rewrite (shape_set_other d t0 t1 index (index * 2 + 2) NODE_SPLIT)
                       by (auto; try lia; apply not_in_sub_right; lia).
                     rewrite (shape_at_free d t0 _ Sl0), Shr0. reflexivity.
                 --- eapply same_outside_trans.
                     +++ apply same_outside_left.
                         exact (same_outside_set d t t0 _ _ status_unused H0).
                     +++ exact (same_outside_set (S d) t0 t1 index _ status_split H1).
                 --- intros [|f] Hf; [lia|]. rewrite Hstep, IHl, Hcomb by lia.
                     rewrite demote_left, get_in_tree
                       by first [lia | eapply in_tree_length; [exact Hlen0 | exact Hin]].
                     cbn [bind]. rewrite S0, Hst. cbn. rewrite H1. reflexivity.
              ** exists t0. split; [|split].
                 --- rewrite (shape_at_split d t0 index) by congruence.
                     rewrite (shape_at_free d t0 _ Sl0), Shr0. reflexivity.
                 --- apply same_outside_left.
                     exact (same_outside_set d t t0 _ _ status_unused H0).
                 --- intros [|f] Hf; [lia|]. rewrite Hstep, IHl, Hcomb by lia.
                     rewrite demote_left, get_in_tree
                       by first [lia | eapply in_tree_length; [exact Hlen0 | exact Hin]].
                     cbn [bind]. rewrite S0, Hst. reflexivity.
        -- cbn [andb is_free].
           destruct IHl as (t1 & Hshape & Hsame & Hloop).
           assert (S0 : status_of t1 index = status_of t index).
           { apply Hsame; [lia | apply not_in_sub_left; lia]. }
           assert (Shr : shape_at d t1 (index * 2 + 2) = shape_at d t (index * 2 + 2)).
           { apply (shape_outside d d (index * 2 + 1)); [lia | exact Hsame |].
             intros j Hj Hj'. exact (sub_disjoint d d index j Hi Hj' Hj). }
           assert (Hin1 : in_tree t1 index).
           { eapply in_tree_length; [apply Hsame | exact Hin]. }
           destruct fl.
           ++ symmetry in Hfl. apply andb_true_iff in Hfl. destruct Hfl as [Fl Fr].
              destruct (set_in_tree t1 index NODE_SPLIT Hin1) as (t2 & H2 & Hlen2).
              exists t2. split; [|split].
              ** rewrite (shape_at_split d t2 index) by (eapply status_set_same; eauto).
                 rewrite (shape_set_other d t1 t2 index (index * 2 + 1) NODE_SPLIT)
                   by (auto; try lia; apply not_in_sub_left; lia).
                 rewrite (shape_set_other d t1 t2 index (index * 2 + 2) NODE_SPLIT)
                   by (auto; try lia; apply not_in_sub_right; lia).
                 rewrite Hshape, Shr. reflexivity.
              ** eapply same_outside_trans; [apply same_outside_left, Hsame|].
                 exact (same_outside_set (S d) t1 t2 index _ status_split H2).
              ** intros [|f] Hf; [lia|]. rewrite Hstep, Hloop, Fl by lia.
                 rewrite demote_left, get_in_tree by first [lia | assumption].
                 cbn [bind]. rewrite S0, Hst. cbn. rewrite H2. reflexivity.
           ++ exists t1. split; [|split].
              ** rewrite (shape_at_split d t1 index) by congruence.
                 rewrite Hshape, Shr. reflexivity.
              ** apply same_outside_left, Hsame.
              ** intros [|f] Hf; [lia|]. rewrite Hstep, Hloop by lia.
                 destruct (is_full (shape_at d t (index * 2 + 1))); [|reflexivity].
                 rewrite demote_left, get_in_tree by first [lia | assumption].
                 cbn [bind]. rewrite S0, Hst. reflexivity.
      * (* the block lies in the right half *)
        pose proof (IH t (left + 2 ^ Z.of_nat d) (index * 2 + 2) (lvl + 1) Hnr Hwr) as IHr.
        unfold free_outcome in IHr.
        destruct (free_sh d (left + 2 ^ Z.of_nat d) offset (shape_at d t (index * 2 + 2)))
          as [r'|] eqn:Er.
        2:{ intros [|f] Hf; [lia|]. rewrite Hstep. apply IHr. lia. }
        pose proof (free_sh_not_full _ _ _ _ _ Er) as Hnfr.
        unfold merge. destruct (is_free r') eqn:Fr'.
        -- apply is_free_eq in Fr'. subst r'.
           rewrite (is_free_status d t (index * 2 + 1)). cbn [is_free]. rewrite andb_true_r.
           destruct (Z.eqb_spec (status_of t (index * 2 + 1)) NODE_UNUSED) as [El|El];
             cbn [is_free].
           ++ intros [|f] Hf; [lia|]. rewrite Hstep, IHr by lia.
              rewrite combine_right, get_in_tree by assumption. cbn [bind].
              rewrite El. reflexivity.
           ++ destruct (set_in_tree t (index * 2 + 2) NODE_UNUSED Hinr) as (t0 & H0 & Hlen0).
              assert (S0 : status_of t0 index = status_of t index).
              { apply (status_set_other t t0 (index * 2 + 2) index NODE_UNUSED); auto; lia. }
              assert (Sr0 : status_of t0 (index * 2 + 2) = NODE_UNUSED).
              { eapply status_set_same; eauto. }
              assert (Shl0 : shape_at d t0 (index * 2 + 1) = shape_at d t (index * 2 + 1)).
              { apply (shape_set_other d t t0 (index * 2 + 2) (index * 2 + 1) NODE_UNUSED);
                  [lia | auto | exact H0 | apply not_sub_left_right; lia]. }
              assert (Hcomb : _combine t (index * 2 + 2) = demote t0 (index * 2 + 2)).
              { rewrite combine_right, get_in_tree by assumption. cbn [bind].
                destruct (Z.eqb_spec (status_of t (index * 2 + 1)) NODE_UNUSED);
                  [contradiction|]. cbn [negb]. rewrite H0. reflexivity. }
              destruct fl.
              ** destruct (set_in_tree t0 index NODE_SPLIT) as (t1 & H1 & Hlen1).
                 { eapply in_tree_length; [exact Hlen0 | exact Hin]. }
                 exists t1. split; [|split].
                 --- rewrite (shape_at_split d t1 index) by (eapply status_set_same; eauto).
                     rewrite (shape_set_other d t0 t1 index (index * 2 + 1) NODE_SPLIT)
                       by (auto; try lia; apply not_in_sub_left; lia).
                     rewrite (shape_set_other d t0 t1 index (index * 2 + 2) NODE_SPLIT)
                       by (auto; try lia; apply not_in_sub_right; lia).
                     rewrite (shape_at_free d t0 _ Sr0), Shl0. reflexivity.
                 --- eapply same_outside_trans.
                     +++ apply same_outside_right.
                         exact (same_outside_set d t t0 _ _ status_unused H0).
                     +++ exact (same_outside_set (S d) t0 t1 index _ status_split H1).
                 --- intros [|f] Hf; [lia|]. rewrite Hstep, IHr, Hcomb by lia.
                     rewrite demote_right, get_in_tree
                       by first [lia | eapply in_tree_length; [exact Hlen0 | exact Hin]].
                     cbn [bind]. rewrite S0, Hst. cbn. rewrite H1. reflexivity.
              ** exists t0. split; [|split].
                 --- rewrite (shape_at_split d t0 index) by congruence.
                     rewrite (shape_at_free d t0 _ Sr0), Shl0. reflexivity.
                 --- apply same_outside_right.
                     exact (same_outside_set d t t0 _ _ status_unused H0).
                 --- intros [|f] Hf; [lia|]. rewrite Hstep, IHr, Hcomb by lia.
                     rewrite demote_right, get_in_tree
                       by first [lia | eapply in_tree_length; [exact Hlen0 | exact Hin]].
                     cbn [bind]. rewrite S0, Hst. reflexivity.
        -- rewrite andb_false_r. cbn [is_free].
           destruct IHr as (t1 & Hshape & Hsame & Hloop).
           assert (S0 : status_of t1 index = status_of t index).
           { apply Hsame; [lia | apply not_in_sub_right; lia]. }
           assert (Shl : shape_at d t1 (index * 2 + 1) = shape_at d t (index * 2 + 1)).
           { apply (shape_outside d d (index * 2 + 2)); [lia | exact Hsame |].
             intros j Hj Hj'. exact (sub_disjoint d d index j Hi Hj Hj'). }
           assert (Hin1 : in_tree t1 index).
           { eapply in_tree_length; [apply Hsame | exact Hin]. }
           destruct fl.
           ++ symmetry in Hfl. apply andb_true_iff in Hfl. destruct Hfl as [Fl Fr].
              destruct (set_in_tree t1 index NODE_SPLIT Hin1) as (t2 & H2 & Hlen2).
              exists t2. split; [|split].
              ** rewrite (shape_at_split d t2 index) by (eapply status_set_same; eauto).
                 rewrite (shape_set_other d t1 t2 index (index * 2 + 1) NODE_SPLIT)
                   by (auto; try lia; apply not_in_sub_left; lia).
                 rewrite (shape_set_other d t1 t2 index (index * 2 + 2) NODE_SPLIT)
                   by (auto; try lia; apply not_in_sub_right; lia).
                 rewrite Hshape, Shl. reflexivity.
              ** eapply same_outside_trans; [apply same_outside_right, Hsame|].
                 exact (same_outside_set (S d) t1 t2 index _ status_split H2).
              ** intros [|f] Hf; [lia|]. rewrite Hstep, Hloop, Fr by lia.
                 rewrite demote_right, get_in_tree by first [lia | assumption].
                 cbn [bind]. rewrite S0, Hst. cbn. rewrite H2. reflexivity.
           ++ exists t1. split; [|split].
              ** rewrite (shape_at_split d t1 index) by congruence.
                 rewrite Hshape, Shl. reflexivity.
              ** apply same_outside_right, Hsame.
              ** intros [|f] Hf; [lia|]. rewrite Hstep, Hloop by lia.
                 destruct (is_full (shape_at d t (index * 2 + 2))); [|reflexivity].
                 rewrite demote_right, get_in_tree by first [lia | assumption].
                 cbn [bind]. rewrite S0, Hst. reflexivity.
Qed.

(** ** Allocated blocks of a denoted tree *)

Lemma live_range (sh : shape) :
  forall (d : nat) (left o s : Z),
    In (o, s) (live d left sh) ->
    left <= o /\ o + s <= left + 2 ^ Z.of_nat d /\ 0 < s.
Proof.
  induction sh as [| |f l IHl r IHr]; intros d left o s H; simpl in H.
  - contradiction.
  - destruct H as [[= <- <-]|[]]. pose proof (pow2_pos (Z.of_nat d) ltac:(lia)). lia.
  - destruct d as [|d]; [contradiction|].
    rewrite pow2_S. pose proof (pow2_pos (Z.of_nat d) ltac:(lia)).
    apply in_app_or in H. destruct H as [H|H].
    + apply IHl in H. lia.
    + apply IHr in H. lia.
Qed.

Lemma live_offsets_nodup (sh : shape) :
  forall (d : nat) (left : Z), List.NoDup (map fst (live d left sh)).
Proof.
  induction sh as [| |f l IHl r IHr]; intros d left; simpl.
  - constructor.
  - constructor; [intros []|constructor].
  - destruct d as [|d]; [constructor|].
    rewrite map_app. apply List.NoDup_app; [apply IHl | apply IHr |].
    intros o Hl Hr.
    apply in_map_iff in Hl. destruct Hl as ([o1 s1] & E1 & Hl).
    apply in_map_iff in Hr. destruct Hr as ([o2 s2] & E2 & Hr).
    simpl in *. subst o1 o2.
    apply live_range in Hl. apply live_range in Hr. lia.
Qed.

Lemma live_disjoint (sh : shape) :
  forall (d : nat) (left : Z) (a b : Z * Z),
    In a (live d left sh) -> In b (live d left sh) -> a <> b ->
    fst a + snd a <= fst b \/ fst b + snd b <= fst a.
Proof.
  induction sh as [| |f l IHl r IHr]; intros d left a b Ha Hb Hne; simpl in *.
  - contradiction.
  - destruct Ha as [<-|[]], Hb as [<-|[]]. contradiction.
  - destruct d as [|d]; [contradiction|].
    apply in_app_or in Ha. apply in_app_or in Hb.
    destruct a as [oa sa], b as [ob sb]. simpl.
    destruct Ha as [Ha|Ha], Hb as [Hb|Hb].
    + exact (IHl _ _ _ _ Ha Hb Hne).
    + apply live_range in Ha. apply live_range in Hb. lia.
    + apply live_range in Ha. apply live_range in Hb. lia.
    + exact (IHr _ _ _ _ Ha Hb Hne).
Qed.

Lemma live_nil_free (sh : shape) :
  forall (d : nat) (left : Z),
    wf_shape d sh = true -> live d left sh = [] -> sh = Free.
Proof.
  induction sh as [| |f l IHl r IHr]; intros d left Hwf H; simpl in H.
  - reflexivity.
  - discriminate.
  - destruct d as [|d]; [discriminate Hwf|].
    apply wf_split_inv in Hwf. destruct Hwf as (_ & Hnf & Hwl & Hwr).
    apply app_eq_nil in H. destruct H as [Hl Hr].
    rewrite (IHl _ _ Hwl Hl), (IHr _ _ Hwr Hr) in Hnf. discriminate.
Qed.

(** A consistent tree is determined by its allocated blocks. *)
Lemma live_unique (sh1 : shape) :
  forall (d : nat) (left : Z) (sh2 : shape),
    wf_shape d sh1 = true -> wf_shape d sh2 = true ->
    (forall b, In b (live d left sh1) <-> In b (live d left sh2)) ->
    sh1 = sh2.
Proof.
  induction sh1 as [| |f1 l1 IHl r1 IHr]; intros d left sh2 W1 W2 H.
  - symmetry. apply (live_nil_free sh2 d left W2).
    destruct (live d left sh2) as [|b bs] eqn:E; [reflexivity|].
    exfalso. apply (H b). left. reflexivity.
  - assert (Hin : In (left, 2 ^ Z.of_nat d) (live d left sh2))
      by (apply H; left; reflexivity).
    destruct sh2 as [| |f2 l2 r2]; simpl in Hin; [contradiction|reflexivity|].
    destruct d as [|d]; [contradiction|].
    rewrite pow2_S in Hin. pose proof (pow2_pos (Z.of_nat d) ltac:(lia)).
    apply in_app_or in Hin. destruct Hin as [Hin|Hin]; apply live_range in Hin; lia.
  - destruct d as [|d]; [discriminate W1|].
    destruct sh2 as [| |f2 l2 r2].
    + pose proof (live_nil_free (Split f1 l1 r1) (S d) left W1) as Hn.
      assert (E : live (S d) left (Split f1 l1 r1) = []).
      { destruct (live (S d) left (Split f1 l1 r1)) as [|b bs] eqn:E; [reflexivity|].
        exfalso. apply (H b). left. reflexivity. }
      discriminate (Hn E).
    + assert (Hin : In (left, 2 ^ Z.of_nat (S d)) (live (S d) left (Split f1 l1 r1)))
        by (apply H; left; reflexivity).
      simpl in Hin. rewrite pow2_S in Hin. pose proof (pow2_pos (Z.of_nat d) ltac:(lia)).
      apply in_app_or in Hin. destruct Hin as [Hin|Hin]; apply live_range in Hin; lia.
    + pose proof (wf_split_inv _ _ _ _ W1) as (F1 & _ & Wl1 & Wr1).
      pose proof (wf_split_inv _ _ _ _ W2) as (F2 & _ & Wl2 & Wr2).
      simpl in H.
      assert (El : l1 = l2).
      { apply (IHl d left l2 Wl1 Wl2). intros [o s]. split; intros Hb.
        - assert (Hb' : In (o, s) (live d left l2 ++ live d (left + 2 ^ Z.of_nat d) r2))
            by (apply H, in_or_app; left; exact Hb).
          apply in_app_or in Hb'. destruct Hb' as [Hb'|Hb']; [exact Hb'|].
          apply live_range in Hb. apply live_range in Hb'. lia.
        - assert (Hb' : In (o, s) (live d left l1 ++ live d (left + 2 ^ Z.of_nat d) r1))
            by (apply H, in_or_app; left; exact Hb).
          apply in_app_or in Hb'. destruct Hb' as [Hb'|Hb']; [exact Hb'|].
          apply live_range in Hb. apply live_range in Hb'. lia. }
      assert (Er : r1 = r2).
      { apply (IHr d (left + 2 ^ Z.of_nat d) r2 Wr1 Wr2). intros [o s]. split; intros Hb.
        - assert (Hb' : In (o, s) (live d left l2 ++ live d (left + 2 ^ Z.of_nat d) r2))
            by (apply H, in_or_app; right; exact Hb).
          apply in_app_or in Hb'. destruct Hb' as [Hb'|Hb']; [|exact Hb'].
          apply live_range in Hb. apply live_range in Hb'. lia.
        - assert (Hb' : In (o, s) (live d left l1 ++ live d (left + 2 ^ Z.of_nat d) r1))
            by (apply H, in_or_app; right; exact Hb).
          apply in_app_or in Hb'. destruct Hb' as [Hb'|Hb']; [|exact Hb'].
          apply live_range in Hb. apply live_range in Hb'. lia. }
      subst. reflexivity.
Qed.

(** ** The search on a consistent tree *)

Lemma alloc_sh_wf (d : nat) (size : Z) :
  forall (left : Z) (sh sh' : shape) (off : Z),
    wf_shape d sh = true ->
    alloc_sh d size left sh = Ok (Some (sh', off)) ->
    wf_shape d sh' = true /\ is_free sh' = false.
Proof.
  induction d as [|d IH]; intros left sh sh' off Hwf H; rewrite alloc_sh_eq in H.
  - destruct (size =? 2 ^ Z.of_nat 0).
    + destruct sh; try discriminate. injection H as <- <-. auto.
    + destruct sh as [| |[|] l r]; discriminate.
  - destruct (size =? 2 ^ Z.of_nat (S d)).
    + destruct sh; try discriminate. injection H as <- <-. auto.
    + destruct sh as [| |[|] l r]; try discriminate.
      * destruct (alloc_sh d size left Free) as [[[l' o]|]| | |] eqn:E; try discriminate.
        cbn [bind] in H. injection H as <- <-.
        destruct (IH left Free l' o eq_refl E) as [Wl Fl].
        split; [|reflexivity]. simpl. rewrite Wl, Fl, andb_false_r. reflexivity.
      * apply wf_split_inv in Hwf. destruct Hwf as (Hfl & Hnf & Wl & Wr).
        destruct (alloc_sh d size left l) as [[[l' o]|]| | |] eqn:El; try discriminate;
          cbn [bind] in H.
        -- injection H as <- <-. destruct (IH _ _ _ _ Wl El) as [Wl' Fl'].
           split; [|reflexivity]. simpl.
           rewrite Wl', Wr, Fl', Bool.eqb_reflx. reflexivity.
        -- destruct (alloc_sh d size _ r) as [[[r' o]|]| | |] eqn:Er; try discriminate.
           cbn [bind] in H. injection H as <- <-.
           destruct (IH _ _ _ _ Wr Er) as [Wr' Fr'].
           split; [|reflexivity]. simpl.
           rewrite Wl, Wr', Fr', Bool.eqb_reflx, andb_false_r. reflexivity.
Qed.

Lemma alloc_sh_live (d : nat) (size : Z) :
  forall (left : Z) (sh sh' : shape) (off : Z),
    alloc_sh d size left sh = Ok (Some (sh', off)) ->
    Permutation (live d left sh') ((off, size) :: live d left sh).
Proof.
  induction d as [|d IH]; intros left sh sh' off H; rewrite alloc_sh_eq in H.
  - destruct (Z.eqb_spec size (2 ^ Z.of_nat 0)) as [->|].
    + destruct sh; try discriminate. injection H as <- <-. reflexivity.
    + destruct sh as [| |[|] l r]; discriminate.
  - destruct (Z.eqb_spec size (2 ^ Z.of_nat (S d))) as [->|].
    + destruct sh; try discriminate. injection H as <- <-. reflexivity.
    + destruct sh as [| |[|] l r]; try discriminate.
      * destruct (alloc_sh d size left Free) as [[[l' o]|]| | |] eqn:E; try discriminate.
        cbn [bind] in H. injection H as <- <-.
        apply IH in E. simpl in *. rewrite app_nil_r. exact E.
      * destruct (alloc_sh d size left l) as [[[l' o]|]| | |] eqn:El; try discriminate;
          cbn [bind] in H.
        -- injection H as <- <-. apply IH in El. simpl.
           change ((o, size) :: live d left l ++ live d (left + 2 ^ Z.of_nat d) r)
             with (((o, size) :: live d left l) ++ live d (left + 2 ^ Z.of_nat d) r).
           apply Permutation_app; [exact El | reflexivity].
        -- destruct (alloc_sh d size _ r) as [[[r' o]|]| | |] eqn:Er; try discriminate.
           cbn [bind] in H. injection H as <- <-. apply IH in Er. simpl.
           rewrite Permutation_middle.
           apply Permutation_app; [reflexivity | exact Er].
Qed.

Lemma alloc_sh_full_none (d : nat) (size left : Z) (sh : shape) :
  is_full sh = true -> alloc_sh d size left sh = Ok None.
Proof.
  destruct sh as [| |f l r]; simpl; intros H; [discriminate| |subst f].
  - apply alloc_sh_used.
  - apply alloc_sh_full.
Qed.

(** A tree that is not full has room for a minimum-size block. *)
Lemma alloc_sh_unit (d : nat) :
  forall (left : Z) (sh : shape),
    wf_shape d sh = true -> is_full sh = false ->
    exists sh' off, alloc_sh d 1 left sh = Ok (Some (sh', off)).
Proof.
  induction d as [|d IH]; intros left sh Hwf Hnf.
  - rewrite alloc_sh_exact by reflexivity.
    destruct sh; [eauto|discriminate|discriminate].
  - assert (Hne : 1 <> 2 ^ Z.of_nat (S d)).
    { rewrite pow2_S. pose proof (pow2_pos (Z.of_nat d) ltac:(lia)). lia. }
    destruct sh as [| |f l r]; [|discriminate|].
    + rewrite alloc_sh_free_S by assumption.
      destruct (IH left Free eq_refl eq_refl) as (l' & off & ->). cbn [bind]. eauto.
    + simpl in Hnf. subst f.
      apply wf_split_inv in Hwf. destruct Hwf as (Hfl & _ & Wl & Wr).
      rewrite alloc_sh_split_S by assumption.
      destruct (is_full l) eqn:Fl.
      * rewrite (alloc_sh_full_none d 1 left l Fl). cbn [bind].
        simpl in Hfl. symmetry in Hfl.
        destruct (IH (left + 2 ^ Z.of_nat d) r Wr Hfl) as (r' & off & ->). cbn [bind]. eauto.
      * destruct (IH left l Wl Fl) as (l' & off & ->). cbn [bind]. eauto.
Qed.

(** On an UNUSED node the search takes the leftmost block of the size. *)
Lemma alloc_sh_free_ok (d : nat) :
  forall (k : nat) (left : Z),
    (k <= d)%nat ->
    exists sh', alloc_sh d (2 ^ Z.of_nat k) left Free = Ok (Some (sh', left)).
Proof.
  induction d as [|d IH]; intros k left Hk.
  - assert (k = O) by lia. subst k. rewrite alloc_sh_exact by reflexivity. eauto.
  - destruct (Nat.eq_dec k (S d)) as [->|Hne].
    + rewrite alloc_sh_exact by reflexivity. eauto.
    + assert (2 ^ Z.of_nat k <> 2 ^ Z.of_nat (S d)).
      { intros E. apply Z.pow_inj_r in E; lia. }
      rewrite alloc_sh_free_S by assumption.
      destruct (IH k left ltac:(lia)) as (l' & ->). cbn [bind]. eauto.
Qed.

(** ** The release on a consistent tree *)

Lemma free_sh_wf (sh : shape) :
  forall (d : nat) (left off : Z) (sh' : shape),
    wf_shape d sh = true -> free_sh d left off sh = Some sh' ->
    wf_shape d sh' = true.
Proof.
  induction sh as [| |f l IHl r IHr]; intros d left off sh' Hwf H; simpl in H.
  - discriminate.
  - destruct (off =? left); [|discriminate]. injection H as <-. reflexivity.
  - destruct d as [|d]; [discriminate|].
    apply wf_split_inv in Hwf. destruct Hwf as (Hfl & Hnf & Wl & Wr).
    destruct (off <? left + 2 ^ Z.of_nat d).
    + destruct (free_sh d left off l) as [l'|] eqn:El; [|discriminate].
      injection H as <-. unfold merge.
      destruct (is_free l' && is_free r) eqn:E; [reflexivity|].
      simpl. rewrite E, (IHl _ _ _ _ Wl El), Wr, (free_sh_not_full _ _ _ _ _ El).
      reflexivity.
    + destruct (free_sh d _ off r) as [r'|] eqn:Er; [|discriminate].
      injection H as <-. unfold merge.
      destruct (is_free l && is_free r') eqn:E; [reflexivity|].
      simpl. rewrite E, (IHr _ _ _ _ Wr Er), Wl, (free_sh_not_full _ _ _ _ _ Er).
      rewrite andb_false_r. reflexivity.
Qed.

Lemma live_merge (d : nat) (left : Z) (l r : shape) :
  live (S d) left (merge l r) = live d left l ++ live d (left + 2 ^ Z.of_nat d) r.
Proof.
  unfold merge. destruct (is_free l && is_free r) eqn:E; [|reflexivity].
  apply andb_true_iff in E. destruct E as [El Er].
  apply is_free_eq in El. apply is_free_eq in Er. subst. reflexivity.
Qed.

Lemma free_sh_live (sh : shape) :
  forall (d : nat) (left off : Z) (sh' : shape),
    free_sh d left off sh = Some sh' ->
    exists sz, Permutation (live d left sh) ((off, sz) :: live d left sh').
Proof.
  induction sh as [| |f l IHl r IHr]; intros d left off sh' H; simpl in H.
  - discriminate.
  - destruct (Z.eqb_spec off left) as [->|]; [|discriminate]. injection H as <-.
    exists (2 ^ Z.of_nat d). reflexivity.
  - destruct d as [|d]; [discriminate|].
    destruct (off <? left + 2 ^ Z.of_nat d).
    + destruct (free_sh d left off l) as [l'|] eqn:El; [|discriminate].
      injection H as <-. destruct (IHl _ _ _ _ El) as (sz & P).
      exists sz. rewrite live_merge. simpl.
      change ((off, sz) :: live d left l' ++ live d (left + 2 ^ Z.of_nat d) r)
        with (((off, sz) :: live d left l') ++ live d (left + 2 ^ Z.of_nat d) r).
      apply Permutation_app; [exact P | reflexivity].
    + destruct (free_sh d _ off r) as [r'|] eqn:Er; [|discriminate].
      injection H as <-. destruct (IHr _ _ _ _ Er) as (sz & P).
      exists sz. rewrite live_merge. simpl.
      rewrite Permutation_middle.
      apply Permutation_app; [reflexivity | exact P].
Qed.

Lemma free_sh_some (sh : shape) :
  forall (d : nat) (left off sz : Z),
    wf_shape d sh = true -> In (off, sz) (live d left sh) ->
    exists sh', free_sh d left off sh = Some sh'.
Proof.
  induction sh as [| |f l IHl r IHr]; intros d left off sz Hwf H; simpl in H.
  - contradiction.
  - destruct H as [[= <- <-]|[]]. simpl. rewrite Z.eqb_refl. eauto.
  - destruct d as [|d]; [contradiction|].
    apply wf_split_inv in Hwf. destruct Hwf as (_ & _ & Wl & Wr).
    simpl. apply in_app_or in H. destruct H as [H|H].
    + pose proof (live_range _ _ _ _ _ H) as R.
      destruct (Z.ltb_spec off (left + 2 ^ Z.of_nat d)); [|lia].
      destruct (IHl _ _ _ _ Wl H) as (l' & ->). eauto.
    + pose proof (live_range _ _ _ _ _ H) as R.
      destruct (Z.ltb_spec off (left + 2 ^ Z.of_nat d)); [lia|].
      destruct (IHr _ _ _ _ Wr H) as (r' & ->). eauto.
Qed.

(** ** Sizing arithmetic *)

Lemma to_int_small (x : Z) : - 2 ^ 31 <= x < 2 ^ 31 -> to_int x = x.
Proof. intros H. unfold to_int. rewrite Z.mod_small by lia. lia. Qed.

(** [(size_t) (1 << min_level)]. *)
Lemma size_threshold (m : Z) :
  0 <= m <= 30 -> to_size_t (to_int (Z.shiftl 1 m)) = 2 ^ m.
Proof.
  intros Hm. rewrite Z.shiftl_1_l.
  assert (2 ^ m <= 2 ^ 30) by (apply Z.pow_le_mono_r; lia).
  pose proof (pow2_pos m ltac:(lia)).
  rewrite to_int_small by lia. unfold to_size_t. apply Z.mod_small. lia.
Qed.

Lemma size_threshold_ge (m : Z) :
  0 <= m <= 31 -> 2 ^ m <= to_size_t (to_int (Z.shiftl 1 m)).
Proof.
  intros Hm. destruct (Z.eq_dec m 31) as [->|N].
  - vm_compute. discriminate.
  - rewrite size_threshold by lia. lia.
Qed.

Lemma is_pow_of_2_pow2 (k : Z) : 0 <= k <= 31 -> is_pow_of_2 (2 ^ k) = true.
Proof.
  intros Hk. unfold is_pow_of_2.
  assert (2 ^ k <= 2 ^ 31) by (apply Z.pow_le_mono_r; lia).
  pose proof (pow2_pos k ltac:(lia)).
  rewrite Z.mod_small by lia.
  replace (2 ^ k - 1) with (Z.ones k) by (rewrite Z.ones_equiv; lia).
  rewrite Z.land_ones by lia. rewrite Z.mod_same by lia. reflexivity.
Qed.

Lemma next_pow_of_2_pow2 (k : Z) : 0 <= k <= 31 -> next_pow_of_2 (2 ^ k) = 2 ^ k.
Proof. intros Hk. unfold next_pow_of_2. rewrite is_pow_of_2_pow2 by assumption. reflexivity. Qed.

Lemma shiftr_shiftl_same (a n : Z) : 0 <= n -> Z.shiftr (Z.shiftl a n) n = a.
Proof.
  intros Hn. rewrite Z.shiftr_shiftl_l by lia.
  replace (n - n) with 0 by lia. apply Z.shiftl_0_r.
Qed.

Lemma cost_eq (d : nat) : Z.of_nat (cost d) = 2 ^ (Z.of_nat d + 2) - 3.
Proof.
  induction d as [|d IH]; [reflexivity|].
  cbn [cost]. rewrite Nat2Z.inj_add, Nat2Z.inj_mul, IH.
  replace (Z.of_nat (S d) + 2) with (Z.succ (Z.of_nat d + 2)) by lia.
  rewrite Z.pow_succ_r by lia. lia.
Qed.

(** ** Pools *)

Lemma depth_level (self : buddy) : 0 <= level self -> Z.of_nat (depth self) = level self.
Proof. intros H. unfold depth. lia. Qed.

Lemma pool_root (self : buddy) :
  pool_ok self -> node_at (level self) (tree self) (depth self) 0 0.
Proof.
  intros (Hm & Hl & Hlen & Hwf). unfold node_at.
  rewrite depth_level by lia. repeat split; first [lia | exact Hlen].
Qed.

Lemma with_tree_same (self : buddy) : with_tree self (tree self) = self.
Proof. destruct self; reflexivity. Qed.

(** On a consistent pool no shift is undefined and [1 << self->level] is
    the number of minimum blocks. *)
Lemma pool_length (self : buddy) :
  pool_ok self -> to_int (Z.shiftl 1 (level self)) = 2 ^ level self.
Proof.
  intros (Hm & Hl & _). rewrite Z.shiftl_1_l.
  assert (2 ^ level self <= 2 ^ 30) by (apply Z.pow_le_mono_r; lia).
  pose proof (pow2_pos (level self) ltac:(lia)).
  apply to_int_small. lia.
Qed.

Lemma buddy_alloc_eq (self : buddy) (s : Z) :
  pool_ok self ->
  buddy_alloc self s =
  if 2 ^ level self <? alloc_size self s then Ok (None, self)
  else
    do r <- alloc_loop (alloc_fuel self) (alloc_size self s) (min_level self)
              (level self) (tree self) AtHead 0 0 (2 ^ level self);
    Ok (fst r, with_tree self (snd r)).
Proof.
  intros Hok. unfold buddy_alloc. rewrite (pool_length self Hok).
  destruct Hok as (Hm & Hl & _).
  rewrite !shift_ok_true by lia. reflexivity.
Qed.

Lemma buddy_free_eq (self : buddy) (ptr : Z) :
  pool_ok self ->
  buddy_free self ptr =
  let offset := to_int (Z.shiftr ptr (min_level self)) in
  if negb ((0 <=? offset) && (offset <? 2 ^ level self)) then Abort
  else
    do t' <- free_loop (4 * List.length (tree self) + 1)%nat (tree self)
               offset 0 (2 ^ level self) 0;
    Ok (with_tree self t').
Proof.
  intros Hok. unfold buddy_free. rewrite (pool_length self Hok).
  destruct Hok as (Hm & Hl & _).
  rewrite !shift_ok_true by lia. reflexivity.
Qed.

(** [buddy_alloc] against the search on the tree the pool denotes. *)
Lemma buddy_alloc_sim (self : buddy) (s : Z) :
  pool_ok self ->
  match (if 2 ^ level self <? alloc_size self s then Ok None
         else alloc_sh (depth self) (alloc_size self s) 0 (pool_shape self)) with
  | Ok None => buddy_alloc self s = Ok (None, self)
  | Ok (Some (sh', off)) =>
      exists t1,
        buddy_alloc self s
        = Ok (Some (to_int (Z.shiftl off (min_level self))), with_tree self t1) /\
        shape_at (depth self) t1 0 = sh' /\ length t1 = length (tree self)
  | Fault => buddy_alloc self s = Fault
  | _ => False
  end.
Proof.
  intros Hok. pose proof (pool_root self Hok) as Hroot.
  rewrite (buddy_alloc_eq self s Hok).
  destruct Hok as (Hm & Hl & Hlen & Hwf).
  destruct (2 ^ level self <? alloc_size self s); [reflexivity|].
  pose proof (alloc_sim (alloc_size self s) (min_level self) (level self)
                ltac:(lia) ltac:(lia) (depth self) (tree self) 0 0 Hroot Hwf) as Hsim.
  unfold alloc_outcome in Hsim.
  replace ((0 + 1 - 2 ^ 0) * 2 ^ Z.of_nat (depth self)) with 0 in Hsim by (simpl; lia).
  rewrite depth_level in Hsim by lia.
  assert (Hfuel : forall c, (c <= cost (depth self))%nat ->
            exists f, alloc_fuel self = (c + S (S (S f)))%nat).
  { intros c Hc. exists (alloc_fuel self - c - 3)%nat.
    pose proof (cost_eq (depth self)) as Hce. rewrite depth_level in Hce by lia.
    unfold alloc_fuel. pose proof (pow2_pos (level self + 2) ltac:(lia)). lia. }
  fold (pool_shape self) in Hsim.
  destruct (alloc_sh (depth self) (alloc_size self s) 0 (pool_shape self))
    as [[[sh' off]|]| | |].
  - destruct Hsim as (c & t1 & Hc & Hshape & Hsame & Hloop).
    destruct (Hfuel c Hc) as (f & ->). rewrite Hloop.
    exists t1. split; [|split; [exact Hshape | apply Hsame]].
    destruct (is_full sh'); reflexivity.
  - destruct Hsim as (c & Hc & Hloop).
    destruct (Hfuel c Hc) as (f & ->). rewrite Hloop.
    rewrite ascend_root. cbn [bind fst snd]. rewrite with_tree_same. reflexivity.
  - destruct Hsim as (c & Hc & Hloop).
    destruct (Hfuel c Hc) as (f & ->). rewrite Hloop. reflexivity.
  - contradiction.
  - contradiction.
Qed.

Lemma pool_ok_with_tree (self : buddy) (t1 : list Z) :
  pool_ok self -> length t1 = length (tree self) ->
  wf_shape (depth self) (shape_at (depth self) t1 0) = true ->
  pool_ok (with_tree self t1).
Proof.
  intros (Hm & Hl & Hlen & _) Hlen1 Hwf. unfold pool_ok. simpl.
  rewrite Hlen1. auto.
Qed.

Lemma pool_live_with_tree (self : buddy) (t1 : list Z) :
  pool_live (with_tree self t1)
  = map (to_bytes (min_level self)) (live (depth self) 0 (shape_at (depth self) t1 0)).
Proof. reflexivity. Qed.

(** A successful allocation adds one block, of the rounded size, at the
    unit [o]; the offset returned is the [int] that is left of the byte
    offset of that unit. *)
Lemma buddy_alloc_some_units (self self' : buddy) (s off : Z) :
  pool_ok self -> buddy_alloc self s = Ok (Some off, self') ->
  pool_ok self' /\ min_level self' = min_level self /\ level self' = level self /\
  exists o,
    off = to_int (Z.shiftl o (min_level self)) /\ 0 <= o < 2 ^ level self /\
    Permutation (pool_live self')
      (to_bytes (min_level self) (o, alloc_size self s) :: pool_live self).
Proof.
  intros Hok H. pose proof (buddy_alloc_sim self s Hok) as Hsim.
  destruct (2 ^ level self <? alloc_size self s); [congruence|].
  destruct (alloc_sh (depth self) (alloc_size self s) 0 (pool_shape self))
    as [[[sh' o]|]| | |] eqn:E; try congruence; try contradiction.
  destruct Hsim as (t1 & Hres & Hshape & Hlen1).
  rewrite Hres in H. injection H as <- <-.
  destruct (alloc_sh_wf _ _ _ _ _ _ (proj2 (proj2 (proj2 Hok))) E) as [Hwf' _].
  split; [apply pool_ok_with_tree; [assumption..|rewrite Hshape; exact Hwf']|].
  split; [reflexivity|]. split; [reflexivity|].
  exists o. split; [reflexivity|].
  apply alloc_sh_live in E. split.
  - assert (Hin : In (o, alloc_size self s) (live (depth self) 0 sh')).
    { eapply Permutation_in; [symmetry; exact E|]. left. reflexivity. }
    pose proof (live_range _ _ _ _ _ Hin) as R.
    rewrite depth_level in R by (destruct Hok as (_ & ? & _); lia). lia.
  - rewrite pool_live_with_tree, Hshape.
    apply (Permutation_map (to_bytes (min_level self))) in E. exact E.
Qed.

(** On a pool of at most [2^30] bytes the byte offset of a unit fits an
    [int]. *)
Lemma unit_offset_small (self : buddy) (o : Z) :
  pool_ok self -> level self + min_level self <= 30 -> 0 <= o < 2 ^ level self ->
  to_int (Z.shiftl o (min_level self)) = o * 2 ^ min_level self.
Proof.
  intros (Hm & Hl & _) Hsmall Ho.
  rewrite Z.shiftl_mul_pow2 by lia. apply to_int_small.
  pose proof (pow2_pos (min_level self) ltac:(lia)).
  assert (2 ^ level self * 2 ^ min_level self <= 2 ^ 30).
  { rewrite <- Z.pow_add_r by lia. apply Z.pow_le_mono_r; lia. }
  nia.
Qed.

(** The unit returned by the search on the denoted tree is a unit of the
    pool. *)
Lemma alloc_sh_unit_range (self : buddy) (size o : Z) (sh' : shape) :
  pool_ok self ->
  alloc_sh (depth self) size 0 (pool_shape self) = Ok (Some (sh', o)) ->
  0 <= o < 2 ^ level self.
Proof.
  intros Hok E. apply alloc_sh_live in E.
  assert (Hin : In (o, size) (live (depth self) 0 sh')).
  { eapply Permutation_in; [symmetry; exact E|]. left. reflexivity. }
  pose proof (live_range _ _ _ _ _ Hin) as R.
  rewrite depth_level in R by (destruct Hok as (_ & ? & _); lia). lia.
Qed.

(** On a pool of at most [2^30] bytes the offset returned is the byte
    offset of the block. *)
Lemma buddy_alloc_some (self self' : buddy) (s off : Z) :
  pool_ok self -> level self + min_level self <= 30 ->
  buddy_alloc self s = Ok (Some off, self') ->
  pool_ok self' /\ min_level self' = min_level self /\ level self' = level self /\
  Permutation (pool_live self')
    ((off, Z.shiftl (alloc_size self s) (min_level self)) :: pool_live self).
Proof.
  intros Hok Hsmall H.
  destruct (buddy_alloc_some_units self self' s off Hok H)
    as (Hok' & Em & El & o & Eo & Ro & P).
  split; [exact Hok'|]. split; [exact Em|]. split; [exact El|].
  destruct Hok as (Hm & Hl & _).
  assert (Es : to_int (Z.shiftl o (min_level self)) = Z.shiftl o (min_level self)).
  { rewrite Z.shiftl_mul_pow2 by lia. apply to_int_small.
    pose proof (pow2_pos (min_level self) ltac:(lia)).
    assert (2 ^ level self * 2 ^ min_level self <= 2 ^ 30).
    { rewrite <- Z.pow_add_r by lia. apply Z.pow_le_mono_r; lia. }
    nia. }
  rewrite Eo, Es. exact P.
Qed.

Lemma buddy_alloc_ok (self self' : buddy) (s : Z) (r : option Z) :
  pool_ok self -> buddy_alloc self s = Ok (r, self') -> pool_ok self'.
Proof.
  intros Hok H. destruct r as [off|].
  - eapply buddy_alloc_some_units; eauto.
  - apply buddy_alloc_none in H. subst. exact Hok.
Qed.

(** [buddy_free] against the release on the tree the pool denotes. *)
Lemma buddy_free_sim (self : buddy) (ptr : Z) :
  pool_ok self ->
  let u := to_int (Z.shiftr ptr (min_level self)) in
  match (if (0 <=? u) && (u <? 2 ^ level self)
         then free_sh (depth self) 0 u (pool_shape self) else None) with
  | None => buddy_free self ptr = Abort
  | Some sh' =>
      exists t1,
        buddy_free self ptr = Ok (with_tree self t1) /\
        shape_at (depth self) t1 0 = sh' /\ length t1 = length (tree self)
  end.
Proof.
  intros Hok u. pose proof (pool_root self Hok) as Hroot.
  rewrite (buddy_free_eq self ptr Hok). cbv zeta. fold u.
  destruct Hok as (Hm & Hl & Hlen & Hwf).
  destruct ((0 <=? u) && (u <? 2 ^ level self)); [|reflexivity]. cbn [negb].
  pose proof (free_sim (level self) u (depth self) (tree self) 0 0 0 Hroot Hwf) as Hsim.
  unfold free_outcome in Hsim. rewrite depth_level in Hsim by lia.
  assert (Hfuel : (depth self < 4 * length (tree self) + 1)%nat).
  { pose proof (Z.pow_gt_lin_r 2 (level self + 1) ltac:(lia) ltac:(lia)).
    unfold depth. lia. }
  fold (pool_shape self) in Hsim.
  destruct (free_sh (depth self) 0 u (pool_shape self)) as [sh'|].
  - destruct (is_free sh') eqn:Hfree.
    + rewrite (Hsim _ Hfuel), combine_root.
      assert (Hin : in_tree (tree self) 0) by (eapply node_in_tree; exact Hroot).
      destruct (set_in_tree (tree self) 0 NODE_UNUSED Hin) as (t1 & H1 & Hlen1).
      rewrite H1. cbn [bind]. exists t1. split; [reflexivity|]. split; [|exact Hlen1].
      apply is_free_eq in Hfree. subst sh'.
      apply shape_at_free. eapply status_set_same; eauto.
    + destruct Hsim as (t1 & Hshape & Hsame & Hloop).
      rewrite (Hloop _ Hfuel). exists t1.
      split; [|split; [exact Hshape | apply Hsame]].
      destruct (is_full _); [rewrite demote_root|]; reflexivity.
  - rewrite (Hsim _ Hfuel). reflexivity.
Qed.

(** A release that passes the assertions removes one block, the one that
    starts at the unit of the pointer. *)
Lemma buddy_free_ok (self self' : buddy) (ptr : Z) :
  pool_ok self -> buddy_free self ptr = Ok self' ->
  pool_ok self' /\ min_level self' = min_level self /\ level self' = level self /\
  exists sz,
    Permutation (pool_live self)
      (to_bytes (min_level self) (to_int (Z.shiftr ptr (min_level self)), sz)
       :: pool_live self').
Proof.
  intros Hok H. pose proof (buddy_free_sim self ptr Hok) as Hsim. cbv zeta in Hsim.
  destruct ((0 <=? _) && (_ <? 2 ^ level self)); [|congruence].
  destruct (free_sh _ _ _ _) as [sh'|] eqn:E; [|congruence].
  destruct Hsim as (t1 & Hres & Hshape & Hlen1).
  rewrite Hres in H. injection H as <-.
  pose proof (free_sh_wf _ _ _ _ _ (proj2 (proj2 (proj2 Hok))) E) as Hwf'.
  split; [apply pool_ok_with_tree; [assumption..|rewrite Hshape; exact Hwf']|].
  split; [reflexivity|]. split; [reflexivity|].
  destruct (free_sh_live _ _ _ _ _ E) as (sz & P). exists sz.
  rewrite pool_live_with_tree, Hshape.
  apply (Permutation_map (to_bytes (min_level self))) in P. exact P.
Qed.

Lemma pool_live_unit (self : buddy) (off sz : Z) :
  pool_ok self -> In (off, sz) (pool_live self) ->
  exists o s,
    In (o, s) (live (depth self) 0 (pool_shape self)) /\
    off = Z.shiftl o (min_level self) /\ sz = Z.shiftl s (min_level self) /\
    0 <= o < 2 ^ level self /\ 0 < s /\
    to_int (Z.shiftr off (min_level self)) = o.
Proof.
  intros (Hm & Hl & Hlen & Hwf) H. unfold pool_live in H.
  apply in_map_iff in H. destruct H as ([o s] & E & H).
  unfold to_bytes in E. simpl in E. injection E as <- <-.
  exists o, s. pose proof (live_range _ _ _ _ _ H) as R.
  rewrite depth_level in R by lia.
  repeat split; try lia; try assumption.
  rewrite shiftr_shiftl_same by lia. apply to_int_small.
  assert (2 ^ level self <= 2 ^ 31) by (apply Z.pow_le_mono_r; lia). lia.
Qed.

(** Releasing the exact offset of an allocated block passes the assertions. *)
Lemma buddy_free_live (self : buddy) (off sz : Z) :
  pool_ok self -> In (off, sz) (pool_live self) ->
  exists self', buddy_free self off = Ok self'.
Proof.
  intros Hok H.
  destruct (pool_live_unit self off sz Hok H) as (o & s & Hin & -> & -> & Ho & Hs & Hu).
  pose proof (buddy_free_sim self (Z.shiftl o (min_level self)) Hok) as Hsim.
  cbv zeta in Hsim. rewrite Hu in Hsim.
  destruct (Z.leb_spec 0 o); [|lia]. destruct (Z.ltb_spec o (2 ^ level self)); [|lia].
  cbn [andb] in Hsim.
  destruct (free_sh_some _ _ _ _ _ (proj2 (proj2 (proj2 Hok))) Hin) as (sh' & E).
  rewrite E in Hsim. destruct Hsim as (t1 & Hres & _). eauto.
Qed.

Lemma pool_live_offsets_nodup (self : buddy) :
  pool_ok self -> List.NoDup (map fst (pool_live self)).
Proof.
  intros (Hm & _). unfold pool_live. rewrite map_map.
  pose proof (live_offsets_nodup (pool_shape self) (depth self) 0) as N.
  assert (E : map (fun x => fst (to_bytes (min_level self) x))
                (live (depth self) 0 (pool_shape self))
              = map (fun o => Z.shiftl o (min_level self))
                  (map fst (live (depth self) 0 (pool_shape self)))).
  { rewrite map_map. reflexivity. }
  rewrite E. apply NoDup_map_NoDup_ForallPairs; [|exact N].
  intros a b _ _ Hab.
  rewrite <- (shiftr_shiftl_same a (min_level self)), Hab by lia.
  apply shiftr_shiftl_same. lia.
Qed.

Lemma pool_live_same_offset (self : buddy) (off s1 s2 : Z) :
  pool_ok self -> In (off, s1) (pool_live self) -> In (off, s2) (pool_live self) ->
  s1 = s2.
Proof.
  intros Hok H1 H2. pose proof (pool_live_offsets_nodup self Hok) as N.
  destruct (in_split _ _ H1) as (l1 & l2 & E). rewrite E in N, H2.
  rewrite map_app in N. simpl in N. apply NoDup_remove_2 in N.
  apply in_app_or in H2. destruct H2 as [H2|[H2|H2]].
  - exfalso. apply N, in_or_app. left. apply (in_map fst) in H2. exact H2.
  - congruence.
  - exfalso. apply N, in_or_app. right. apply (in_map fst) in H2. exact H2.
Qed.

Lemma pool_live_disjoint (self : buddy) (a b : Z * Z) :
  pool_ok self -> In a (pool_live self) -> In b (pool_live self) -> a <> b ->
  fst a + snd a <= fst b \/ fst b + snd b <= fst a.
Proof.
  intros Hok Ha Hb Hne. unfold pool_live in *.
  apply in_map_iff in Ha. destruct Ha as (a' & <- & Ha).
  apply in_map_iff in Hb. destruct Hb as (b' & <- & Hb).
  assert (Hne' : a' <> b') by congruence.
  pose proof (live_disjoint _ _ _ _ _ Ha Hb Hne') as D.
  unfold to_bytes. simpl. rewrite !Z.shiftl_mul_pow2 by apply Hok.
  pose proof (pow2_pos (min_level self) ltac:(apply Hok)). nia.
Qed.

(** Two consistent pools of the same parameters with the same allocated
    blocks denote the same tree. *)
Lemma pool_shape_unique (p q : buddy) :
  pool_ok p -> pool_ok q ->
  min_level q = min_level p -> level q = level p ->
  (forall b, In b (pool_live p) <-> In b (pool_live q)) ->
  pool_shape p = pool_shape q.
Proof.
  intros Hp Hq Em El H.
  assert (Ed : depth q = depth p) by (unfold depth; congruence).
  apply (live_unique _ (depth p) 0); [apply Hp | rewrite <- Ed; apply Hq |].
  assert (Hinj : forall a b, to_bytes (min_level p) a = to_bytes (min_level p) b -> a = b).
  { intros [a1 a2] [b1 b2]. unfold to_bytes. simpl. intros [= E1 E2].
    f_equal.
    - rewrite <- (shiftr_shiftl_same a1 (min_level p)), E1 by apply Hp.
      apply shiftr_shiftl_same, Hp.
    - rewrite <- (shiftr_shiftl_same a2 (min_level p)), E2 by apply Hp.
      apply shiftr_shiftl_same, Hp. }
  intros b. unfold pool_live in H. rewrite Em, Ed in H. split; intros Hb.
  - apply (in_map (to_bytes (min_level p))) in Hb. apply H in Hb.
    apply in_map_iff in Hb. destruct Hb as (b' & E & Hb). apply Hinj in E. congruence.
  - apply (in_map (to_bytes (min_level p))) in Hb. apply H in Hb.
    apply in_map_iff in Hb. destruct Hb as (b' & E & Hb). apply Hinj in E. congruence.
Qed.

(** Releasing the exact offset of an allocated block releases that block. *)
Lemma buddy_free_block (p : buddy) (off sz : Z) :
  pool_ok p -> In (off, sz) (pool_live p) ->
  exists p',
    buddy_free p off = Ok p' /\ pool_ok p' /\
    min_level p' = min_level p /\ level p' = level p /\
    Permutation (pool_live p) ((off, sz) :: pool_live p').
Proof.
  intros Hok Hin.
  destruct (buddy_free_live p off sz Hok Hin) as (p' & Hf).
  destruct (buddy_free_ok _ _ _ Hok Hf) as (Hok' & Em & El & sz' & P).
  destruct (pool_live_unit p off sz Hok Hin) as (u & s0 & _ & Eu & _ & _ & _ & Hu).
  assert (Hin' : In (off, Z.shiftl sz' (min_level p)) (pool_live p)).
  { eapply Permutation_in; [symmetry; exact P|]. left.
    unfold to_bytes. cbn [fst snd]. rewrite Hu. congruence. }
  pose proof (pool_live_same_offset p off _ _ Hok Hin Hin') as Es.
  unfold to_bytes in P. cbn [fst snd] in P. rewrite Hu, <- Eu, <- Es in P.
  exists p'. auto.
Qed.

(** ** The constructed pool *)

Lemma status_of_zeroes (n : nat) (i : Z) : status_of (replicate n 0) i = 0.
Proof.
  unfold status_of, _get_index_status, tree_byte.
  destruct (Z.shiftr i 2 <? 0); [reflexivity|].
  destruct (replicate n 0 !! Z.to_nat (Z.shiftr i 2)) as [b|] eqn:E; [|reflexivity].
  apply lookup_replicate in E. destruct E as [-> _].
  rewrite Z.shiftr_0_l. reflexivity.
Qed.

(** The unit count of the block that reserves the tree bytes. *)
Lemma alloc_size_md (self : buddy) :
  0 <= min_level self <= 31 -> 2 <= level self <= 31 ->
  exists k : nat,
    (k <= depth self)%nat /\
    alloc_size self (2 ^ (level self - 1)) = 2 ^ Z.of_nat k /\
    2 ^ (level self - 1) <= Z.shiftl (2 ^ Z.of_nat k) (min_level self).
Proof.
  intros Hm Hl. unfold alloc_size.
  pose proof (size_threshold_ge (min_level self) Hm) as Hge.
  destruct (Z.leb_spec (2 ^ (level self - 1))
              (to_size_t (to_int (Z.shiftl 1 (min_level self))))) as [Hle|Hgt].
  - exists O. split; [lia|]. split; [reflexivity|].
    rewrite Z.shiftl_mul_pow2 by lia. change (2 ^ Z.of_nat 0) with 1.
    destruct (Z.eq_dec (min_level self) 31) as [E|N].
    + rewrite E. assert (2 ^ (level self - 1) <= 2 ^ 30) by (apply Z.pow_le_mono_r; lia).
      lia.
    + rewrite size_threshold in Hle by lia. lia.
  - assert (Hlt : min_level self < level self - 1).
    { destruct (Z.lt_ge_cases (min_level self) (level self - 1)); [assumption|].
      assert (2 ^ (level self - 1) <= 2 ^ min_level self)
        by (apply Z.pow_le_mono_r; lia). lia. }
    assert (Hb : 2 ^ (level self - 1) <= 2 ^ 30) by (apply Z.pow_le_mono_r; lia).
    pose proof (pow2_pos (level self - 1) ltac:(lia)).
    rewrite Z.mod_small by lia.
    rewrite next_pow_of_2_pow2 by lia. rewrite to_int_small by lia.
    rewrite Z.shiftr_div_pow2 by lia.
    rewrite <- Z.pow_sub_r by lia.
    exists (Z.to_nat (level self - 1 - min_level self)).
    rewrite Z2Nat.id by lia. split; [unfold depth; lia|]. split; [reflexivity|].
    rewrite Z.shiftl_mul_pow2, <- Z.pow_add_r by lia.
    replace (level self - 1 - min_level self + min_level self) with (level self - 1) by lia.
    lia.
Qed.

(** The pool of a tree of depth 31 refuses every request and fails every
    release. *)
Lemma to_int_range (x : Z) : - 2 ^ 31 <= to_int x < 2 ^ 31.
Proof.
  unfold to_int. pose proof (Z.mod_pos_bound (x + 2 ^ 31) (2 ^ 32) ltac:(lia)). lia.
Qed.

Lemma refusing_alloc (self : buddy) (s : Z) :
  pool_refusing self -> buddy_alloc self s = Ok (None, self).
Proof.
  intros (Hl & Hm & _). unfold buddy_alloc.
  rewrite !shift_ok_true by lia. cbn [andb negb]. rewrite Hl.
  change (to_int (Z.shiftl 1 31)) with (- 2 ^ 31).
  assert (Hs : - 2 ^ 31 < alloc_size self s).
  { unfold alloc_size. destruct (s <=? _); [lia|].
    pose proof (to_int_range (next_pow_of_2 (s mod 2 ^ 32))) as R.
    rewrite Z.shiftr_div_pow2 by lia.
    assert (2 ^ 4 <= 2 ^ min_level self) by (apply Z.pow_le_mono_r; lia).
    change (2 ^ 4) with 16 in *.
    apply Z.lt_le_trans with (- 2 ^ 27); [lia|].
    apply Z.div_le_lower_bound; nia. }
  destruct (Z.ltb_spec (- 2 ^ 31) (alloc_size self s)); [reflexivity | lia].
Qed.

Lemma refusing_free (self : buddy) (ptr : Z) :
  pool_refusing self -> buddy_free self ptr = Abort.
Proof.
  intros (Hl & _). unfold buddy_free.
  rewrite shift_ok_true by lia. cbn [negb]. rewrite Hl.
  change (to_int (Z.shiftl 1 31)) with (- 2 ^ 31).
  pose proof (to_int_range (Z.shiftr ptr (min_level self))) as R.
  destruct (Z.ltb_spec (to_int (Z.shiftr ptr (min_level self))) (- 2 ^ 31)); [lia|].
  rewrite andb_false_r. reflexivity.
Qed.

Lemma refusing_live (self : buddy) :
  pool_refusing self -> pool_shape self = Free /\ pool_live self = [].
Proof.
  intros (_ & _ & Hs). unfold pool_live, pool_shape.
  rewrite shape_at_free by exact Hs. split; reflexivity.
Qed.

(** What [buddy_from_buffer] builds: a consistent pool whose only block
    reserves the tree, or, for a tree of depth 31, a pool with nothing
    reserved that refuses every request. *)
Lemma from_buffer_inv (lvl min_lvl : Z) (dtor : bool) (p : buddy) :
  buddy_from_buffer lvl min_lvl dtor = Ok (Some p) ->
  min_level p = min_lvl /\ level p = (lvl - min_lvl) mod 2 ^ 32 /\
  4 <= min_lvl <= 31 /\ 2 <= level p <= 31 /\
  (level p = 31 -> pool_refusing p) /\
  (level p <= 30 ->
   pool_ok p /\ exists R, pool_live p = [(0, R)] /\ 2 ^ (level p - 1) <= R).
Proof.
  unfold buddy_from_buffer.
  set (L := (lvl - min_lvl) mod 2 ^ 32).
  destruct (Z.ltb_spec L 2) as [|HL]; [discriminate|].
  destruct (Z.ltb_spec min_lvl 4) as [|Hm]; [discriminate|]. cbn [orb].
  destruct (Z.ltb_spec 30 (L - 1)) as [|HL']; [discriminate|].
  set (self := mkBuddy min_lvl L dtor (replicate (Z.to_nat (Z.shiftl 1 (L - 1))) 0)).
  destruct (Z.le_gt_cases min_lvl 31) as [Hm31|Hm31].
  2:{ unfold buddy_alloc. cbn [min_level level self].
      unfold shift_ok at 1. destruct (Z.ltb_spec min_lvl 32); [lia|].
      rewrite andb_false_r. discriminate. }
  destruct (Z.eq_dec L 31) as [E31|N31].
  - assert (Hr : pool_refusing self).
    { unfold pool_refusing. cbn [min_level level tree self].
      split; [exact E31|]. split; [lia|]. apply status_of_zeroes. }
    rewrite (refusing_alloc self _ Hr). cbn [bind snd]. intros [= <-].
    cbn [min_level level self].
    split; [reflexivity|]. split; [reflexivity|].
    split; [lia|]. split; [lia|]. split; [intros _; exact Hr | lia].
  - assert (Hok : pool_ok self).
    { unfold pool_ok, pool_shape. cbn [min_level level tree self].
      split; [lia|]. split; [lia|]. split.
      - rewrite length_replicate, Z.shiftl_1_l.
        pose proof (pow2_pos (L - 1) ltac:(lia)). rewrite Z2Nat.id by lia.
        replace (L + 1) with (2 + (L - 1)) by lia. rewrite Z.pow_add_r by lia. lia.
      - rewrite shape_at_free by apply status_of_zeroes. reflexivity. }
    assert (Hlive0 : pool_live self = []).
    { unfold pool_live, pool_shape. cbn [tree self].
      rewrite shape_at_free by apply status_of_zeroes. reflexivity. }
    destruct (alloc_size_md self) as (k & Hk & Hsz & HR); [cbn; lia | cbn; lia |].
    cbn [level min_level self] in Hsz, HR.
    pose proof (buddy_alloc_sim self (2 ^ (L - 1)) Hok) as Hsim.
    cbn [level self] in Hsim. rewrite Hsz in Hsim.
    destruct (Z.ltb_spec (2 ^ L) (2 ^ Z.of_nat k)) as [Hc|_].
    { assert (2 ^ Z.of_nat k <= 2 ^ L)
        by (apply Z.pow_le_mono_r; unfold depth in Hk; cbn in Hk; lia).
      lia. }
    unfold pool_shape in Hsim. cbn [tree self] in Hsim.
    rewrite shape_at_free in Hsim by apply status_of_zeroes.
    destruct (alloc_sh_free_ok (depth self) k 0 Hk) as (sh' & E). rewrite E in Hsim.
    destruct Hsim as (t1 & Hres & Hshape & Hlen1).
    rewrite Z.shiftl_1_l, Hres. cbn [bind snd]. intros [= <-].
    pose proof (buddy_alloc_ok self _ _ _ Hok Hres) as Hok'.
    cbn [min_level level with_tree self].
    split; [reflexivity|]. split; [reflexivity|].
    split; [lia|]. split; [lia|]. split; [lia|]. intros _.
    split; [exact Hok'|].
    exists (Z.shiftl (2 ^ Z.of_nat k) min_lvl). split; [|exact HR].
    rewrite pool_live_with_tree, Hshape. cbn [min_level self].
    apply alloc_sh_live in E. cbn [live] in E.
    symmetry in E. apply Permutation_length_1_inv in E. rewrite E.
    unfold to_bytes. cbn [map fst snd]. rewrite Z.shiftl_0_l. reflexivity.
Qed.


Lemma from_buffer_ok (lvl min_lvl : Z) (dtor : bool) (p : buddy) :
  buddy_from_buffer lvl min_lvl dtor = Ok (Some p) -> level p <= 30 ->
  pool_ok p /\ min_level p = min_lvl /\ level p = (lvl - min_lvl) mod 2 ^ 32 /\
  4 <= min_lvl /\ 2 <= level p /\
  exists R, pool_live p = [(0, R)] /\ 2 ^ (level p - 1) <= R.
Proof.
  intros H Hl.
  destruct (from_buffer_inv lvl min_lvl dtor p H) as (Em & El & Hm & Hl2 & _ & Hok).
  destruct (Hok Hl) as (Hp & R). repeat (split; [first [assumption | lia]|]). exact R.
Qed.

(** ** Reachable pools *)

(** A pool reached by calls that return is consistent, or it is the
    untouched pool of a tree of depth 31. *)
Lemma reachable_inv (p : buddy) : reachable p -> pool_ok p \/ pool_refusing p.
Proof.
  induction 1 as [lvl min_lvl dtor p H|p s r p' _ IH H|p ptr p' _ IH H].
  - destruct (from_buffer_inv _ _ _ _ H) as (_ & _ & _ & Hl & H31 & H30).
    destruct (Z.eq_dec (level p) 31) as [E|N]; [right; exact (H31 E)|].
    left. apply H30. lia.
  - destruct IH as [Hok|Hr].
    + left. exact (buddy_alloc_ok _ _ _ _ Hok H).
    + right. rewrite (refusing_alloc p s Hr) in H. injection H as _ <-. exact Hr.
  - destruct IH as [Hok|Hr].
    + left. apply (buddy_free_ok _ _ _ Hok H).
    + rewrite (refusing_free p ptr Hr) in H. discriminate.
Qed.

Lemma reachable_ok (p : buddy) : reachable p -> level p <= 30 -> pool_ok p.
Proof.
  intros Hr Hl. destruct (reachable_inv p Hr) as [Hok|(E & _)]; [exact Hok | lia].
Qed.

Lemma wf_has_free (sh : shape) :
  forall d : nat, wf_shape d sh = true -> has_free sh = negb (is_full sh).
Proof.
  induction sh as [| |f l IHl r IHr]; intros d Hwf; [reflexivity..|].
  destruct d as [|d]; [discriminate|].
  apply wf_split_inv in Hwf. destruct Hwf as (Hf & _ & Wl & Wr).
  simpl. rewrite (IHl d Wl), (IHr d Wr), Hf.
  destruct (is_full l), (is_full r); reflexivity.
Qed.

Lemma wf_consistent (sh : shape) :
  forall d : nat, wf_shape d sh = true -> consistent d sh.
Proof.
  induction sh as [| |f l IHl r IHr]; intros d Hwf; simpl; [exact I..|].
  destruct d as [|d]; [discriminate|].
  pose proof (wf_split_inv _ _ _ _ Hwf) as (Hf & _ & Wl & Wr).
  rewrite (wf_has_free l d Wl), (wf_has_free r d Wr).
  split; [|split; [|split; [exact (IHl d Wl) | exact (IHr d Wr)]]].
  - intros ->. symmetry in Hf. apply andb_true_iff in Hf. destruct Hf as [-> ->]. auto.
  - intros ->. symmetry in Hf. apply andb_false_iff in Hf.
    destruct Hf as [-> | ->]; auto.
Qed.

(** Every pool reached from a constructed pool by calls of [buddy_alloc]
    and [buddy_free] that return denotes a consistent tree: a FULL node
    has no free capacity beneath it, a SPLIT node has some, and a node of
    the deepest level is neither; both operations preserve [pool_ok]. *)
Lemma reachable_consistent (p : buddy) :
  reachable p ->
  (pool_ok p \/ pool_refusing p) /\ consistent (depth p) (pool_shape p) /\
  (forall q s r q', pool_ok q -> buddy_alloc q s = Ok (r, q') ->
     pool_ok q' /\ consistent (depth q') (pool_shape q')) /\
  (forall q ptr q', pool_ok q -> buddy_free q ptr = Ok q' ->
     pool_ok q' /\ consistent (depth q') (pool_shape q')).
Proof.
  intros Hr. pose proof (reachable_inv p Hr) as Hinv.
  assert (Hc : forall q, pool_ok q -> pool_ok q /\ consistent (depth q) (pool_shape q)).
  { intros q Hq. split; [exact Hq|]. apply wf_consistent, Hq. }
  split; [exact Hinv|]. split; [|split].
  - destruct Hinv as [Hok|Hrf]; [apply Hc, Hok|].
    destruct (refusing_live p Hrf) as [-> _]. exact I.
  - intros q s r q' Hq H. exact (Hc q' (buddy_alloc_ok _ _ _ _ Hq H)).
  - intros q ptr q' Hq H. apply Hc. apply (buddy_free_ok _ _ _ Hq H).
Qed.

(** ** Blocks held by a caller *)

Lemma session_inv (p : buddy) (held : list (Z * Z)) :
  session p held ->
  pool_ok p /\ level p + min_level p <= 30 /\
  exists R, Permutation (pool_live p) ((0, R) :: held) /\ 2 ^ (level p - 1) <= R.
Proof.
  induction 1 as [lvl min_lvl dtor p H Hb|p held s off p' _ IH Hs H|p held s p' _ IH Hs H
                 |p held1 held2 off sz p' _ IH H].
  - destruct (from_buffer_inv _ _ _ _ H) as (Em & _ & Hm & _ & _ & H30).
    destruct (H30 ltac:(lia)) as (Hok & R & E & HR).
    split; [exact Hok|]. split; [exact Hb|].
    exists R. rewrite E. split; [reflexivity | exact HR].
  - destruct IH as (Hok & Hb & R & P & HR).
    destruct (buddy_alloc_some _ _ _ _ Hok Hb H) as (Hok' & Em & El & P').
    split; [exact Hok'|]. split; [lia|]. exists R. rewrite El. split; [|exact HR].
    rewrite P', P. apply perm_swap.
  - apply buddy_alloc_none in H. subst p'. exact IH.
  - destruct IH as (Hok & Hb & R & P & HR).
    assert (Hin : In (off, sz) (pool_live p)).
    { eapply Permutation_in; [symmetry; exact P|]. right. apply in_elt. }
    destruct (buddy_free_block p off sz Hok Hin) as (q & Hq & Hok' & Em & El & P').
    rewrite H in Hq. injection Hq as <-.
    split; [exact Hok'|]. split; [lia|]. exists R. rewrite El. split; [|exact HR].
    rewrite P' in P.
    apply (Permutation_cons_inv (a := (off, sz))).
    rewrite P. rewrite perm_swap. apply perm_skip. symmetry. apply Permutation_middle.
Qed.

(** ** Allocating, then releasing everything *)

Lemma alloc_all_spec (sizes : list Z) :
  forall (p p1 : buddy) (offs : list Z),
    pool_ok p -> level p + min_level p <= 30 ->
    alloc_all p sizes = Some (offs, p1) ->
    pool_ok p1 /\ min_level p1 = min_level p /\ level p1 = level p /\
    exists B, map fst B = offs /\ Permutation (pool_live p1) (B ++ pool_live p).
Proof.
  induction sizes as [|s sizes IH]; intros p p1 offs Hok Hb H; simpl in H.
  - injection H as <- <-. split; [exact Hok|]. split; [reflexivity|].
    split; [reflexivity|]. exists []. split; reflexivity.
  - destruct (buddy_alloc p s) as [[[off|] p']| | |] eqn:Ha; try discriminate.
    destruct (alloc_all p' sizes) as [[offs' q]|] eqn:Hrest; [|discriminate].
    injection H as <- <-.
    destruct (buddy_alloc_some _ _ _ _ Hok Hb Ha) as (Hok' & Em & El & P).
    destruct (IH _ _ _ Hok' ltac:(lia) Hrest) as (Hok1 & Em1 & El1 & B & EB & P1).
    split; [exact Hok1|]. split; [congruence|]. split; [congruence|].
    exists ((off, Z.shiftl (alloc_size p s) (min_level p)) :: B). split.
    + simpl. rewrite EB. reflexivity.
    + rewrite P1, P. simpl. symmetry. apply Permutation_middle.
Qed.

Lemma free_all_spec (order : list Z) :
  forall (B base : list (Z * Z)) (p : buddy),
    pool_ok p -> Permutation (pool_live p) (B ++ base) ->
    Permutation (map fst B) order ->
    exists p',
      free_all p order = Ok p' /\ pool_ok p' /\
      min_level p' = min_level p /\ level p' = level p /\
      Permutation (pool_live p') base.
Proof.
  induction order as [|o order IH]; intros B base p Hok P Po; simpl.
  - apply Permutation_nil_r in Po. apply map_eq_nil in Po. subst B.
    simpl in P. exists p. split; [reflexivity|]. split; [exact Hok|].
    split; [reflexivity|]. split; [reflexivity | exact P].
  - assert (Ho : In o (map fst B)).
    { eapply Permutation_in; [symmetry; exact Po|]. left. reflexivity. }
    apply in_map_iff in Ho. destruct Ho as ([o' sz] & Eo & HB). simpl in Eo. subst o'.
    destruct (in_split _ _ HB) as (B1 & B2 & ->).
    assert (Hin : In (o, sz) (pool_live p)).
    { eapply Permutation_in; [symmetry; exact P|].
      apply in_or_app. left. apply in_elt. }
    destruct (buddy_free_block p o sz Hok Hin) as (p1 & Hf & Hok1 & Em & El & P').
    rewrite Hf. cbn [bind].
    destruct (IH (B1 ++ B2) base p1 Hok1) as (p' & Hfa & Hok' & Em' & El' & Pf).
    + apply (Permutation_cons_inv (a := (o, sz))).
      rewrite <- P', P. rewrite <- !app_assoc. simpl.
      symmetry. apply Permutation_middle.
    + rewrite map_app in *. simpl in Po.
      apply (Permutation_cons_inv (a := o)).
      rewrite <- Po. apply Permutation_middle.
    + exists p'. split; [exact Hfa|]. split; [exact Hok'|].
      split; [congruence|]. split; [congruence | exact Pf].
Qed.

(** C2 (as amended): after any run of successful allocations, of at most
    [2^30] bytes each, on a freshly constructed pool of at most [2^30]
    bytes, releasing all of the returned offsets in any order passes every
    assertion and leaves a pool that denotes the same tree as the fresh
    pool: every node that is part of the tree has the status it had after
    construction.  (Bytes of nodes beneath an UNUSED node may differ.) *)
Theorem alloc_free_all_restores (lvl min_lvl : Z) (dtor : bool)
    (p0 p1 : buddy) (sizes offs order : list Z) :
  buddy_from_buffer lvl min_lvl dtor = Ok (Some p0) ->
  level p0 + min_level p0 <= 30 ->
  Forall (fun s => 0 <= s <= 2 ^ 30) sizes ->
  alloc_all p0 sizes = Some (offs, p1) ->
  Permutation offs order ->
  exists p2,
    free_all p1 order = Ok p2 /\
    pool_shape p2 = pool_shape p0 /\
    (forall i, visible (depth p0) (tree p0) 0 i ->
       status_of (tree p2) i = status_of (tree p0) i) /\
    min_level p2 = min_level p0 /\ level p2 = level p0 /\
    length (tree p2) = length (tree p0).
Proof.
  intros Hnew Hb _ Ha Pord.
  destruct (from_buffer_inv _ _ _ _ Hnew) as (Em0 & _ & Hm0 & _ & _ & H30).
  destruct (H30 ltac:(lia)) as (Hok0 & _).
  destruct (alloc_all_spec _ _ _ _ Hok0 Hb Ha) as (Hok1 & Em1 & El1 & B & EB & P1).
  destruct (free_all_spec order B (pool_live p0) p1 Hok1 P1) as (p2 & Hf & Hok2 & Em2 & El2 & P2).
  { rewrite EB. exact Pord. }
  assert (Hshape : pool_shape p2 = pool_shape p0).
  { symmetry. apply pool_shape_unique; [assumption | assumption | congruence | congruence |].
    intros b. split; intros Hin.
    - eapply Permutation_in; [symmetry; exact P2 | exact Hin].
    - eapply Permutation_in; [exact P2 | exact Hin]. }
  assert (Hd : depth p2 = depth p0) by (unfold depth; congruence).
  exists p2. split; [exact Hf|]. split; [exact Hshape|].
  split; [|split; [congruence|split; [congruence|]]].
  - intros i V. apply (shape_eq_visible (depth p0) _ _ 0 i); [|exact V].
    unfold pool_shape in Hshape. rewrite Hd in Hshape. exact Hshape.
  - destruct Hok2 as (_ & _ & L2 & _). destruct Hok0 as (_ & _ & L0 & _).
    rewrite El2, El1 in L2. lia.
Qed.

(** ** Checks of [buddy_free] *)

(** C7 (as amended): on a reachable pool [buddy_free] compares pointers in
    minimum-block units (the pointer difference shifted right by
    [min_level], as an [int]).  The exact offset of an allocated block is
    accepted and that block is released.  More generally, when the unit of
    the pointer is the first unit of an allocated block (the block that
    reserves the tree included), the descent reaches the USED node of that
    block, no assertion fires and the block is released; in every other
    case an assertion fires, and no write to the tree precedes it. *)
Theorem free_checks_unit (p : buddy) :
  reachable p ->
  (forall off sz, In (off, sz) (pool_live p) ->
     exists p',
       buddy_free p off = Ok p' /\
       Permutation (pool_live p) ((off, sz) :: pool_live p')) /\
  (forall ptr, starts_block p (to_int (Z.shiftr ptr (min_level p))) ->
     exists p' sz,
       buddy_free p ptr = Ok p' /\
       Permutation (live (depth p) 0 (pool_shape p))
         ((to_int (Z.shiftr ptr (min_level p)), sz)
          :: live (depth p') 0 (pool_shape p'))) /\
  (forall ptr, ~ starts_block p (to_int (Z.shiftr ptr (min_level p))) ->
     buddy_free p ptr = Abort).
Proof.
  intros Hr. destruct (reachable_inv p Hr) as [Hok|Hrf].
  2:{ destruct (refusing_live p Hrf) as (Es & El).
      split; [|split].
      - intros off sz Hin. rewrite El in Hin. destruct Hin.
      - intros ptr (sz & Hin). rewrite Es in Hin. destruct Hin.
      - intros ptr _. exact (refusing_free p ptr Hrf). }
  assert (Hl : Z.of_nat (depth p) = level p) by (apply depth_level; destruct Hok; lia).
  split; [|split].
  - intros off sz Hin.
    destruct (buddy_free_block p off sz Hok Hin) as (p' & Hf & _ & _ & _ & P). eauto.
  - intros ptr (sz & Hin).
    pose proof (buddy_free_sim p ptr Hok) as Hsim. cbv zeta in Hsim.
    set (u := to_int (Z.shiftr ptr (min_level p))) in *.
    pose proof (live_range _ _ _ _ _ Hin) as R. rewrite Hl in R.
    destruct (Z.leb_spec 0 u); [|lia]. destruct (Z.ltb_spec u (2 ^ level p)); [|lia].
    cbn [andb] in Hsim.
    destruct (free_sh_some _ _ _ _ _ (proj2 (proj2 (proj2 Hok))) Hin) as (sh' & E).
    rewrite E in Hsim. destruct Hsim as (t1 & Hres & Hshape & Hlen).
    destruct (free_sh_live _ _ _ _ _ E) as (sz' & P).
    exists (with_tree p t1), sz'. split; [exact Hres|].
    change (live (depth (with_tree p t1)) 0 (pool_shape (with_tree p t1)))
      with (live (depth p) 0 (shape_at (depth p) t1 0)).
    rewrite Hshape. exact P.
  - intros ptr Hn.
    pose proof (buddy_free_sim p ptr Hok) as Hsim. cbv zeta in Hsim.
    set (u := to_int (Z.shiftr ptr (min_level p))) in *.
    destruct ((0 <=? u) && (u <? 2 ^ level p)); [|exact Hsim].
    destruct (free_sh (depth p) 0 u (pool_shape p)) as [sh'|] eqn:E; [|exact Hsim].
    exfalso. apply Hn. destruct (free_sh_live _ _ _ _ _ E) as (sz & P).
    exists sz. eapply Permutation_in; [symmetry; exact P|]. left. reflexivity.
Qed.

(** ** Requests of zero bytes *)

Lemma alloc_size_small (self : buddy) (s : Z) :
  0 <= min_level self <= 31 -> s <= 2 ^ min_level self -> alloc_size self s = 1.
Proof.
  intros Hm H. unfold alloc_size.
  pose proof (size_threshold_ge (min_level self) Hm).
  destruct (Z.leb_spec s (to_size_t (to_int (Z.shiftl 1 (min_level self)))));
    [reflexivity|lia].
Qed.


(** ** Coalescing *)

Lemma ancestor_parent (k : nat) (i : Z) :
  ancestor (S k) i = ancestor k (parent i).
Proof. induction k as [|k IH]; [reflexivity|]. cbn [ancestor] in *. rewrite IH. reflexivity. Qed.

Lemma parent_neg (i : Z) : i <= 0 -> parent i < 0.
Proof.
  intros H. unfold parent.
  assert (Q : (i + 1) ÷ 2 <= 1 ÷ 2) by (apply Z.quot_le_mono; lia).
  change (1 ÷ 2) with 0 in Q. lia.
Qed.

Lemma parent_range (i : Z) : 1 <= i -> 0 <= parent i < i.
Proof. exact (parent_lt i). Qed.

Lemma ancestor_below (k : nat) :
  forall i : Z, (1 <= k)%nat -> 0 <= ancestor k i -> 0 <= ancestor k i < i.
Proof.
  induction k as [|k IH]; intros i Hk H; [lia|].
  rewrite ancestor_parent in *.
  assert (Hi : 1 <= i -> 0 <= parent i < i) by apply parent_range.
  assert (Hn : i <= 0 -> parent i < 0) by apply parent_neg.
  destruct k as [|k].
  - cbn [ancestor] in *. lia.
  - pose proof (IH (parent i) ltac:(lia) H). lia.
Qed.

Lemma demote_spec (fuel : nat) :
  forall (t : list Z) (c : Z),
    0 <= c -> in_tree t c -> (Z.to_nat c < fuel)%nat ->
    exists t' m,
      demote_loop fuel t c = Ok t' /\ demoted t t' c m /\
      length t' = length t /\
      forall x, 0 <= x ->
        (forall j, (1 <= j <= m)%nat -> x <> ancestor j c) ->
        status_of t' x = status_of t x.
Proof.
  induction fuel as [|f IH]; intros t c Hc Hin Hf; [lia|].
  cbn [demote_loop]. change ((c + 1) ÷ 2 - 1) with (parent c).
  destruct (Z.leb_spec 0 (parent c)) as [Hp|Hp].
  - assert (H1 : 1 <= c).
    { destruct (Z.le_gt_cases 1 c); [assumption|].
      pose proof (parent_neg c ltac:(lia)). lia. }
    pose proof (parent_range c H1) as Hpr.
    assert (Hinp : in_tree t (parent c)) by (unfold in_tree in *; lia).
    rewrite (get_in_tree t _ Hinp). cbn [bind].
    destruct (Z.eqb_spec (status_of t (parent c)) NODE_FULL) as [Efull|Efull].
    + destruct (set_in_tree t (parent c) NODE_SPLIT Hinp) as (t1 & H1s & Hlen1).
      rewrite H1s. cbn [bind].
      destruct (IH t1 (parent c) ltac:(lia)
                  ltac:(eapply in_tree_length; [exact Hlen1 | exact Hinp]) ltac:(lia))
        as (t' & m & Hloop & [Hd Hstop] & Hlen & Hkeep).
      assert (Hanc : forall j, (1 <= j <= m)%nat -> ancestor j (parent c) < parent c).
      { intros j Hj. destruct (Hd j Hj) as (H0 & _).
        pose proof (ancestor_below j (parent c) ltac:(lia) H0). lia. }
      assert (Hsame1 : forall x, 0 <= x -> x <> parent c -> status_of t1 x = status_of t x).
      { intros x Hx Hne. apply (status_set_other t t1 (parent c) x NODE_SPLIT); auto. }
      exists t', (S m). split; [exact Hloop|]. split; [split|split].
      * intros [|[|j]] Hj; [lia| |].
        -- cbn [ancestor]. split; [lia|]. split; [exact Efull|].
           rewrite Hkeep; [eapply status_set_same; eauto | lia |].
           intros j Hj' E. specialize (Hanc j Hj'). lia.
        -- rewrite ancestor_parent.
           destruct (Hd (S j) ltac:(lia)) as (H0 & Hfull & Hsplit).
           split; [exact H0|]. split; [|exact Hsplit].
           rewrite <- Hsame1; [exact Hfull | exact H0 |].
           specialize (Hanc (S j) ltac:(lia)). lia.
      * rewrite ancestor_parent. destruct Hstop as [Hneg|Hnf]; [left; exact Hneg|].
        destruct (Z.lt_ge_cases (ancestor (S m) (parent c)) 0) as [Hlt|Hge]; [left; exact Hlt|].
        right. rewrite <- Hsame1; [exact Hnf | exact Hge |].
        pose proof (ancestor_below (S m) (parent c) ltac:(lia) Hge). lia.
      * congruence.
      * intros x Hx Hne. rewrite Hkeep; [apply Hsame1; [exact Hx|]|exact Hx|].
        -- exact (Hne 1%nat ltac:(lia)).
        -- intros j Hj. specialize (Hne (S j) ltac:(lia)).
           rewrite ancestor_parent in Hne. exact Hne.
    + exists t, O. split; [reflexivity|]. split; [split|split].
      * intros j Hj. lia.
      * right. exact Efull.
      * reflexivity.
      * reflexivity.
  - exists t, O. split; [reflexivity|]. split; [split|split].
    + intros j Hj. lia.
    + left. exact Hp.
    + reflexivity.
    + reflexivity.
Qed.

(** The loop stops at [i]: the node is written UNUSED and the FULL nodes
    above it are demoted. *)
Lemma combine_stop (t : list Z) (i : Z) :
  0 <= i -> in_tree t i ->
  exists t' m,
    (do t0 <- _set_index_status t i NODE_UNUSED; demote_loop (Z.to_nat i + 1) t0 i)
    = Ok t' /\
    status_of t' i = NODE_UNUSED /\ demoted t t' i m /\ others_kept t t' i m.
Proof.
  intros Hi Hin.
  destruct (set_in_tree t i NODE_UNUSED Hin) as (t0 & H0 & Hlen0).
  rewrite H0. cbn [bind].
  destruct (demote_spec (Z.to_nat i + 1) t0 i Hi
              ltac:(eapply in_tree_length; [exact Hlen0 | exact Hin]) ltac:(lia))
    as (t' & m & Hloop & [Hd Hstop] & Hlen & Hkeep).
  assert (Hanc : forall j, (1 <= j)%nat -> 0 <= ancestor j i -> ancestor j i <> i).
  { intros j Hj H. pose proof (ancestor_below j i Hj H). lia. }
  assert (Hsame0 : forall x, 0 <= x -> x <> i -> status_of t0 x = status_of t x).
  { intros x Hx Hne. apply (status_set_other t t0 i x NODE_UNUSED); auto. }
  exists t', m. split; [exact Hloop|]. split; [|split; [split|split]].
  - rewrite Hkeep; [eapply status_set_same; eauto | exact Hi |].
    intros j Hj E. destruct (Hd j Hj) as (Hge & _). apply (Hanc j); [lia | exact Hge | congruence].
  - intros j Hj. destruct (Hd j Hj) as (Hge & Hfull & Hsplit).
    split; [exact Hge|]. split; [|exact Hsplit].
    rewrite <- Hsame0; [exact Hfull | exact Hge | apply Hanc; [lia | exact Hge]].
  - destruct Hstop as [Hneg|Hnf]; [left; exact Hneg|].
    destruct (Z.lt_ge_cases (ancestor (S m) i) 0) as [Hlt|Hge]; [left; exact Hlt|].
    right. rewrite <- Hsame0; [exact Hnf | exact Hge | apply Hanc; [lia | exact Hge]].
  - congruence.
  - intros x Hx Hne Hnanc. rewrite Hkeep; [apply Hsame0; assumption | exact Hx | exact Hnanc].
Qed.

Lemma combine_spec (fuel : nat) :
  forall (t : list Z) (i : Z),
    0 <= i -> in_tree t (i + 1) -> (Z.to_nat i < fuel)%nat ->
    exists t' k m,
      combine_loop fuel t i = Ok t' /\ merged t i k /\
      0 <= ancestor k i /\
      status_of t' (ancestor k i) = NODE_UNUSED /\
      demoted t t' (ancestor k i) m /\ others_kept t t' (ancestor k i) m.
Proof.
  induction fuel as [|f IH]; intros t i Hi Hin Hf; [lia|].
  cbn [combine_loop]. change (i - 1 + Z.land i 1 * 2) with (buddy_of i).
  assert (Hini : in_tree t i) by (unfold in_tree in *; lia).
  assert (Hbr : buddy_of i <= i + 1) by (unfold buddy_of; pose proof (land1_cases i); lia).
  destruct (Z.ltb_spec (buddy_of i) 0) as [Hb|Hb].
  - cbn [bind].
    destruct (combine_stop t i Hi Hini) as (t' & m & Hres & Hun & Hd & Hk).
    exists t', O, m. split; [exact Hres|]. split; [|cbn [ancestor]; auto].
    split; [intros j Hj; lia | left; exact Hb].
  - assert (Hinb : in_tree t (buddy_of i)) by (unfold in_tree in *; lia).
    rewrite (get_in_tree t _ Hinb). cbn [bind].
    destruct (Z.eqb_spec (status_of t (buddy_of i)) NODE_UNUSED) as [Eun|Eun]; cbn [negb].
    + pose proof (buddy_nonneg_index i Hi ltac:(unfold buddy_of in Hb; lia)) as H1.
      pose proof (parent_range i H1) as Hpr.
      change ((i + 1) ÷ 2 - 1) with (parent i).
      destruct (IH t (parent i) ltac:(lia) ltac:(unfold in_tree in *; lia) ltac:(lia))
        as (t' & k & m & Hres & [Hm Hstop] & Hge & Hun & Hd & Hk).
      exists t', (S k), m. rewrite ancestor_parent.
      split; [exact Hres|]. split; [|auto]. split.
      * intros [|j] Hj; [cbn [ancestor]; auto|].
        rewrite ancestor_parent. apply Hm. lia.
      * rewrite ancestor_parent. exact Hstop.
    + destruct (combine_stop t i Hi Hini) as (t' & m & Hres & Hun & Hd & Hk).
      exists t', O, m. split; [exact Hres|]. split; [|cbn [ancestor]; auto].
      split; [intros j Hj; lia | right; exact Eun].
Qed.

(** What [_combine] does from any node whose buddy lies in the tree. *)
Lemma combine_at (t : list Z) (index : Z) :
  0 <= index -> in_tree t (index + 1) ->
  exists t' k m,
    _combine t index = Ok t' /\ merged t index k /\
    0 <= ancestor k index /\
    status_of t' (ancestor k index) = NODE_UNUSED /\
    demoted t t' (ancestor k index) m /\
    others_kept t t' (ancestor k index) m.
Proof.
  intros Hi Hin. unfold _combine. apply combine_spec; [assumption | assumption | lia].
Qed.

(** When at least one level is merged, the freed node itself is not
    written. *)
Lemma combine_keeps_index (t t' : list Z) (index : Z) (k m : nat) :
  0 <= index -> (1 <= k)%nat -> 0 <= ancestor k index ->
  demoted t t' (ancestor k index) m -> others_kept t t' (ancestor k index) m ->
  status_of t' index = status_of t index.
Proof.
  intros Hi Hk Hge [Hd _] [_ Hkeep].
  pose proof (ancestor_below k index Hk Hge) as Hb.
  apply Hkeep; [exact Hi | lia |].
  intros j Hj E. destruct (Hd j Hj) as (Hge' & _).
  pose proof (ancestor_below j (ancestor k index) ltac:(lia) Hge'). lia.
Qed.

(** A release that passes the assertions has reached a USED node and
    called [_combine] on it. *)
Lemma free_loop_locates (maxl offset : Z) (d : nat) :
  forall (t : list Z) (left index lvl : Z) (f : nat) (t' : list Z),
    node_at maxl t d index lvl ->
    wf_shape d (shape_at d t index) = true ->
    free_loop f t offset left (2 ^ Z.of_nat d) index = Ok t' ->
    exists x,
      0 <= x /\ in_tree t (x + 1) /\ status_of t x = NODE_USED /\
      _combine t x = Ok t'.
Proof.
  induction d as [|d IH]; intros t left index lvl f t' Hn Hwf H;
    (destruct f as [|f]; [discriminate|]);
    pose proof (node_index_nonneg _ _ _ _ _ Hn) as Hi;
    pose proof (node_in_tree _ _ _ _ _ Hn) as Hin;
    pose proof (get_in_tree t index Hin) as Hg.
  - pose proof (shape_at_inv O t index) as Hs.
    assert (Hnext : in_tree t (index + 1)).
    { destruct Hn as (H0 & H1 & Hr & Hlen). unfold in_tree. rewrite Hlen.
      replace (maxl + 1) with (lvl + 1) by lia. lia. }
    destruct (shape_at O t index) as [| |fl l r]; [| |discriminate].
    + rewrite Hs in Hg. rewrite free_step_unused in H by assumption. discriminate.
    + rewrite Hs in Hg. rewrite free_step_used in H by assumption.
      destruct (offset =? left); [|discriminate]. exists index. auto.
  - pose proof (shape_at_inv (S d) t index) as Hs.
    assert (Hnext : in_tree t (index + 1)).
    { destruct Hn as (H0 & H1 & Hr & Hlen). unfold in_tree. rewrite Hlen.
      assert (2 ^ (lvl + 1) <= 2 ^ (maxl + 1)) by (apply Z.pow_le_mono_r; lia).
      pose proof (pow2_pos lvl H0).
      assert (2 ^ (lvl + 1) < 2 ^ (maxl + 1)); [|lia].
      apply Z.pow_lt_mono_r; lia. }
    destruct (shape_at (S d) t index) as [| |fl l r].
    + rewrite Hs in Hg. rewrite free_step_unused in H by assumption. discriminate.
    + rewrite Hs in Hg. rewrite free_step_used in H by assumption.
      destruct (offset =? left); [|discriminate]. exists index. auto.
    + destruct Hs as (Hst & -> & ->).
      apply wf_split_inv in Hwf. destruct Hwf as (_ & _ & Wl & Wr).
      assert (Hst' : status_of t index = NODE_SPLIT \/ status_of t index = NODE_FULL)
        by (rewrite Hst; destruct fl; auto).
      rewrite (free_step_descend f t offset left _ index _ Hg Hst'), pow2_half in H.
      destruct (offset <? left + 2 ^ Z.of_nat d).
      * exact (IH _ _ _ _ _ _ (node_left _ _ _ _ _ Hn) Wl H).
      * exact (IH _ _ _ _ _ _ (node_right _ _ _ _ _ Hn) Wr H).
Qed.

(** C8 (as amended): when [buddy_free] locates the USED node that owns the
    offset, [_combine] climbs from that node while the buddy is UNUSED,
    without writing; it writes UNUSED only to the node where the climb
    stops (the topmost merged block, where the buddy is not UNUSED or the
    root is reached), turns the FULL nodes directly above that node into
    SPLIT up to the first node that is not FULL, and keeps every other
    status: the freed node and the merged nodes below the stopping node
    keep the status bits they had. *)
Theorem free_coalesces (p p' : buddy) (ptr : Z) :
  reachable p -> buddy_free p ptr = Ok p' ->
  exists index k m,
    status_of (tree p) index = NODE_USED /\
    _combine (tree p) index = Ok (tree p') /\
    merged (tree p) index k /\
    status_of (tree p') (ancestor k index) = NODE_UNUSED /\
    demoted (tree p) (tree p') (ancestor k index) m /\
    others_kept (tree p) (tree p') (ancestor k index) m /\
    ((1 <= k)%nat -> status_of (tree p') index = NODE_USED).
Proof.
  intros Hr H. destruct (reachable_inv p Hr) as [Hok|Hrf].
  2:{ rewrite (refusing_free p ptr Hrf) in H. discriminate. }
  pose proof (pool_root p Hok) as Hroot.
  rewrite buddy_free_eq in H by exact Hok. cbv zeta in H.
  destruct (negb _); [discriminate|].
  destruct (free_loop _ _ _ _ _ _) as [t'| | |] eqn:Hloop; try discriminate.
  cbn [bind] in H. injection H as <-. cbn [tree with_tree].
  rewrite <- (depth_level p) in Hloop by (destruct Hok; lia).
  destruct (free_loop_locates _ _ _ _ _ _ _ _ _ Hroot (proj2 (proj2 (proj2 Hok))) Hloop)
    as (x & Hx & Hin & Hused & Hcomb).
  destruct (combine_at (tree p) x Hx Hin) as (t'' & k & m & Hc & Hm & Hge & Hun & Hd & Hk).
  rewrite Hcomb in Hc. injection Hc as <-.
  exists x, k, m. repeat (split; [assumption|]).
  intros Hk1. rewrite <- Hused.
  exact (combine_keeps_index _ _ _ _ _ Hx Hk1 Hge Hd Hk).
Qed.
(** ** Rounding of the requested size *)

Lemma is_pow_of_2_true (x : Z) :
  0 < x < 2 ^ 32 -> is_pow_of_2 x = true -> x = 2 ^ Z.log2 x.
Proof.
  intros Hx H. unfold is_pow_of_2 in H. rewrite Z.mod_small in H by lia.
  apply Z.eqb_eq in H.
  pose proof (Z.log2_spec x ltac:(lia)) as [Hl Hu].
  pose proof (Z.log2_nonneg x) as Hnn.
  destruct (Z.eq_dec x (2 ^ Z.log2 x)) as [E|E]; [exact E|exfalso].
  assert (Hl1 : Z.log2 (x - 1) = Z.log2 x) by (apply Z.log2_unique; lia).
  pose proof (Z.bit_log2 x ltac:(lia)) as B1.
  pose proof (pow2_pos (Z.log2 x) Hnn).
  pose proof (Z.bit_log2 (x - 1) ltac:(lia)) as B2. rewrite Hl1 in B2.
  pose proof (Z.land_spec x (x - 1) (Z.log2 x)) as L.
  rewrite H, Z.bits_0, B1, B2 in L. discriminate.
Qed.

(** One step [x |= x >> w] of the bit smearing. *)
Lemma smear_step (x y w : Z) :
  0 < w ->
  (forall n, 0 <= n ->
     (Z.testbit y n = true <-> exists k, 0 <= k < w /\ Z.testbit x (n + k) = true)) ->
  forall n, 0 <= n ->
    (Z.testbit (Z.lor y (Z.shiftr y w)) n = true <->
     exists k, 0 <= k < 2 * w /\ Z.testbit x (n + k) = true).
Proof.
  intros Hw H n Hn. rewrite Z.lor_spec, Z.shiftr_spec, orb_true_iff by lia.
  rewrite (H n Hn), (H (n + w) ltac:(lia)). split.
  - intros [(k & Hk & B)|(k & Hk & B)].
    + exists k. split; [lia | exact B].
    + exists (w + k). split; [lia|]. rewrite <- B. f_equal. lia.
  - intros (k & Hk & B). destruct (Z.lt_ge_cases k w).
    + left. exists k. split; [lia | exact B].
    + right. exists (k - w). split; [lia|]. rewrite <- B. f_equal. lia.
Qed.

Lemma smear_ones (x : Z) :
  0 < x < 2 ^ 32 ->
  (let x := Z.lor x (Z.shiftr x 1) in
   let x := Z.lor x (Z.shiftr x 2) in
   let x := Z.lor x (Z.shiftr x 4) in
   let x := Z.lor x (Z.shiftr x 8) in
   Z.lor x (Z.shiftr x 16)) = Z.ones (Z.log2 x + 1).
Proof.
  intros Hx. cbv zeta.
  pose proof (Z.log2_nonneg x) as Hnn.
  assert (Hl : Z.log2 x < 32) by (apply Z.log2_lt_pow2; lia).
  assert (P1 : forall n, 0 <= n ->
            (Z.testbit x n = true <-> exists k, 0 <= k < 1 /\ Z.testbit x (n + k) = true)).
  { intros n Hn. split.
    - intros B. exists 0. split; [lia|]. rewrite Z.add_0_r. exact B.
    - intros (k & Hk & B). replace (n + k) with n in B by lia. exact B. }
  pose proof (smear_step x _ 1 ltac:(lia) P1) as P2.
  pose proof (smear_step x _ 2 ltac:(lia) P2) as P4.
  pose proof (smear_step x _ 4 ltac:(lia) P4) as P8.
  pose proof (smear_step x _ 8 ltac:(lia) P8) as P16.
  pose proof (smear_step x _ 16 ltac:(lia) P16) as P32.
  apply Z.bits_inj'. intros n Hn. apply eq_true_iff_eq.
  rewrite (P32 n Hn), Z.ones_spec_iff by lia. split.
  - intros (k & Hk & B). split; [lia|].
    destruct (Z.lt_ge_cases (n + k) (Z.log2 x + 1)); [lia|].
    rewrite Z.bits_above_log2 in B by lia. discriminate.
  - intros Hr. exists (Z.log2 x - n). split; [lia|].
    replace (n + (Z.log2 x - n)) with (Z.log2 x) by lia. apply Z.bit_log2. lia.
Qed.

Lemma next_pow_of_2_other (x : Z) :
  0 < x < 2 ^ 31 -> is_pow_of_2 x = false ->
  next_pow_of_2 x = 2 ^ (Z.log2 x + 1) /\ 2 ^ Z.log2 x < x.
Proof.
  intros Hx H. unfold next_pow_of_2. rewrite H.
  pose proof (Z.log2_nonneg x) as Hnn.
  assert (Hl : Z.log2 x < 31) by (apply Z.log2_lt_pow2; lia).
  pose proof (smear_ones x ltac:(lia)) as E. cbv zeta in E |- *. rewrite E.
  rewrite Z.ones_equiv.
  replace (Z.pred (2 ^ (Z.log2 x + 1)) + 1) with (2 ^ (Z.log2 x + 1)) by lia.
  assert (2 ^ (Z.log2 x + 1) <= 2 ^ 31) by (apply Z.pow_le_mono_r; lia).
  pose proof (pow2_pos (Z.log2 x + 1) ltac:(lia)).
  rewrite Z.mod_small by lia. split; [reflexivity|].
  pose proof (Z.log2_spec x ltac:(lia)) as [Hlo _].
  destruct (Z.eq_dec x (2 ^ Z.log2 x)) as [E'|]; [|lia].
  rewrite E', is_pow_of_2_pow2 in H by lia. discriminate.
Qed.

(** [next_pow_of_2] is the least power of two that is not below [x]. *)
Lemma next_pow_of_2_spec (x : Z) :
  1 <= x <= 2 ^ 31 -> next_pow_of_2 x = 2 ^ Z.log2_up x.
Proof.
  intros Hx. destruct (is_pow_of_2 x) eqn:H.
  - unfold next_pow_of_2. rewrite H.
    pose proof (is_pow_of_2_true x ltac:(lia) H) as E.
    rewrite E at 2. rewrite Z.log2_up_pow2 by apply Z.log2_nonneg. exact E.
  - assert (Hne : x <> 2 ^ 31).
    { intros ->. rewrite is_pow_of_2_pow2 in H by lia. discriminate. }
    destruct (next_pow_of_2_other x ltac:(lia) H) as [-> Hlt].
    pose proof (Z.log2_nonneg x) as Hnn.
    pose proof (pow2_pos (Z.log2 x) Hnn).
    pose proof (Z.log2_spec x ltac:(lia)) as [_ Hu].
    rewrite Z.log2_up_eqn by lia. f_equal. unfold Z.succ. f_equal.
    symmetry. apply Z.log2_unique; [lia|]. unfold Z.pred, Z.succ. lia.
Qed.

(** With a 32-bit [unsigned long] the [__GNUC__] branch computes the same
    value; with a 64-bit one its shift count is out of range for every
    request that is not a power of two. *)
Lemma next_pow_of_2_gnuc_32 (x : Z) :
  0 < x < 2 ^ 31 -> next_pow_of_2_gnuc 32 x = Ok (next_pow_of_2 x).
Proof.
  intros Hx. unfold next_pow_of_2_gnuc. destruct (is_pow_of_2 x) eqn:H.
  - unfold next_pow_of_2. rewrite H. reflexivity.
  - destruct (next_pow_of_2_other x Hx H) as [-> _].
    pose proof (Z.log2_nonneg x) as Hnn.
    assert (Hl : Z.log2 x < 31) by (apply Z.log2_lt_pow2; lia).
    unfold clzl.
    destruct (Z.leb_spec 0 (32 - 1 - Z.log2 x - 1)); [|lia].
    destruct (Z.ltb_spec (32 - 1 - Z.log2 x - 1) 32); [|lia]. cbn [andb].
    rewrite Z.shiftr_div_pow2, <- Z.pow_sub_r by lia. do 2 f_equal. lia.
Qed.

Lemma next_pow_of_2_gnuc_64 (x : Z) :
  0 < x < 2 ^ 31 -> is_pow_of_2 x = false -> next_pow_of_2_gnuc 64 x = Fault.
Proof.
  intros Hx H. unfold next_pow_of_2_gnuc, clzl. rewrite H.
  assert (Hl : Z.log2 x < 31) by (apply Z.log2_lt_pow2; lia).
  destruct (Z.ltb_spec (64 - 1 - Z.log2 x - 1) 32); [lia|].
  rewrite andb_false_r. reflexivity.
Qed.

(** For requests of at most [2^30] bytes the block is the minimum block or
    the next power of two, never smaller than the request. *)
Lemma block_size_rounds (self : buddy) (s : Z) :
  0 <= min_level self <= 30 -> 0 <= s <= 2 ^ 30 ->
  block_size self s = Z.max (2 ^ min_level self) (2 ^ Z.log2_up s) /\
  s <= block_size self s /\
  alloc_size self s = 2 ^ (Z.max (min_level self) (Z.log2_up s) - min_level self).
Proof.
  intros Hm Hs. unfold block_size, alloc_size. rewrite size_threshold by assumption.
  pose proof (pow2_pos (min_level self) ltac:(lia)) as Hp.
  pose proof (Z.log2_up_nonneg s) as Hun.
  destruct (Z.leb_spec s (2 ^ min_level self)) as [Hle|Hgt].
  - assert (Hk : Z.log2_up s <= min_level self).
    { destruct (Z.le_gt_cases s 1); [rewrite Z.log2_up_eqn0; lia|].
      apply Z.log2_up_le_pow2; lia. }
    assert (2 ^ Z.log2_up s <= 2 ^ min_level self) by (apply Z.pow_le_mono_r; lia).
    rewrite Z.shiftl_mul_pow2, Z.max_l, Z.max_l by lia.
    replace (min_level self - min_level self) with 0 by lia.
    change (2 ^ 0) with 1. split; [lia|]. split; [lia | reflexivity].
  - assert (Hs1 : 1 < s) by lia.
    pose proof (Z.log2_up_spec s Hs1) as [_ Hup].
    assert (Hk30 : Z.log2_up s <= 30) by (apply Z.log2_up_le_pow2; lia).
    assert (Hkm : min_level self < Z.log2_up s).
    { destruct (Z.lt_ge_cases (min_level self) (Z.log2_up s)); [assumption|].
      assert (2 ^ Z.log2_up s <= 2 ^ min_level self) by (apply Z.pow_le_mono_r; lia).
      lia. }
    assert (2 ^ Z.log2_up s <= 2 ^ 30) by (apply Z.pow_le_mono_r; lia).
    assert (2 ^ min_level self <= 2 ^ Z.log2_up s) by (apply Z.pow_le_mono_r; lia).
    rewrite Z.mod_small by lia.
    rewrite next_pow_of_2_spec by lia.
    rewrite to_int_small by lia.
    rewrite Z.shiftr_div_pow2, <- Z.pow_sub_r by lia.
    rewrite Z.shiftl_mul_pow2, <- Z.pow_add_r by lia.
    replace (Z.log2_up s - min_level self + min_level self) with (Z.log2_up s) by lia.
    rewrite !Z.max_r by lia. split; [reflexivity|]. split; [lia | reflexivity].
Qed.

(** ... and a rounded size above the pool size is rejected at once. *)
Lemma alloc_oversize_null (self : buddy) (s : Z) :
  0 <= min_level self <= 30 -> 0 <= level self <= 30 -> 0 <= s <= 2 ^ 30 ->
  2 ^ (level self + min_level self) < block_size self s ->
  buddy_alloc self s = Ok (None, self).
Proof.
  intros Hm Hl Hs Hbig. unfold buddy_alloc.
  rewrite !shift_ok_true by lia. cbn [andb negb].
  rewrite Z.shiftl_1_l, to_int_small
    by (pose proof (pow2_pos (level self) ltac:(lia));
        assert (2 ^ level self <= 2 ^ 30) by (apply Z.pow_le_mono_r; lia); lia).
  unfold block_size in Hbig. rewrite Z.shiftl_mul_pow2, Z.pow_add_r in Hbig by lia.
  pose proof (pow2_pos (min_level self) ltac:(lia)).
  destruct (Z.ltb_spec (2 ^ level self) (alloc_size self s)); [reflexivity|nia].
Qed.

(** ** The entry points return *)

Lemma alloc_sh_returns (d : nat) :
  forall (k : nat) (left : Z) (sh : shape),
    wf_shape d sh = true -> (k <= d)%nat ->
    exists r, alloc_sh d (2 ^ Z.of_nat k) left sh = Ok r.
Proof.
  induction d as [|d IH]; intros k left sh Hwf Hk.
  - assert (k = O) by lia. subst k. rewrite alloc_sh_exact by reflexivity.
    destruct sh; eauto.
  - destruct (Nat.eq_dec k (S d)) as [->|Hne].
    + rewrite alloc_sh_exact by reflexivity. destruct sh; eauto.
    + assert (Hsz : 2 ^ Z.of_nat k <> 2 ^ Z.of_nat (S d)).
      { intros E. apply Z.pow_inj_r in E; lia. }
      destruct sh as [| |[|] l r].
      * rewrite alloc_sh_free_S by assumption.
        destruct (IH k left Free eq_refl ltac:(lia)) as ([[l' off]|] & ->); cbn [bind]; eauto.
      * rewrite alloc_sh_used. eauto.
      * rewrite alloc_sh_full. eauto.
      * apply wf_split_inv in Hwf. destruct Hwf as (_ & _ & Wl & Wr).
        rewrite alloc_sh_split_S by assumption.
        destruct (IH k left l Wl ltac:(lia)) as ([[l' off]|] & ->); cbn [bind]; eauto.
        destruct (IH k (left + 2 ^ Z.of_nat d) r Wr ltac:(lia)) as ([[r' off]|] & ->);
          cbn [bind]; eauto.
Qed.

(** On a consistent pool every request of at most [2^30] bytes is answered
    with a block or with NULL: the search neither leaves the tree nor runs
    out of fuel. *)
Lemma buddy_alloc_returns (p : buddy) (s : Z) :
  pool_ok p -> min_level p <= 30 -> 0 <= s <= 2 ^ 30 ->
  exists r p', buddy_alloc p s = Ok (r, p').
Proof.
  intros Hok Hm Hs. pose proof Hok as (Hm0 & Hl & Hlen & Hwf).
  pose proof (buddy_alloc_sim p s Hok) as Hsim.
  destruct (block_size_rounds p s ltac:(lia) Hs) as (_ & _ & Esz).
  destruct (2 ^ level p <? alloc_size p s) eqn:Hover; [eauto|].
  apply Z.ltb_ge in Hover.
  set (j := Z.max (min_level p) (Z.log2_up s) - min_level p) in *.
  assert (Hj : 0 <= j <= level p).
  { split; [lia|]. destruct (Z.le_gt_cases j (level p)); [assumption|].
    assert (2 ^ (level p + 1) <= 2 ^ j) by (apply Z.pow_le_mono_r; lia).
    rewrite Z.pow_add_r in * by lia. pose proof (pow2_pos (level p) ltac:(lia)). lia. }
  rewrite Esz in Hsim. rewrite <- (Z2Nat.id j) in Hsim by lia.
  destruct (alloc_sh_returns (depth p) (Z.to_nat j) 0 (pool_shape p) Hwf
              ltac:(unfold depth; lia)) as (r & E).
  rewrite E in Hsim. destruct r as [[sh' off]|].
  - destruct Hsim as (t1 & Hres & _). eauto.
  - eauto.
Qed.

(** On a consistent pool [buddy_free] releases a block or fails an
    assertion. *)
Lemma buddy_free_returns (p : buddy) (ptr : Z) :
  pool_ok p -> (exists p', buddy_free p ptr = Ok p') \/ buddy_free p ptr = Abort.
Proof.
  intros Hok. pose proof (buddy_free_sim p ptr Hok) as Hsim. cbv zeta in Hsim.
  destruct (if _ : bool then _ else _) as [sh'|].
  - destruct Hsim as (t1 & Hres & _). eauto.
  - auto.
Qed.

(** C5 (as amended): in every state reached from a constructed pool of at
    most [2^30] bytes by requests of at most [2^30] bytes and by calls in
    which [buddy_free] is given offsets of held blocks, the blocks held by
    the caller are pairwise disjoint byte ranges, and none of them overlaps
    the [2^(level-1)] bytes of the tree at the front of the pool.  In such
    a state every request of at most [2^30] bytes returns, with a block or
    with NULL, and the release of every held block passes the
    assertions. *)
Theorem held_blocks_disjoint (p : buddy) (held : list (Z * Z)) :
  session p held ->
  List.NoDup held /\
  (forall a b, In a held -> In b held -> a <> b ->
     fst a + snd a <= fst b \/ fst b + snd b <= fst a) /\
  (forall a, In a held -> 2 ^ (level p - 1) <= fst a /\ 0 < snd a) /\
  (forall s, 0 <= s <= 2 ^ 30 -> exists r p', buddy_alloc p s = Ok (r, p')) /\
  (forall a, In a held -> exists p', buddy_free p (fst a) = Ok p').
Proof.
  intros Hs. destruct (session_inv p held Hs) as (Hok & Hsmall & R & P & HR).
  assert (N : List.NoDup ((0, R) :: held)).
  { apply (NoDup_map_inv fst). eapply Permutation_NoDup.
    - apply Permutation_map. exact P.
    - apply pool_live_offsets_nodup, Hok. }
  assert (Hsub : forall a, In a ((0, R) :: held) -> In a (pool_live p)).
  { intros a Ha. eapply Permutation_in; [symmetry; exact P | exact Ha]. }
  split; [inversion N; assumption|]. split; [|split; [|split]].
  - intros a b Ha Hb Hne.
    apply (pool_live_disjoint p a b Hok); [apply Hsub; right; exact Ha
                                           | apply Hsub; right; exact Hb | exact Hne].
  - intros [o s] Ha.
    assert (Hne : (0, R) <> (o, s)).
    { intros E. inversion N as [|x l Hnin _]. subst. apply Hnin. rewrite E. exact Ha. }
    pose proof (pool_live_disjoint p (0, R) (o, s) Hok
                  (Hsub _ (or_introl eq_refl)) (Hsub _ (or_intror Ha)) Hne) as D.
    destruct (pool_live_unit p o s Hok (Hsub _ (or_intror Ha)))
      as (o' & s' & _ & -> & -> & Ho & Hs' & _).
    pose proof (pow2_pos (min_level p) ltac:(apply Hok)).
    cbn [fst snd] in *. rewrite !Z.shiftl_mul_pow2 in * by apply Hok.
    split; nia.
  - intros s Hs30. apply (buddy_alloc_returns p s Hok); [|exact Hs30].
    destruct Hok as (_ & Hl & _). lia.
  - intros [o s] Ha.
    destruct (buddy_free_block p o s Hok (Hsub _ (or_intror Ha))) as (p' & Hf & _).
    exists p'. exact Hf.
Qed.

(** * Concrete runs *)

Lemma pool_7_4_new : buddy_from_buffer 7 4 false = Ok (Some pool_7_4).
Proof. vm_compute. reflexivity. Qed.

Lemma pool_6_4_new : buddy_from_buffer 6 4 false = Ok (Some pool_6_4).
Proof. vm_compute. reflexivity. Qed.

Lemma pool_7_4_alloc_a : buddy_alloc pool_7_4 16 = Ok (Some 16, pool_7_4_a).
Proof. vm_compute. reflexivity. Qed.

Lemma pool_7_4_alloc_b : buddy_alloc pool_7_4_a 16 = Ok (Some 32, pool_7_4_b).
Proof. vm_compute. reflexivity. Qed.

(** C3: on the pool of [buddy_from_buffer 6 4] a request of [2^30 + 1]
    bytes rounds to [2^31], which the cast to [int] turns negative; the
    test [size > length] does not reject it and the search runs off the
    tree instead of returning NULL. *)
Theorem alloc_oversize_not_rejected :
  buddy_from_buffer 6 4 false = Ok (Some pool_6_4) /\
  next_pow_of_2 (2 ^ 30 + 1) = 2 ^ 31 /\
  alloc_size pool_6_4 (2 ^ 30 + 1) = - 2 ^ 27 /\
  buddy_alloc pool_6_4 (2 ^ 30 + 1) = Fault /\
  buddy_alloc pool_6_4 (2 ^ 30 + 1) <> Ok (None, pool_6_4).
Proof.
  split; [vm_compute; reflexivity|]. split; [vm_compute; reflexivity|].
  split; [vm_compute; reflexivity|].
  assert (E : buddy_alloc pool_6_4 (2 ^ 30 + 1) = Fault) by (vm_compute; reflexivity).
  split; [exact E|]. rewrite E. discriminate.
Qed.

(** C6: on the pool of [buddy_from_buffer 7 4], whose tree is consistent, a
    request of [2^31 + 1] bytes rounds to [2^32], which is 0 in
    [uint32_t]: the unit count is 0.  No node has that size, so the search
    descends, without a write, to the UNUSED leaf 8 and splits it: the
    leaf reads SPLIT and the tree is no longer consistent.  The statuses
    of the children 17 and 18 lie beyond the tree bytes, where the call
    faults. *)
Theorem wrapped_request_splits_leaf :
  buddy_from_buffer 7 4 false = Ok (Some pool_7_4) /\
  consistent (depth pool_7_4) (pool_shape pool_7_4) /\
  next_pow_of_2 ((2 ^ 31 + 1) mod 2 ^ 32) = 0 /\
  alloc_size pool_7_4 (2 ^ 31 + 1) = 0 /\
  (forall f : nat,
     alloc_loop (5 + f) 0 4 3 (tree pool_7_4) AtHead 0 0 8
     = alloc_loop f 0 4 3 (tree pool_7_4) AtHead 8 3 1) /\
  _get_index_status (tree pool_7_4) 8 = Ok NODE_UNUSED /\
  _set_index_status (tree pool_7_4) 8 NODE_SPLIT = Ok [138; 64; 2; 0] /\
  status_of [138; 64; 2; 0] 8 = NODE_SPLIT /\
  visible (depth pool_7_4) [138; 64; 2; 0] 0 8 /\
  ~ consistent (depth pool_7_4) (shape_at (depth pool_7_4) [138; 64; 2; 0] 0) /\
  _set_index_status [138; 64; 2; 0] 17 NODE_UNUSED = Fault /\
  buddy_alloc pool_7_4 (2 ^ 31 + 1) = Fault.
Proof.
  split; [vm_compute; reflexivity|].
  split; [vm_compute; intuition congruence|].
  split; [vm_compute; reflexivity|].
  split; [vm_compute; reflexivity|].
  split; [intros f; unfold pool_7_4; cbn [tree Nat.add]; simpl; reflexivity|].
  split; [vm_compute; reflexivity|].
  split; [vm_compute; reflexivity|].
  split; [vm_compute; reflexivity|].
  split; [vm_compute; intuition congruence|].
  split; [vm_compute; intuition congruence|].
  split; vm_compute; reflexivity.
Qed.

(** Where [size_t] has 64 bits the truncation to [uint32_t] also lets a
    request of [2^32 + 17] bytes through: it is served with a 32-byte
    block. *)
Lemma alloc_truncates_request :
  alloc_size pool_7_4 (2 ^ 32 + 17) = 2 /\
  block_size pool_7_4 (2 ^ 32 + 17) = 32 /\
  exists p', buddy_alloc pool_7_4 (2 ^ 32 + 17) = Ok (Some 32, p').
Proof.
  split; [vm_compute; reflexivity|]. split; [vm_compute; reflexivity|].
  eexists. vm_compute. reflexivity.
Qed.

(** Counterexample to C2 as stated: after two allocations of 16 bytes and
    the release of both, byte 2 of the tree is 4, not 0 as after
    construction (node 9 keeps status USED beneath the UNUSED node 4). *)
Lemma free_all_leaves_stale_bytes :
  exists p0 p1 p2 offs,
    buddy_from_buffer 7 4 false = Ok (Some p0) /\
    alloc_all p0 [16; 16] = Some (offs, p1) /\
    free_all p1 offs = Ok p2 /\
    tree p0 = [138; 64; 0; 0] /\ tree p2 = [138; 64; 4; 0] /\
    tree p2 <> tree p0.
Proof.
  exists pool_7_4, pool_7_4_b, (mkBuddy 4 3 false [138; 64; 4; 0]), [16; 32].
  repeat split; try (vm_compute; reflexivity). discriminate.
Qed.

(** Counterexample to C5 as stated: [buddy_free] accepts offset 0, the
    block that reserves the tree; a request for the whole pool of 128
    bytes is then served with the block at offset 0, which contains the 4
    tree bytes. *)
Lemma block_over_tree_after_release :
  exists p1 p2,
    buddy_from_buffer 7 4 false = Ok (Some pool_7_4) /\
    buddy_free pool_7_4 0 = Ok p1 /\
    buddy_alloc p1 128 = Ok (Some 0, p2) /\
    reachable p2 /\
    pool_live p2 = [(0, 128)] /\
    0 < 2 ^ (7 - 4 - 1) <= 128.
Proof.
  exists (mkBuddy 4 3 false [136; 64; 0; 0]), (mkBuddy 4 3 false [137; 64; 0; 0]).
  assert (E1 : buddy_free pool_7_4 0 = Ok (mkBuddy 4 3 false [136; 64; 0; 0]))
    by (vm_compute; reflexivity).
  assert (E2 : buddy_alloc (mkBuddy 4 3 false [136; 64; 0; 0]) 128
               = Ok (Some 0, mkBuddy 4 3 false [137; 64; 0; 0]))
    by (vm_compute; reflexivity).
  split; [exact pool_7_4_new|]. split; [exact E1|]. split; [exact E2|].
  split.
  - eapply reach_alloc; [|exact E2]. eapply reach_free; [|exact E1].
    eapply reach_new. exact pool_7_4_new.
  - split; [vm_compute; reflexivity | lia].
Qed.


(** Counterexample to C7 as stated: byte offset 17 is not the offset of an
    allocated block (the blocks are at 0 and 16), yet [buddy_free] accepts
    it and releases the block at 16. *)
Lemma free_inside_first_unit_accepted :
  exists p,
    reachable p /\
    pool_live p = [(0, 16); (16, 16)] /\
    (forall sz, ~ In (17, sz) (pool_live p)) /\
    exists p', buddy_free p 17 = Ok p' /\ tree p' <> tree p /\
               pool_live p' = [(0, 16)].
Proof.
  exists pool_7_4_a. split; [|split; [|split]].
  - eapply reach_alloc; [eapply reach_new; exact pool_7_4_new | exact pool_7_4_alloc_a].
  - vm_compute. reflexivity.
  - intros sz H.
    assert (E : pool_live pool_7_4_a = [(0, 16); (16, 16)]) by (vm_compute; reflexivity).
    rewrite E in H. destruct H as [H|[H|[]]]; discriminate.
  - exists pool_7_4. split; [vm_compute; reflexivity|]. split; [discriminate|].
    vm_compute. reflexivity.
Qed.

(** Counterexample to C8 as stated: [buddy_free] at offset 32 locates the
    USED node 9, whose buddy 10 is UNUSED; after the call node 4 is UNUSED
    but node 9 still reads USED. *)
Lemma combine_keeps_freed_node_status :
  status_of (tree pool_7_4_b) 9 = NODE_USED /\
  status_of (tree pool_7_4_b) 10 = NODE_UNUSED /\
  exists t',
    _combine (tree pool_7_4_b) 9 = Ok t' /\
    buddy_free pool_7_4_b 32 = Ok (with_tree pool_7_4_b t') /\
    status_of t' 4 = NODE_UNUSED /\
    status_of t' 9 = NODE_USED /\
    status_of t' 9 <> NODE_UNUSED.
Proof.
  split; [vm_compute; reflexivity|]. split; [vm_compute; reflexivity|].
  exists [202; 64; 5; 0].
  repeat split; try (vm_compute; reflexivity). vm_compute. discriminate.
Qed.

(** ** Instances of the theorems *)

Lemma reachable_pool_7_4_b : reachable pool_7_4_b.
Proof.
  eapply reach_alloc; [|exact pool_7_4_alloc_b].
  eapply reach_alloc; [|exact pool_7_4_alloc_a].
  eapply reach_new. exact pool_7_4_new.
Defined.

Lemma held_blocks_disjoint_witness :
  session pool_7_4_b [(32, 16); (16, 16)] /\
  List.NoDup [(32, 16); (16, 16)] /\
  (forall a b, In a [(32, 16); (16, 16)] -> In b [(32, 16); (16, 16)] -> a <> b ->
     fst a + snd a <= fst b \/ fst b + snd b <= fst a) /\
  (forall a, In a [(32, 16); (16, 16)] ->
     2 ^ (level pool_7_4_b - 1) <= fst a /\ 0 < snd a) /\
  (forall s, 0 <= s <= 2 ^ 30 -> exists r p', buddy_alloc pool_7_4_b s = Ok (r, p')) /\
  (forall a, In a [(32, 16); (16, 16)] ->
     exists p', buddy_free pool_7_4_b (fst a) = Ok p').
Proof.
  assert (S : session pool_7_4_b [(32, 16); (16, 16)]).
  { apply (sess_alloc pool_7_4_a [(16, 16)] 16 32 pool_7_4_b);
      [|lia|vm_compute; reflexivity].
    apply (sess_alloc pool_7_4 [] 16 16 pool_7_4_a); [|lia|vm_compute; reflexivity].
    apply (sess_new 7 4 false); [vm_compute; reflexivity|]. cbn. lia. }
  split; [exact S|].
  apply (held_blocks_disjoint pool_7_4_b [(32, 16); (16, 16)]). exact S.
Defined.

Lemma alloc_free_all_restores_witness :
  exists p2,
    free_all pool_7_4_b [32; 16] = Ok p2 /\
    pool_shape p2 = pool_shape pool_7_4 /\
    (forall i, visible (depth pool_7_4) (tree pool_7_4) 0 i ->
       status_of (tree p2) i = status_of (tree pool_7_4) i) /\
    min_level p2 = min_level pool_7_4 /\ level p2 = level pool_7_4 /\
    length (tree p2) = length (tree pool_7_4).
Proof.
  apply (alloc_free_all_restores 7 4 false pool_7_4 pool_7_4_b [16; 16] [16; 32] [32; 16]).
  - vm_compute. reflexivity.
  - cbn. lia.
  - repeat constructor; lia.
  - vm_compute. reflexivity.
  - apply perm_swap.
Defined.

Lemma free_checks_unit_witness :
  (forall off sz, In (off, sz) (pool_live pool_7_4_b) ->
     exists p',
       buddy_free pool_7_4_b off = Ok p' /\
       Permutation (pool_live pool_7_4_b) ((off, sz) :: pool_live p')) /\
  (forall ptr, starts_block pool_7_4_b (to_int (Z.shiftr ptr (min_level pool_7_4_b))) ->
     exists p' sz,
       buddy_free pool_7_4_b ptr = Ok p' /\
       Permutation (live (depth pool_7_4_b) 0 (pool_shape pool_7_4_b))
         ((to_int (Z.shiftr ptr (min_level pool_7_4_b)), sz)
          :: live (depth p') 0 (pool_shape p'))) /\
  (forall ptr, ~ starts_block pool_7_4_b (to_int (Z.shiftr ptr (min_level pool_7_4_b))) ->
     buddy_free pool_7_4_b ptr = Abort).
Proof.
  apply (free_checks_unit pool_7_4_b). exact reachable_pool_7_4_b.
Defined.


Lemma free_coalesces_witness :
  reachable pool_7_4_b /\
  buddy_free pool_7_4_b 32 = Ok (mkBuddy 4 3 false [202; 64; 5; 0]) /\
  exists index k m,
    status_of (tree pool_7_4_b) index = NODE_USED /\
    _combine (tree pool_7_4_b) index = Ok (tree (mkBuddy 4 3 false [202; 64; 5; 0])) /\
    merged (tree pool_7_4_b) index k /\
    status_of (tree (mkBuddy 4 3 false [202; 64; 5; 0])) (ancestor k index) = NODE_UNUSED /\
    demoted (tree pool_7_4_b) (tree (mkBuddy 4 3 false [202; 64; 5; 0])) (ancestor k index) m /\
    others_kept (tree pool_7_4_b) (tree (mkBuddy 4 3 false [202; 64; 5; 0]))
      (ancestor k index) m /\
    ((1 <= k)%nat ->
     status_of (tree (mkBuddy 4 3 false [202; 64; 5; 0])) index = NODE_USED).
Proof.
  split; [exact reachable_pool_7_4_b|]. split; [vm_compute; reflexivity|].
  apply (free_coalesces pool_7_4_b (mkBuddy 4 3 false [202; 64; 5; 0]) 32).
  - exact reachable_pool_7_4_b.
  - vm_compute. reflexivity.
Defined.

(** * Further properties of the code *)

(** ** Powers of two *)

(** X1: on [uint32_t], [is_pow_of_2] accepts zero and the powers of two,
    and nothing else. *)
Theorem is_pow_of_2_zero_or_power (x : Z) :
  0 <= x < 2 ^ 32 ->
  (is_pow_of_2 x = true <-> x = 0 \/ exists k, 0 <= k <= 31 /\ x = 2 ^ k).
Proof.
  intros Hx. split.
  - intros H. destruct (Z.eq_dec x 0) as [E|E]; [left; exact E|right].
    pose proof (is_pow_of_2_true x ltac:(lia) H) as Ex.
    exists (Z.log2 x). split; [|exact Ex].
    split; [apply Z.log2_nonneg|].
    assert (Z.log2 x < 32) by (apply Z.log2_lt_pow2; lia). lia.
  - intros [->|(k & Hk & ->)]; [reflexivity|].
    apply is_pow_of_2_pow2. exact Hk.
Qed.

Lemma is_pow_of_2_zero_or_power_witness :
  is_pow_of_2 48 = true <-> 48 = 0 \/ exists k, 0 <= k <= 31 /\ 48 = 2 ^ k.
Proof. apply (is_pow_of_2_zero_or_power 48). lia. Defined.

(** X2: for [1 <= x <= 2^31] the portable [next_pow_of_2] returns the
    least power of two that is not below [x]; it is below [2 * x]. *)
Theorem next_pow_of_2_least (x : Z) :
  1 <= x <= 2 ^ 31 ->
  exists k, 0 <= k <= 31 /\ next_pow_of_2 x = 2 ^ k /\
    x <= 2 ^ k < 2 * x /\
    forall j, 0 <= j -> x <= 2 ^ j -> 2 ^ k <= 2 ^ j.
Proof.
  intros Hx. exists (Z.log2_up x).
  pose proof (Z.log2_up_nonneg x) as Hnn.
  assert (Hle : Z.log2_up x <= 31) by (apply Z.log2_up_le_pow2; lia).
  split; [lia|]. split; [apply next_pow_of_2_spec; exact Hx|]. split.
  - destruct (Z.eq_dec x 1) as [->|Hne]; [cbn; lia|].
    pose proof (Z.log2_up_spec x ltac:(lia)) as [Hlo Hhi].
    split; [exact Hhi|].
    replace (Z.log2_up x) with (Z.pred (Z.log2_up x) + 1) by lia.
    assert (0 <= Z.pred (Z.log2_up x)).
    { pose proof (Z.log2_up_pos x ltac:(lia)). lia. }
    rewrite Z.pow_add_r by lia. lia.
  - intros j Hj Hxj. apply Z.pow_le_mono_r; [lia|].
    apply Z.log2_up_le_pow2; lia.
Qed.

Lemma next_pow_of_2_least_witness :
  exists k, 0 <= k <= 31 /\ next_pow_of_2 100 = 2 ^ k /\
    100 <= 2 ^ k < 2 * 100 /\
    forall j, 0 <= j -> 100 <= 2 ^ j -> 2 ^ k <= 2 ^ j.
Proof. apply (next_pow_of_2_least 100). lia. Defined.

(** X3: [next_pow_of_2] wraps to zero: it returns [0] for [0] and for every
    [uint32_t] above [2^31]. *)
Theorem next_pow_of_2_wraps (x : Z) :
  x = 0 \/ 2 ^ 31 < x < 2 ^ 32 -> next_pow_of_2 x = 0.
Proof.
  intros [->|Hx]; [reflexivity|].
  assert (Hl : Z.log2 x = 31) by (apply Z.log2_unique; lia).
  destruct (is_pow_of_2 x) eqn:H.
  - pose proof (is_pow_of_2_true x ltac:(lia) H) as E. rewrite Hl in E. lia.
  - unfold next_pow_of_2. rewrite H.
    pose proof (smear_ones x ltac:(lia)) as E. cbv zeta in E |- *. rewrite E, Hl.
    reflexivity.
Qed.

Lemma next_pow_of_2_wraps_witness :
  (2147483649 = 0 \/ 2 ^ 31 < 2147483649 < 2 ^ 32) /\ next_pow_of_2 2147483649 = 0.
Proof.
  split; [right; lia|]. apply (next_pow_of_2_wraps 2147483649). right. lia.
Defined.

(** X4: where [unsigned long] has 32 bits the [__GNUC__] branch of
    [next_pow_of_2] returns what the portable branch returns for every
    [x] from 1 to [2^31]; above [2^31] its shift count is negative. *)
Theorem gnuc_branch_long32 (x : Z) :
  0 < x < 2 ^ 32 ->
  next_pow_of_2_gnuc 32 x
  = if x <=? 2 ^ 31 then Ok (next_pow_of_2 x) else Fault.
Proof.
  intros Hx. destruct (Z.leb_spec x (2 ^ 31)) as [Hle|Hgt].
  - destruct (Z.eq_dec x (2 ^ 31)) as [->|Hne]; [reflexivity|].
    apply next_pow_of_2_gnuc_32. lia.
  - assert (Hl : Z.log2 x = 31) by (apply Z.log2_unique; lia).
    unfold next_pow_of_2_gnuc, clzl. destruct (is_pow_of_2 x) eqn:H.
    + pose proof (is_pow_of_2_true x ltac:(lia) H) as E. rewrite Hl in E. lia.
    + rewrite Hl. reflexivity.
Qed.

Lemma gnuc_branch_long32_witness :
  next_pow_of_2_gnuc 32 100
  = if 100 <=? 2 ^ 31 then Ok (next_pow_of_2 100) else Fault.
Proof. apply (gnuc_branch_long32 100). lia. Defined.

(** X5: where [unsigned long] has 64 bits the [__GNUC__] branch shifts the
    32-bit constant by 32 or more, which C leaves undefined, for every [x]
    below [2^31] that is not a power of two; for the others above [2^31]
    it returns 1. *)
Theorem gnuc_branch_long64 (x : Z) :
  0 < x < 2 ^ 32 -> is_pow_of_2 x = false ->
  next_pow_of_2_gnuc 64 x = if x <? 2 ^ 31 then Fault else Ok 1.
Proof.
  intros Hx H. destruct (Z.ltb_spec x (2 ^ 31)) as [Hlt|Hge].
  - apply next_pow_of_2_gnuc_64; [lia | exact H].
  - assert (Hl : Z.log2 x = 31) by (apply Z.log2_unique; lia).
    unfold next_pow_of_2_gnuc, clzl. rewrite H, Hl. reflexivity.
Qed.

Lemma gnuc_branch_long64_witness :
  next_pow_of_2_gnuc 64 100 = if 100 <? 2 ^ 31 then Fault else Ok 1.
Proof. apply (gnuc_branch_long64 100); [lia | reflexivity]. Defined.

(** ** The packing of statuses *)

Lemma index_byte (k j : Z) :
  0 <= k -> 0 <= j < 4 ->
  Z.shiftr (4 * k + j) 2 = k /\ Z.land (4 * k + j) 3 = j.
Proof.
  intros Hk Hj. rewrite land3_mod, Z.shiftr_div_pow2 by lia.
  change (2 ^ 2) with 4. split; Z.div_mod_to_equations; lia.
Qed.

Lemma status_in_byte (t : list Z) (k : nat) (b j : Z) :
  t !! k = Some b -> 0 <= j < 4 ->
  status_of t (4 * Z.of_nat k + j) = Z.land (Z.shiftr b (j * 2)) 3.
Proof.
  intros Hb Hj. unfold status_of, _get_index_status, tree_byte.
  destruct (index_byte (Z.of_nat k) j ltac:(lia) Hj) as [-> ->].
  destruct (Z.ltb_spec (Z.of_nat k) 0); [lia|].
  rewrite Nat2Z.id, Hb. reflexivity.
Qed.

Lemma byte_digits (b : Z) :
  0 <= b < 256 ->
  b = Z.land (Z.shiftr b (0 * 2)) 3 + 4 * Z.land (Z.shiftr b (1 * 2)) 3
      + 16 * Z.land (Z.shiftr b (2 * 2)) 3 + 64 * Z.land (Z.shiftr b (3 * 2)) 3.
Proof.
  intros Hb. rewrite !land3_mod, !Z.shiftr_div_pow2 by lia.
  change (2 ^ (0 * 2)) with 1. change (2 ^ (1 * 2)) with 4.
  change (2 ^ (2 * 2)) with 16. change (2 ^ (3 * 2)) with 64.
  Z.div_mod_to_equations. lia.
Qed.

(** X6: a byte of the tree is the base-4 number of the four statuses
    packed in it, the node of lowest index in the lowest two bits. *)
Theorem byte_of_statuses (t : list Z) (k : nat) (b : Z) :
  t !! k = Some b -> 0 <= b < 256 ->
  b = status_of t (4 * Z.of_nat k)
      + 4 * status_of t (4 * Z.of_nat k + 1)
      + 16 * status_of t (4 * Z.of_nat k + 2)
      + 64 * status_of t (4 * Z.of_nat k + 3).
Proof.
  intros Hk Hb.
  replace (4 * Z.of_nat k) with (4 * Z.of_nat k + 0) at 1 by lia.
  rewrite !(status_in_byte t k b) by (assumption || lia).
  apply byte_digits. exact Hb.
Qed.

Lemma byte_of_statuses_witness :
  [202; 66; 5; 0] !! 1%nat = Some 66 /\
  66 = status_of [202; 66; 5; 0] (4 * Z.of_nat 1)
       + 4 * status_of [202; 66; 5; 0] (4 * Z.of_nat 1 + 1)
       + 16 * status_of [202; 66; 5; 0] (4 * Z.of_nat 1 + 2)
       + 64 * status_of [202; 66; 5; 0] (4 * Z.of_nat 1 + 3).
Proof.
  split; [reflexivity|].
  apply (byte_of_statuses [202; 66; 5; 0] 1 66); [reflexivity | lia].
Defined.

(** Trees of bytes that hold the same statuses are the same bytes. *)
Lemma statuses_determine_tree (t t' : list Z) :
  bytes_ok t -> bytes_ok t' -> length t' = length t ->
  (forall i, in_tree t i -> status_of t' i = status_of t i) -> t' = t.
Proof.
  intros Hb Hb' Hlen Hst. apply list_eq. intros k.
  destruct (t !! k) as [b|] eqn:E.
  - pose proof (lookup_lt_Some _ _ _ E) as Hk.
    destruct (lookup_lt_is_Some_2 t' k ltac:(lia)) as (b' & E'). rewrite E'. f_equal.
    assert (R : 0 <= b < 256).
    { unfold bytes_ok in Hb. rewrite Forall_lookup in Hb. exact (Hb k b E). }
    assert (R' : 0 <= b' < 256).
    { unfold bytes_ok in Hb'. rewrite Forall_lookup in Hb'. exact (Hb' k b' E'). }
    rewrite (byte_digits b R), (byte_digits b' R').
    rewrite <- !(status_in_byte t k b) by (assumption || lia).
    rewrite <- !(status_in_byte t' k b') by (assumption || lia).
    rewrite !Hst by (unfold in_tree; lia). reflexivity.
  - apply lookup_ge_None in E. apply lookup_ge_None. lia.
Qed.

Lemma set_bytes_ok (t t' : list Z) (i st : Z) :
  bytes_ok t -> _set_index_status t i st = Ok t' -> bytes_ok t'.
Proof.
  unfold _set_index_status, bytes_ok. intros Hb H.
  destruct (tree_byte t (Z.shiftr i 2)) as [b|]; [|discriminate].
  injection H as <-. rewrite Forall_lookup. intros k x Hx.
  destruct (Nat.eq_dec k (Z.to_nat (Z.shiftr i 2))) as [->|Hne].
  - apply list_lookup_insert_Some in Hx. destruct Hx as [(_ & <- & _)|(Hc & _)]; [|lia].
    apply Z.mod_pos_bound. lia.
  - rewrite list_lookup_insert_ne in Hx by congruence.
    rewrite Forall_lookup in Hb. exact (Hb k x Hx).
Qed.

(** X7: on a tree of bytes, a second write of a status to a node replaces
    the first one, and writes to two different nodes give the same bytes
    in either order. *)
Theorem set_status_overwrites_commutes (t : list Z) (i j a b : Z) :
  bytes_ok t -> in_tree t i -> in_tree t j -> is_status a -> is_status b ->
  (do t1 <- _set_index_status t i a; _set_index_status t1 i b)
  = _set_index_status t i b /\
  (i <> j ->
   (do t1 <- _set_index_status t i a; _set_index_status t1 j b)
   = (do t1 <- _set_index_status t j b; _set_index_status t1 i a)).
Proof.
  intros Hb Hi Hj Ha Hbst.
  destruct (set_in_tree t i a Hi) as (ta & Ea & La).
  destruct (set_in_tree t i b Hi) as (tb & Eb & Lb).
  destruct (set_in_tree t j b Hj) as (tj & Ej & Lj).
  assert (Hia : in_tree ta i) by (eapply in_tree_length; eassumption).
  assert (Hja : in_tree ta j) by (eapply in_tree_length; eassumption).
  assert (Hij : in_tree tj i) by (eapply in_tree_length; eassumption).
  destruct (set_in_tree ta i b Hia) as (tab & Eab & Lab).
  destruct (set_in_tree ta j b Hja) as (taj & Eaj & Laj).
  destruct (set_in_tree tj i a Hij) as (tja & Eja & Lja).
  rewrite Ea, Eb, Ej. cbn [bind]. rewrite Eab, Eaj, Eja.
  pose proof (set_bytes_ok _ _ _ _ Hb Ea) as Ba.
  pose proof (set_bytes_ok _ _ _ _ Hb Eb) as Bb.
  pose proof (set_bytes_ok _ _ _ _ Hb Ej) as Bj.
  split.
  - f_equal. apply statuses_determine_tree;
      [exact Bb | exact (set_bytes_ok _ _ _ _ Ba Eab) | congruence |].
    intros x Hx. destruct (Z.eq_dec x i) as [->|Hne].
    + rewrite (status_set_same ta tab i b Hbst Eab).
      rewrite (status_set_same t tb i b Hbst Eb). reflexivity.
    + assert (0 <= x) by (unfold in_tree in Hx; lia).
      rewrite (status_set_other ta tab i x b), (status_set_other t ta i x a),
        (status_set_other t tb i x b) by (assumption || congruence).
      reflexivity.
  - intros Hne. f_equal. apply statuses_determine_tree;
      [exact (set_bytes_ok _ _ _ _ Bj Eja) | exact (set_bytes_ok _ _ _ _ Ba Eaj)
      | congruence |].
    intros x Hx. assert (0 <= x) by (unfold in_tree in Hx; lia).
    destruct (Z.eq_dec x i) as [->|Hxi]; [|destruct (Z.eq_dec x j) as [->|Hxj]].
    + rewrite (status_set_other ta taj j i b), (status_set_same t ta i a),
        (status_set_same tj tja i a) by (assumption || congruence).
      reflexivity.
    + rewrite (status_set_same ta taj j b), (status_set_other tj tja i j a),
        (status_set_same t tj j b) by (assumption || congruence).
      reflexivity.
    + rewrite (status_set_other ta taj j x b), (status_set_other t ta i x a),
        (status_set_other tj tja i x a), (status_set_other t tj j x b)
        by (assumption || congruence).
      reflexivity.
Qed.

Lemma set_status_overwrites_commutes_witness :
  (do t1 <- _set_index_status [202; 66; 5; 0] 4 1; _set_index_status t1 4 2)
  = _set_index_status [202; 66; 5; 0] 4 2 /\
  (4 <> 9 ->
   (do t1 <- _set_index_status [202; 66; 5; 0] 4 1; _set_index_status t1 9 2)
   = (do t1 <- _set_index_status [202; 66; 5; 0] 9 2; _set_index_status t1 4 1)).
Proof.
  apply (set_status_overwrites_commutes [202; 66; 5; 0] 4 9 1 2).
  - unfold bytes_ok. repeat (apply Forall_cons; [lia|]). apply Forall_nil.
  - unfold in_tree. cbn. lia.
  - unfold in_tree. cbn. lia.
  - unfold is_status. lia.
  - unfold is_status. lia.
Defined.

(** ** Offsets of nodes *)

(** Where the pool has at most [2^31] bytes no step of [_index_offset]
    leaves the range of [int]. *)
Lemma index_offset_exact (min_lvl maxl index lvl : Z) :
  0 <= min_lvl -> 0 <= lvl <= maxl -> maxl + min_lvl <= 31 ->
  2 ^ lvl <= index + 1 < 2 ^ (lvl + 1) ->
  _index_offset min_lvl index lvl maxl
  = Ok ((index + 1 - 2 ^ lvl) * 2 ^ (maxl - lvl + min_lvl)).
Proof.
  intros Hm Hl Hb Hi.
  rewrite (index_offset_units min_lvl maxl index lvl (Z.to_nat (maxl - lvl)))
    by lia.
  rewrite Z2Nat.id by lia. f_equal.
  rewrite Z.shiftl_mul_pow2, <- Z.mul_assoc, <- Z.pow_add_r by lia.
  rewrite Z.pow_add_r, Z.pow_1_r in Hi by lia.
  pose proof (pow2_pos lvl ltac:(lia)) as Hp.
  pose proof (pow2_pos (maxl - lvl + min_lvl) ltac:(lia)) as Hq.
  assert (Hs : 2 ^ lvl * 2 ^ (maxl - lvl + min_lvl) <= 2 ^ 31).
  { rewrite <- Z.pow_add_r by lia. apply Z.pow_le_mono_r; lia. }
  apply to_int_small. nia.
Qed.

(** X8: on a pool of at most [2^31] bytes the byte offset of a node is its
    position in its level times the byte size of the blocks of that level;
    a left child starts where its parent starts, a right child half a
    parent block further. *)
Theorem index_offset_children (min_lvl maxl index lvl : Z) :
  0 <= min_lvl -> 0 <= lvl < maxl -> maxl + min_lvl <= 31 ->
  2 ^ lvl <= index + 1 < 2 ^ (lvl + 1) ->
  _index_offset min_lvl index lvl maxl
  = Ok ((index + 1 - 2 ^ lvl) * 2 ^ (maxl - lvl + min_lvl)) /\
  _index_offset min_lvl (index * 2 + 1) (lvl + 1) maxl
  = _index_offset min_lvl index lvl maxl /\
  _index_offset min_lvl (index * 2 + 2) (lvl + 1) maxl
  = Ok ((index + 1 - 2 ^ lvl) * 2 ^ (maxl - lvl + min_lvl)
        + 2 ^ (maxl - (lvl + 1) + min_lvl)).
Proof.
  intros Hm Hl Hb Hi.
  pose proof (pow2_pos lvl ltac:(lia)) as Hp.
  assert (E1 : 2 ^ (lvl + 1) = 2 * 2 ^ lvl)
    by (rewrite Z.pow_add_r, Z.pow_1_r by lia; lia).
  assert (E2 : 2 ^ (lvl + 1 + 1) = 2 * 2 ^ (lvl + 1))
    by (rewrite (Z.pow_add_r 2 (lvl + 1) 1), Z.pow_1_r by lia; lia).
  assert (E3 : 2 ^ (maxl - lvl + min_lvl) = 2 * 2 ^ (maxl - (lvl + 1) + min_lvl)).
  { replace (maxl - lvl + min_lvl) with (1 + (maxl - (lvl + 1) + min_lvl)) by lia.
    rewrite Z.pow_add_r, Z.pow_1_r by lia. reflexivity. }
  rewrite (index_offset_exact min_lvl maxl index lvl) by lia.
  rewrite (index_offset_exact min_lvl maxl (index * 2 + 1) (lvl + 1)) by lia.
  rewrite (index_offset_exact min_lvl maxl (index * 2 + 2) (lvl + 1)) by lia.
  rewrite E1, E3. split; [reflexivity|]. split; f_equal; ring.
Qed.

Lemma index_offset_children_witness :
  _index_offset 4 4 2 3 = Ok ((4 + 1 - 2 ^ 2) * 2 ^ (3 - 2 + 4)) /\
  _index_offset 4 (4 * 2 + 1) (2 + 1) 3 = _index_offset 4 4 2 3 /\
  _index_offset 4 (4 * 2 + 2) (2 + 1) 3
  = Ok ((4 + 1 - 2 ^ 2) * 2 ^ (3 - 2 + 4) + 2 ^ (3 - (2 + 1) + 4)).
Proof. apply (index_offset_children 4 3 4 2); lia. Defined.

(** ** Marking the ancestors of an allocated node *)

Lemma buddy_of_near (a : Z) : a - 1 <= buddy_of a <= a + 1 /\ buddy_of a <> a.
Proof. unfold buddy_of. pose proof (land1_cases a). lia. Qed.

Lemma parent_double (p : Z) : 1 <= p -> 2 * parent p + 1 <= p.
Proof.
  intros H. unfold parent. rewrite Z.quot_div_nonneg by lia.
  Z.div_mod_to_equations. lia.
Qed.

(** The buddy of a node above [p] is not [p]. *)
Lemma buddy_of_ancestor_ne (k : nat) (p : Z) :
  0 <= p -> 0 < buddy_of (ancestor k p) -> buddy_of (ancestor k p) <> p.
Proof.
  intros Hp Hb. pose proof (buddy_of_near (ancestor k p)) as [Hn Hne].
  assert (Ha : 1 <= ancestor k p) by (apply buddy_pos_index; exact Hb).
  destruct k as [|k]; [exact Hne|].
  rewrite ancestor_parent in *.
  assert (H1 : 1 <= p).
  { destruct (Z.le_gt_cases 1 p); [assumption|].
    pose proof (parent_neg p ltac:(lia)).
    destruct k as [|k]; [cbn [ancestor] in Ha; lia|].
    pose proof (ancestor_below (S k) (parent p) ltac:(lia) ltac:(lia)). lia. }
  pose proof (parent_double p H1).
  assert (ancestor k (parent p) <= parent p).
  { destruct k as [|k]; [cbn [ancestor]; lia|].
    pose proof (ancestor_below (S k) (parent p) ltac:(lia) ltac:(lia)). lia. }
  lia.
Qed.

Lemma mark_parent_loop_spec (fuel : nat) :
  forall (t : list Z) (i : Z),
    0 <= i -> in_tree t (i + 1) -> (Z.to_nat i < fuel)%nat ->
    exists t' m,
      mark_parent_loop fuel t i = Ok t' /\ promoted t t' i m /\
      length t' = length t /\
      forall x, 0 <= x ->
        (forall j, (1 <= j <= m)%nat -> x <> ancestor j i) ->
        status_of t' x = status_of t x.
Proof.
  induction fuel as [|f IH]; intros t i Hi Hin Hf; [lia|].
  cbn [mark_parent_loop]. change (i - 1 + Z.land i 1 * 2) with (buddy_of i).
  change ((i + 1) ÷ 2 - 1) with (parent i).
  assert (Hstop :
            (buddy_of i <= 0 \/ ~ taken (status_of t (buddy_of i))) ->
            exists t' m, Ok t = Ok t' /\ promoted t t' i m /\ length t' = length t /\
              forall x, 0 <= x -> (forall j, (1 <= j <= m)%nat -> x <> ancestor j i) ->
                status_of t' x = status_of t x).
  { intros Hs. exists t, O. split; [reflexivity|]. split; [split|split].
    - intros j Hj. lia.
    - exact Hs.
    - reflexivity.
    - reflexivity. }
  destruct (Z.ltb_spec 0 (buddy_of i)) as [Hb|Hb]; [|apply Hstop; left; lia].
  assert (H1 : 1 <= i) by (apply buddy_pos_index; exact Hb).
  pose proof (buddy_of_near i) as [Hnear _].
  assert (Hinb : in_tree t (buddy_of i)) by (unfold in_tree in *; lia).
  rewrite (get_in_tree t _ Hinb). cbn [bind].
  destruct (Z.eqb_spec (status_of t (buddy_of i)) NODE_USED) as [Eu|Eu];
    [|destruct (Z.eqb_spec (status_of t (buddy_of i)) NODE_FULL) as [Ef|Ef]];
    cbn [orb]; [| |apply Hstop; right; unfold taken; tauto].
  all: pose proof (parent_range i H1) as Hpr.
  all: assert (Hinp : in_tree t (parent i)) by (unfold in_tree in *; lia).
  all: destruct (set_in_tree t (parent i) NODE_FULL Hinp) as (t1 & H1s & Hlen1).
  all: rewrite H1s; cbn [bind].
  all: destruct (IH t1 (parent i) ltac:(lia)
                   ltac:(unfold in_tree in *; rewrite Hlen1; lia) ltac:(lia))
         as (t' & m & Hloop & [Hd Hend] & Hlen & Hkeep).
  all: assert (Hsame1 : forall x, 0 <= x -> x <> parent i ->
                 status_of t1 x = status_of t x)
         by (intros x Hx Hne;
             apply (status_set_other t t1 (parent i) x NODE_FULL); auto).
  all: assert (Hanc : forall j, (1 <= j <= m)%nat -> ancestor j (parent i) < parent i)
         by (intros [|j] Hj; [lia|];
             destruct (Hd j ltac:(lia)) as (Hb' & _);
             apply buddy_pos_index in Hb';
             pose proof (parent_range _ Hb') as Hq;
             pose proof (ancestor_below (S j) (parent i) ltac:(lia)
                           ltac:(cbn [ancestor]; lia)); lia).
  all: exists t', (S m); split; [exact Hloop|]; split; [split|split].
  all: try congruence.
  all: try (intros x Hx Hne; rewrite Hkeep;
            [apply Hsame1; [exact Hx | exact (Hne 1%nat ltac:(lia))] | exact Hx |];
            intros j Hj; specialize (Hne (S j) ltac:(lia));
            rewrite ancestor_parent in Hne; exact Hne).
  all: try (rewrite ancestor_parent;
            destruct Hend as [Hle|Hnt]; [left; exact Hle|];
            destruct (Z.ltb_spec 0 (buddy_of (ancestor m (parent i)))) as [Hpos|]; [|left; lia];
            right; rewrite <- Hsame1;
            [exact Hnt | lia | apply buddy_of_ancestor_ne; lia]).
  all: intros [|j] Hj.
  all: try (cbn [ancestor]; split; [exact Hb|]; split; [unfold taken; tauto|];
            rewrite Hkeep;
            [eapply status_set_same; eauto | lia
            | intros j Hj' E; specialize (Hanc j Hj'); lia]).
  all: rewrite !ancestor_parent;
       destruct (Hd j ltac:(lia)) as (Hb' & Ht' & Hfull);
       split; [exact Hb'|]; split; [|rewrite <- ancestor_parent; exact Hfull];
       rewrite <- Hsame1; [exact Ht' | lia | apply buddy_of_ancestor_ne; lia].
Qed.

(** X9: [_mark_parent] climbs from the allocated node while the buddy is
    USED or FULL and writes FULL to each parent on the way; it stops at the
    root or at the first buddy that is neither, reads and writes inside the
    tree only, and leaves every other status as it was. *)
Theorem mark_parent_marks_ancestors (t : list Z) (i : Z) :
  0 <= i -> in_tree t (i + 1) ->
  exists t' m,
    _mark_parent t i = Ok t' /\ promoted t t' i m /\
    length t' = length t /\
    forall x, 0 <= x ->
      (forall j, (1 <= j <= m)%nat -> x <> ancestor j i) ->
      status_of t' x = status_of t x.
Proof.
  intros Hi Hin. unfold _mark_parent.
  apply mark_parent_loop_spec; [exact Hi | exact Hin | lia].
Qed.

Lemma mark_parent_marks_ancestors_witness :
  exists t' m,
    _mark_parent [138; 64; 1; 0] 8 = Ok t' /\ promoted [138; 64; 1; 0] t' 8 m /\
    length t' = length [138; 64; 1; 0] /\
    forall x, 0 <= x ->
      (forall j, (1 <= j <= m)%nat -> x <> ancestor j 8) ->
      status_of t' x = status_of [138; 64; 1; 0] x.
Proof.
  apply (mark_parent_marks_ancestors [138; 64; 1; 0] 8); [lia|].
  unfold in_tree. cbn. lia.
Defined.

(** ** Geometry of the allocated blocks *)

Lemma pow2_divide (k d : nat) : (k <= d)%nat -> (2 ^ Z.of_nat k | 2 ^ Z.of_nat d).
Proof.
  intros H. exists (2 ^ (Z.of_nat d - Z.of_nat k)).
  rewrite <- Z.pow_add_r by lia. f_equal. lia.
Qed.

(** Every block of a tree is a power of two in size and lies at a multiple
    of its size from the start of the tree. *)
Lemma live_aligned (sh : shape) :
  forall (d : nat) (left o s : Z),
    In (o, s) (live d left sh) ->
    (s | o - left) /\ exists k : nat, (k <= d)%nat /\ s = 2 ^ Z.of_nat k.
Proof.
  induction sh as [| |f l IHl r IHr]; intros d left o s H; simpl in H.
  - contradiction.
  - destruct H as [[= <- <-]|[]]. split.
    + rewrite Z.sub_diag. apply Z.divide_0_r.
    + exists d. split; [lia | reflexivity].
  - destruct d as [|d]; [contradiction|].
    apply in_app_or in H. destruct H as [H|H].
    + destruct (IHl _ _ _ _ H) as (Hd & k & Hk & Es).
      split; [exact Hd|]. exists k. split; [lia | exact Es].
    + destruct (IHr _ _ _ _ H) as (Hd & k & Hk & Es).
      split; [|exists k; split; [lia | exact Es]].
      replace (o - left) with (o - (left + 2 ^ Z.of_nat d) + 2 ^ Z.of_nat d) by ring.
      apply Z.divide_add_r; [exact Hd|]. rewrite Es. apply pow2_divide. exact Hk.
Qed.

(** Beneath a node that is USED or FULL every unit is allocated. *)
Lemma full_covered (sh : shape) :
  forall (d : nat) (left u : Z),
    wf_shape d sh = true -> is_full sh = true ->
    left <= u < left + 2 ^ Z.of_nat d ->
    exists o s, In (o, s) (live d left sh) /\ o <= u < o + s.
Proof.
  induction sh as [| |f l IHl r IHr]; intros d left u Hwf Hfull Hu.
  - discriminate.
  - exists left, (2 ^ Z.of_nat d). split; [left; reflexivity | exact Hu].
  - destruct d as [|d]; [discriminate|].
    apply wf_split_inv in Hwf. destruct Hwf as (Ef & _ & Wl & Wr).
    cbn [is_full] in Hfull. rewrite Ef in Hfull.
    apply andb_true_iff in Hfull. destruct Hfull as [Fl Fr].
    rewrite pow2_S in Hu. cbn [live].
    destruct (Z.lt_ge_cases u (left + 2 ^ Z.of_nat d)) as [Hlt|Hge].
    + destruct (IHl d left u Wl Fl ltac:(lia)) as (o & s & Hin & Ho).
      exists o, s. split; [apply in_or_app; left; exact Hin | exact Ho].
    + destruct (IHr d (left + 2 ^ Z.of_nat d) u Wr Fr ltac:(lia)) as (o & s & Hin & Ho).
      exists o, s. split; [apply in_or_app; right; exact Hin | exact Ho].
Qed.

Lemma free_at_app (L1 L2 : list (Z * Z)) (a sz : Z) :
  free_at (L1 ++ L2) a sz <-> free_at L1 a sz /\ free_at L2 a sz.
Proof.
  unfold free_at. split.
  - intros H. split; intros b Hb; apply H, in_or_app; auto.
  - intros [H1 H2] b Hb. apply in_app_or in Hb. destruct Hb; auto.
Qed.

(** An aligned block that starts in the left half of a node ends in it. *)
Lemma aligned_half (k d : nat) (left a : Z) :
  (k <= d)%nat -> left <= a -> (2 ^ Z.of_nat k | a - left) ->
  a < left + 2 ^ Z.of_nat d -> a + 2 ^ Z.of_nat k <= left + 2 ^ Z.of_nat d.
Proof.
  intros Hk Hle [q Hq] Hlt. destruct (pow2_divide k d Hk) as [c Hc].
  pose proof (pow2_pos (Z.of_nat k) ltac:(lia)) as Hp.
  rewrite Hc in *. assert (q < c) by nia. nia.
Qed.

(** The search on the tree finds a block wherever an aligned block of the
    size is free, and none that starts below the one it returns is. *)
Lemma alloc_sh_fit (d : nat) :
  forall (k : nat) (left : Z) (sh : shape) (r : option (shape * Z)) (a : Z),
    wf_shape d sh = true -> (k <= d)%nat ->
    alloc_sh d (2 ^ Z.of_nat k) left sh = Ok r ->
    left <= a -> a + 2 ^ Z.of_nat k <= left + 2 ^ Z.of_nat d ->
    (2 ^ Z.of_nat k | a - left) ->
    free_at (live d left sh) a (2 ^ Z.of_nat k) ->
    exists sh' off, r = Some (sh', off) /\ off <= a.
Proof.
  induction d as [|d IH]; intros k left sh r a Hwf Hk H Hl Hr Hdiv Hfree.
  all: pose proof (pow2_pos (Z.of_nat k) ltac:(lia)) as Hp.
  - assert (k = O) by lia. subst k. rewrite alloc_sh_exact in H by reflexivity.
    destruct sh as [| |f l r0]; [| |discriminate].
    + injection H as <-. eauto.
    + exfalso. destruct (Hfree (left, 2 ^ Z.of_nat 0) ltac:(left; reflexivity));
        cbn [fst snd] in *; lia.
  - destruct (Nat.eq_dec k (S d)) as [->|Hne].
    + rewrite alloc_sh_exact in H by reflexivity.
      destruct sh as [| |f l r0].
      * injection H as <-. eauto.
      * exfalso. destruct (Hfree (left, 2 ^ Z.of_nat (S d)) ltac:(left; reflexivity));
          cbn [fst snd] in *; lia.
      * exfalso. destruct (live (S d) left (Split f l r0)) as [|[o s] L] eqn:EL.
        -- apply live_nil_free in EL; [discriminate | exact Hwf].
        -- assert (Hin : In (o, s) (live (S d) left (Split f l r0)))
             by (rewrite EL; left; reflexivity).
           pose proof (live_range _ _ _ _ _ Hin).
           rewrite <- EL in Hfree. destruct (Hfree (o, s) Hin); cbn [fst snd] in *; lia.
    + assert (Hsz : 2 ^ Z.of_nat k <> 2 ^ Z.of_nat (S d)).
      { intros E. apply Z.pow_inj_r in E; lia. }
      destruct sh as [| |[|] l r0].
      * rewrite alloc_sh_free_S in H by assumption.
        destruct (alloc_sh_free_ok d k left ltac:(lia)) as (l' & E).
        rewrite E in H. cbn [bind] in H. injection H as <-. eauto.
      * exfalso. destruct (Hfree (left, 2 ^ Z.of_nat (S d)) ltac:(left; reflexivity));
          cbn [fst snd] in *; lia.
      * exfalso.
        destruct (full_covered _ (S d) left a Hwf eq_refl ltac:(lia))
          as (o & s & Hin & Ho).
        destruct (Hfree (o, s) Hin); cbn [fst snd] in *; lia.
      * apply wf_split_inv in Hwf. destruct Hwf as (_ & _ & Wl & Wr).
        rewrite alloc_sh_split_S in H by assumption.
        cbn [live] in Hfree. apply free_at_app in Hfree. destruct Hfree as [Fl Fr].
        rewrite pow2_S in Hr.
        destruct (alloc_sh d (2 ^ Z.of_nat k) left l) as [rl| | |] eqn:El;
          try discriminate. cbn [bind] in H.
        destruct (Z.lt_ge_cases a (left + 2 ^ Z.of_nat d)) as [Hlt|Hge].
        -- pose proof (aligned_half k d left a ltac:(lia) Hl Hdiv Hlt) as Hend.
           destruct (IH k left l rl a Wl ltac:(lia) El Hl Hend Hdiv Fl)
             as (l' & off & -> & Hoff).
           injection H as <-. eauto.
        -- destruct rl as [[l' off]|].
           ++ injection H as <-. do 2 eexists. split; [reflexivity|].
              pose proof (alloc_sh_live _ _ _ _ _ _ El) as P.
              assert (Hin : In (off, 2 ^ Z.of_nat k) (live d left l')).
              { eapply Permutation_in; [symmetry; exact P|]. left. reflexivity. }
              pose proof (live_range _ _ _ _ _ Hin). lia.
           ++ destruct (alloc_sh d (2 ^ Z.of_nat k) (left + 2 ^ Z.of_nat d) r0)
                as [rr| | |] eqn:Er; try discriminate. cbn [bind] in H.
              assert (Hdiv' : (2 ^ Z.of_nat k | a - (left + 2 ^ Z.of_nat d))).
              { replace (a - (left + 2 ^ Z.of_nat d))
                  with (a - left - 2 ^ Z.of_nat d) by ring.
                apply Z.divide_sub_r; [exact Hdiv|]. apply pow2_divide. lia. }
              destruct (IH k (left + 2 ^ Z.of_nat d) r0 rr a Wr ltac:(lia) Er Hge
                          ltac:(lia) Hdiv' Fr) as (r' & off & -> & Hoff).
              injection H as <-. eauto.
Qed.

(** The block that the search returns: inside the tree, aligned to its
    size, and free before. *)
Lemma alloc_sh_block (d : nat) (k : nat) (left : Z) (sh sh' : shape) (off : Z) :
  wf_shape d sh = true ->
  alloc_sh d (2 ^ Z.of_nat k) left sh = Ok (Some (sh', off)) ->
  left <= off /\ off + 2 ^ Z.of_nat k <= left + 2 ^ Z.of_nat d /\
  (2 ^ Z.of_nat k | off - left) /\
  free_at (live d left sh) off (2 ^ Z.of_nat k).
Proof.
  intros Hwf H.
  pose proof (alloc_sh_live _ _ _ _ _ _ H) as P.
  assert (Hin : In (off, 2 ^ Z.of_nat k) (live d left sh')).
  { eapply Permutation_in; [symmetry; exact P|]. left. reflexivity. }
  pose proof (live_range _ _ _ _ _ Hin) as (R1 & R2 & _).
  destruct (live_aligned _ _ _ _ _ Hin) as (Hdiv & _).
  split; [exact R1|]. split; [exact R2|]. split; [exact Hdiv|].
  intros b Hb.
  assert (Hb' : In b (live d left sh')).
  { eapply Permutation_in; [symmetry; exact P|]. right. exact Hb. }
  assert (Hne : (off, 2 ^ Z.of_nat k) <> b).
  { intros <-. pose proof (live_offsets_nodup sh' d left) as N.
    apply (Permutation_map fst) in P. cbn [map fst] in P.
    apply (Permutation_NoDup P) in N. apply NoDup_cons_iff in N.
    destruct N as [N _]. apply N. apply (in_map fst) in Hb. exact Hb. }
  destruct (live_disjoint sh' d left _ _ Hin Hb' Hne) as [D|D];
    cbn [fst snd] in D; [right | left]; lia.
Qed.

(** ** Totals *)

Lemma total_cons (b : Z * Z) (L : list (Z * Z)) : total (b :: L) = snd b + total L.
Proof. reflexivity. Qed.

Lemma total_app (L1 L2 : list (Z * Z)) : total (L1 ++ L2) = total L1 + total L2.
Proof.
  induction L1 as [|b L1 IH].
  - change (total []) with 0. cbn [app]. lia.
  - rewrite <- app_comm_cons, !total_cons, IH. lia.
Qed.

Lemma live_total (sh : shape) :
  forall (d : nat) (left : Z),
    wf_shape d sh = true ->
    0 <= total (live d left sh) <= 2 ^ Z.of_nat d /\
    (is_full sh = true <-> total (live d left sh) = 2 ^ Z.of_nat d).
Proof.
  induction sh as [| |f l IHl r IHr]; intros d left Hwf.
  all: pose proof (pow2_pos (Z.of_nat d) ltac:(lia)) as Hp.
  - cbn [live is_full]. change (total []) with 0.
    split; [lia|]. split; [discriminate | lia].
  - cbn [live is_full]. rewrite total_cons. change (total []) with 0. cbn [snd].
    split; [lia|]. split; [lia | reflexivity].
  - destruct d as [|d]; [discriminate|].
    apply wf_split_inv in Hwf. destruct Hwf as (Ef & _ & Wl & Wr).
    cbn [live is_full]. rewrite total_app, pow2_S.
    destruct (IHl d left Wl) as (Rl & Fl).
    destruct (IHr d (left + 2 ^ Z.of_nat d) Wr) as (Rr & Fr).
    split; [lia|]. subst f. rewrite andb_true_iff, Fl, Fr. lia.
Qed.

(** ** Allocation on a pool, in bytes *)

Lemma to_bytes_mul (m : Z) (b : Z * Z) :
  0 <= m -> to_bytes m b = (fst b * 2 ^ m, snd b * 2 ^ m).
Proof. intros H. unfold to_bytes. rewrite !Z.shiftl_mul_pow2 by lia. reflexivity. Qed.

Lemma free_at_units (m : Z) (L : list (Z * Z)) (a sz : Z) :
  0 <= m ->
  (free_at (map (to_bytes m) L) (a * 2 ^ m) (sz * 2 ^ m) <-> free_at L a sz).
Proof.
  intros Hm. pose proof (pow2_pos m Hm) as Hp. unfold free_at. split.
  - intros H b Hb. specialize (H (to_bytes m b) (in_map _ _ _ Hb)).
    rewrite to_bytes_mul in H by lia. cbn [fst snd] in H. nia.
  - intros H b Hb. apply in_map_iff in Hb. destruct Hb as (b0 & <- & Hb0).
    specialize (H b0 Hb0). rewrite to_bytes_mul by lia. cbn [fst snd]. nia.
Qed.

(** What [buddy_alloc] does on a consistent pool for a request of at most
    [2^30] bytes, by the search on the tree the pool denotes. *)
Lemma buddy_alloc_view (p : buddy) (s : Z) :
  pool_ok p -> level p + min_level p <= 30 -> 0 <= s <= 2 ^ 30 ->
  exists j : nat,
    alloc_size p s = 2 ^ Z.of_nat j /\
    Z.of_nat j = Z.max (min_level p) (Z.log2_up s) - min_level p /\
    block_size p s = 2 ^ Z.of_nat j * 2 ^ min_level p /\
    ((level p < Z.of_nat j /\ buddy_alloc p s = Ok (None, p)) \/
     ((j <= depth p)%nat /\
      ((alloc_sh (depth p) (2 ^ Z.of_nat j) 0 (pool_shape p) = Ok None /\
        buddy_alloc p s = Ok (None, p)) \/
       (exists sh' off t1,
          alloc_sh (depth p) (2 ^ Z.of_nat j) 0 (pool_shape p) = Ok (Some (sh', off)) /\
          buddy_alloc p s = Ok (Some (off * 2 ^ min_level p), with_tree p t1) /\
          shape_at (depth p) t1 0 = sh' /\ length t1 = length (tree p))))).
Proof.
  intros Hok Hm Hs. pose proof Hok as ([Hm0 Hm31] & Hl & Hlen & Hwf).
  pose proof (buddy_alloc_sim p s Hok) as Hsim.
  destruct (block_size_rounds p s ltac:(lia) Hs) as (_ & _ & Esz).
  set (j := Z.max (min_level p) (Z.log2_up s) - min_level p) in *.
  assert (Hj0 : 0 <= j) by lia.
  exists (Z.to_nat j). rewrite Z2Nat.id by lia.
  split; [exact Esz|]. split; [reflexivity|]. split.
  { unfold block_size. rewrite Esz, Z.shiftl_mul_pow2 by lia. reflexivity. }
  rewrite Esz in Hsim.
  destruct (Z.ltb_spec (2 ^ level p) (2 ^ j)) as [Hover|Hfit].
  - left. split; [|exact Hsim].
    destruct (Z.lt_ge_cases (level p) j); [assumption|].
    assert (2 ^ j <= 2 ^ level p) by (apply Z.pow_le_mono_r; lia). lia.
  - right.
    assert (Hjl : j <= level p).
    { destruct (Z.le_gt_cases j (level p)); [assumption|].
      assert (2 ^ (level p + 1) <= 2 ^ j) by (apply Z.pow_le_mono_r; lia).
      rewrite Z.pow_add_r in * by lia. pose proof (pow2_pos (level p) ltac:(lia)). lia. }
    split; [unfold depth; lia|].
    rewrite <- (Z2Nat.id j) in Hsim by lia.
    destruct (alloc_sh_returns (depth p) (Z.to_nat j) 0 (pool_shape p) Hwf
                ltac:(unfold depth; lia)) as (r & E).
    rewrite Z2Nat.id in * by lia.
    rewrite E in Hsim. destruct r as [[sh' off]|].
    + right. destruct Hsim as (t1 & Hres & Hshape & Hlen1).
      exists sh', off, t1.
      rewrite <- (unit_offset_small p off Hok Hm (alloc_sh_unit_range _ _ _ _ Hok E)).
      auto.
    + left. auto.
Qed.

(** First fit: where an aligned block of the rounded size is free, a block
    is returned, at that offset or below. *)
Lemma buddy_alloc_fit (p : buddy) (s a : Z) :
  pool_ok p -> level p + min_level p <= 30 -> 0 <= s <= 2 ^ 30 ->
  0 <= a -> (block_size p s | a) ->
  a + block_size p s <= 2 ^ (level p + min_level p) ->
  free_at (pool_live p) a (block_size p s) ->
  exists off p', buddy_alloc p s = Ok (Some off, p') /\ off <= a.
Proof.
  intros Hok Hm Hs Ha [q Hq] Hend Hfree. pose proof Hok as ([Hm0 Hm31] & Hl & Hlen & Hwf).
  destruct (buddy_alloc_view p s Hok Hm Hs) as (j & Esz & _ & Eb & Hcase).
  pose proof (pow2_pos (min_level p) Hm0) as Hpm.
  pose proof (pow2_pos (Z.of_nat j) ltac:(lia)) as Hpj.
  pose proof (pow2_pos (level p) ltac:(lia)) as Hpl.
  rewrite Eb in *. rewrite Z.pow_add_r in Hend by lia.
  assert (Ea : a = (q * 2 ^ Z.of_nat j) * 2 ^ min_level p) by lia.
  assert (Hq0 : 0 <= q) by nia.
  rewrite Ea in Hfree. unfold pool_live in Hfree.
  apply free_at_units in Hfree; [|lia].
  assert (Hend' : q * 2 ^ Z.of_nat j + 2 ^ Z.of_nat j <= 2 ^ level p) by nia.
  destruct Hcase as [[Hover _]|(Hj & Hcase)].
  { assert (2 ^ (level p + 1) <= 2 ^ Z.of_nat j) by (apply Z.pow_le_mono_r; lia).
    rewrite Z.pow_add_r in * by lia. nia. }
  assert (Hfit : forall r, alloc_sh (depth p) (2 ^ Z.of_nat j) 0 (pool_shape p) = Ok r ->
            exists sh' off, r = Some (sh', off) /\ off <= q * 2 ^ Z.of_nat j).
  { intros r E.
    apply (alloc_sh_fit (depth p) j 0 (pool_shape p) r (q * 2 ^ Z.of_nat j) Hwf Hj E).
    - nia.
    - rewrite depth_level by lia. lia.
    - exists q. lia.
    - exact Hfree. }
  destruct Hcase as [[E _]|(sh' & off & t1 & E & Hres & _)].
  - destruct (Hfit _ E) as (? & ? & ? & _). discriminate.
  - destruct (Hfit _ E) as (? & ? & [= <- <-] & Hoff).
    exists (off * 2 ^ min_level p), (with_tree p t1). split; [exact Hres|]. nia.
Qed.

(** The block that [buddy_alloc] returns: aligned to its size, inside the
    pool, and free before the call. *)
Lemma buddy_alloc_block (p p' : buddy) (s off : Z) :
  pool_ok p -> level p + min_level p <= 30 -> 0 <= s <= 2 ^ 30 ->
  buddy_alloc p s = Ok (Some off, p') ->
  0 <= off /\ (block_size p s | off) /\
  off + block_size p s <= 2 ^ (level p + min_level p) /\
  free_at (pool_live p) off (block_size p s).
Proof.
  intros Hok Hm Hs H. pose proof Hok as ([Hm0 Hm31] & Hl & Hlen & Hwf).
  destruct (buddy_alloc_view p s Hok Hm Hs) as (j & Esz & _ & Eb & Hcase).
  pose proof (pow2_pos (min_level p) Hm0) as Hpm.
  pose proof (pow2_pos (Z.of_nat j) ltac:(lia)) as Hpj.
  destruct Hcase as [[_ E]|(Hj & [[_ E]|(sh' & o & t1 & E & Hres & _)])];
    [congruence | congruence |].
  rewrite Hres in H. injection H as <- <-.
  destruct (alloc_sh_block _ _ _ _ _ _ Hwf E) as (R1 & R2 & [c Hc] & Hfree).
  rewrite depth_level in R2 by lia. rewrite Eb, Z.pow_add_r by lia.
  split; [nia|]. split; [exists c; nia|]. split; [nia|].
  unfold pool_live. apply free_at_units; [lia | exact Hfree].
Qed.

Lemma free_at_dec (L : list (Z * Z)) (a sz : Z) :
  free_at L a sz \/
  exists b, In b L /\ fst b < a + sz /\ a < fst b + snd b.
Proof.
  induction L as [|b L IH].
  - left. intros b [].
  - destruct IH as [IH|(b' & Hb' & Hov)]; [|right; exists b'; split; [right|]; assumption].
    destruct (Z_le_gt_dec (fst b + snd b) a) as [H1|H1].
    + left. intros x [<-|Hx]; [left; exact H1 | apply IH, Hx].
    + destruct (Z_le_gt_dec (a + sz) (fst b)) as [H2|H2].
      * left. intros x [<-|Hx]; [right; exact H2 | apply IH, Hx].
      * right. exists b. split; [left; reflexivity | lia].
Qed.

(** The blocks of a consistent pool, in bytes: a power of two of at least
    the minimum size, at a multiple of its size, inside the pool. *)
Lemma pool_live_block (p : buddy) (off sz : Z) :
  pool_ok p -> In (off, sz) (pool_live p) ->
  0 <= off /\ (sz | off) /\ off + sz <= 2 ^ (level p + min_level p) /\
  exists k, min_level p <= k <= level p + min_level p /\ sz = 2 ^ k.
Proof.
  intros ([Hm Hm31] & Hl & Hlen & Hwf) H. unfold pool_live in H.
  apply in_map_iff in H. destruct H as ([o s] & E & H).
  rewrite to_bytes_mul in E by lia. cbn [fst snd] in E. injection E as <- <-.
  pose proof (live_range _ _ _ _ _ H) as (R1 & R2 & R3).
  destruct (live_aligned _ _ _ _ _ H) as ([c Hc] & k & Hk & Es).
  rewrite depth_level in R2 by lia. rewrite Z.sub_0_r in Hc.
  pose proof (pow2_pos (min_level p) Hm) as Hpm.
  rewrite Z.pow_add_r by lia.
  split; [nia|]. split; [exists c; nia|]. split; [nia|].
  exists (Z.of_nat k + min_level p). unfold depth in Hk.
  split; [lia|]. rewrite Z.pow_add_r by lia. congruence.
Qed.

(** The fields of the control block and the size of the tree are those
    before the call. *)
Lemma buddy_alloc_fields (p p' : buddy) (s : Z) (r : option Z) :
  pool_ok p -> buddy_alloc p s = Ok (r, p') ->
  min_level p' = min_level p /\ level p' = level p /\
  destructor p' = destructor p /\ length (tree p') = length (tree p).
Proof.
  intros Hok H. pose proof (buddy_alloc_sim p s Hok) as Hsim.
  destruct (if _ : bool then _ else _) as [[[sh' o]|]| | |]; try congruence;
    try contradiction.
  - destruct Hsim as (t1 & Hres & _ & Hlen). rewrite Hres in H.
    injection H as <- <-. auto.
  - rewrite Hsim in H. injection H as <- <-. auto.
Qed.

Lemma buddy_free_fields (p p' : buddy) (ptr : Z) :
  pool_ok p -> buddy_free p ptr = Ok p' ->
  min_level p' = min_level p /\ level p' = level p /\
  destructor p' = destructor p /\ length (tree p') = length (tree p).
Proof.
  intros Hok H. pose proof (buddy_free_sim p ptr Hok) as Hsim. cbv zeta in Hsim.
  destruct (if _ : bool then _ else _) as [sh'|]; [|congruence].
  destruct Hsim as (t1 & Hres & _ & Hlen). rewrite Hres in H.
  injection H as <-. auto.
Qed.

Lemma perm_in_iff (L1 L2 : list (Z * Z)) :
  Permutation L1 L2 -> forall b, In b L1 <-> In b L2.
Proof.
  intros P b. split; intros H; [|symmetry in P]; eapply Permutation_in; eassumption.
Qed.

(** Pools with the same blocks denote the same tree. *)
Lemma pool_same_blocks (p q : buddy) :
  pool_ok p -> pool_ok q ->
  min_level q = min_level p -> level q = level p ->
  Permutation (pool_live p) (pool_live q) ->
  pool_shape q = pool_shape p /\ pool_live q = pool_live p /\
  forall i, visible (depth p) (tree p) 0 i ->
    status_of (tree q) i = status_of (tree p) i.
Proof.
  intros Hp Hq Em El P.
  pose proof (pool_shape_unique p q Hp Hq Em El (perm_in_iff _ _ P)) as E.
  assert (Ed : depth q = depth p) by (unfold depth; congruence).
  split; [congruence|]. split.
  - unfold pool_live. congruence.
  - intros i Hv. apply (shape_eq_visible (depth p) (tree p) (tree q) 0 i); [|exact Hv].
    unfold pool_shape in E. rewrite Ed in E. congruence.
Qed.

(** ** The example pools are consistent *)

Lemma pool_7_4_ok : pool_ok pool_7_4.
Proof.
  apply reachable_ok; [exact (reach_new 7 4 false _ pool_7_4_new) | cbn; lia].
Qed.

Lemma pool_7_4_a_ok : pool_ok pool_7_4_a.
Proof. exact (buddy_alloc_ok _ _ _ _ pool_7_4_ok pool_7_4_alloc_a). Qed.

Lemma pool_7_4_b_ok : pool_ok pool_7_4_b.
Proof. exact (buddy_alloc_ok _ _ _ _ pool_7_4_a_ok pool_7_4_alloc_b). Qed.

(** ** What [buddy_alloc] returns *)

(** X13: on a consistent pool of at most [2^30] bytes, the block returned
    for a request of [s <= 2^30] bytes is a power of two of at least [s]
    and at least the minimum block size (below [2 * s] for a request above
    the minimum block size), starts at a multiple of its size, ends inside
    the pool and meets no block that was allocated before. *)
Theorem alloc_block_aligned (p p' : buddy) (s off : Z) :
  pool_ok p -> level p + min_level p <= 30 -> 0 <= s <= 2 ^ 30 ->
  buddy_alloc p s = Ok (Some off, p') ->
  block_size p s = 2 ^ Z.max (min_level p) (Z.log2_up s) /\
  s <= block_size p s /\
  (2 ^ min_level p < s -> block_size p s < 2 * s) /\
  0 <= off /\ (block_size p s | off) /\
  off + block_size p s <= 2 ^ (level p + min_level p) /\
  free_at (pool_live p) off (block_size p s).
Proof.
  intros Hok Hsmall Hs H. pose proof Hok as ([Hm0 Hm31] & Hl & _).
  destruct (buddy_alloc_view p s Hok ltac:(lia) Hs) as (j & _ & Ej & Eb & _).
  destruct (block_size_rounds p s ltac:(lia) Hs) as (_ & Hle & _).
  destruct (buddy_alloc_block p p' s off Hok ltac:(lia) Hs H) as (H0 & Hd & He & Hf).
  assert (Ebs : block_size p s = 2 ^ Z.max (min_level p) (Z.log2_up s)).
  { rewrite Eb, <- Z.pow_add_r by lia. f_equal. lia. }
  split; [exact Ebs|]. split; [exact Hle|]. split; [|auto].
  intros Hbig. rewrite Ebs.
  pose proof (pow2_pos (min_level p) Hm0) as Hpm.
  pose proof (Z.log2_up_spec s ltac:(lia)) as [Hlo _].
  assert (Hlt : min_level p < Z.log2_up s).
  { destruct (Z.lt_ge_cases (min_level p) (Z.log2_up s)) as [|Hge]; [assumption|].
    pose proof (Z.log2_up_spec s ltac:(lia)) as [_ Hhi].
    assert (2 ^ Z.log2_up s <= 2 ^ min_level p) by (apply Z.pow_le_mono_r; lia). lia. }
  rewrite Z.max_r by lia.
  replace (Z.log2_up s) with (Z.pred (Z.log2_up s) + 1) at 1 by lia.
  rewrite Z.pow_add_r by lia. change (2 ^ 1) with 2. lia.
Qed.

Lemma alloc_block_aligned_witness :
  block_size pool_7_4_a 20 = 2 ^ Z.max (min_level pool_7_4_a) (Z.log2_up 20) /\
  20 <= block_size pool_7_4_a 20 /\
  (2 ^ min_level pool_7_4_a < 20 -> block_size pool_7_4_a 20 < 2 * 20) /\
  0 <= 32 /\ (block_size pool_7_4_a 20 | 32) /\
  32 + block_size pool_7_4_a 20 <= 2 ^ (level pool_7_4_a + min_level pool_7_4_a) /\
  free_at (pool_live pool_7_4_a) 32 (block_size pool_7_4_a 20).
Proof.
  apply (alloc_block_aligned pool_7_4_a (mkBuddy 4 3 false [206; 65; 1; 0]) 20 32).
  - exact pool_7_4_a_ok.
  - cbn. lia.
  - lia.
  - vm_compute. reflexivity.
Defined.

(** X14: a successful allocation adds the returned block, with the
    rounded size, to the allocated blocks of the pool and keeps every
    other one; the fields of the control block and the size of the tree do
    not change. *)
Theorem alloc_adds_one_block (p p' : buddy) (s off : Z) :
  pool_ok p -> level p + min_level p <= 30 ->
  buddy_alloc p s = Ok (Some off, p') ->
  Permutation (pool_live p') ((off, block_size p s) :: pool_live p) /\
  min_level p' = min_level p /\ level p' = level p /\
  destructor p' = destructor p /\ length (tree p') = length (tree p).
Proof.
  intros Hok Hsmall H.
  destruct (buddy_alloc_some p p' s off Hok Hsmall H) as (_ & _ & _ & P).
  split; [exact P|]. exact (buddy_alloc_fields p p' s _ Hok H).
Qed.

Lemma alloc_adds_one_block_witness :
  Permutation (pool_live pool_7_4_b) ((32, block_size pool_7_4_a 16) :: pool_live pool_7_4_a) /\
  min_level pool_7_4_b = min_level pool_7_4_a /\ level pool_7_4_b = level pool_7_4_a /\
  destructor pool_7_4_b = destructor pool_7_4_a /\
  length (tree pool_7_4_b) = length (tree pool_7_4_a).
Proof.
  apply (alloc_adds_one_block pool_7_4_a pool_7_4_b 16 32).
  - exact pool_7_4_a_ok.
  - cbn. lia.
  - vm_compute. reflexivity.
Defined.

(** X15: first fit by address: no aligned block of the rounded size that
    is free before the call starts below the block that [buddy_alloc]
    returns. *)
Theorem alloc_lowest_address (p p' : buddy) (s off a : Z) :
  pool_ok p -> level p + min_level p <= 30 -> 0 <= s <= 2 ^ 30 ->
  buddy_alloc p s = Ok (Some off, p') ->
  0 <= a -> (block_size p s | a) ->
  a + block_size p s <= 2 ^ (level p + min_level p) ->
  free_at (pool_live p) a (block_size p s) ->
  off <= a.
Proof.
  intros Hok Hsmall Hs H Ha Hd He Hf. pose proof Hok as ([Hm0 Hm31] & Hl & _).
  destruct (buddy_alloc_fit p s a Hok ltac:(lia) Hs Ha Hd He Hf) as (o & q & E & Ho).
  congruence.
Qed.

Lemma alloc_lowest_address_witness :
  buddy_alloc pool_7_4_a 20 = Ok (Some 32, mkBuddy 4 3 false [206; 65; 1; 0]) /\
  free_at (pool_live pool_7_4_a) 64 (block_size pool_7_4_a 20) /\
  32 <= 64.
Proof.
  assert (Hf : free_at (pool_live pool_7_4_a) 64 (block_size pool_7_4_a 20)).
  { intros b Hb. vm_compute in Hb.
    destruct Hb as [<-|[<-|[]]]; vm_compute; left; discriminate. }
  split; [vm_compute; reflexivity|]. split; [exact Hf|].
  apply (alloc_lowest_address pool_7_4_a (mkBuddy 4 3 false [206; 65; 1; 0]) 20 32 64).
  - exact pool_7_4_a_ok.
  - cbn. lia.
  - lia.
  - vm_compute. reflexivity.
  - lia.
  - exists 2. vm_compute. reflexivity.
  - vm_compute. discriminate.
  - exact Hf.
Defined.

(** X16: [buddy_alloc] returns NULL exactly when it must: on a consistent
    pool a request of [s <= 2^30] bytes fails if and only if every aligned
    block of the rounded size inside the pool meets an allocated block. *)
Theorem alloc_null_iff_no_room (p : buddy) (s : Z) :
  pool_ok p -> level p + min_level p <= 30 -> 0 <= s <= 2 ^ 30 ->
  (buddy_alloc p s = Ok (None, p) <->
   forall a, 0 <= a -> (block_size p s | a) ->
     a + block_size p s <= 2 ^ (level p + min_level p) ->
     exists b, In b (pool_live p) /\
       fst b < a + block_size p s /\ a < fst b + snd b).
Proof.
  intros Hok Hsmall Hs. pose proof Hok as ([Hm0 Hm31] & Hl & _). split.
  - intros Hnull a Ha Hd He.
    destruct (free_at_dec (pool_live p) a (block_size p s)) as [Hf|Hov]; [|exact Hov].
    destruct (buddy_alloc_fit p s a Hok ltac:(lia) Hs Ha Hd He Hf) as (o & q & E & _).
    congruence.
  - intros Hall.
    destruct (buddy_alloc_returns p s Hok ltac:(lia) Hs) as ([off|] & p' & E).
    + exfalso.
      destruct (buddy_alloc_block p p' s off Hok ltac:(lia) Hs E) as (H0 & Hd & He & Hf).
      destruct (Hall off H0 Hd He) as (b & Hb & Hov). destruct (Hf b Hb); lia.
    + rewrite E. apply buddy_alloc_none in E. congruence.
Qed.

Lemma alloc_null_iff_no_room_witness :
  buddy_alloc pool_7_4_b 64 = Ok (None, pool_7_4_b) <->
  forall a, 0 <= a -> (block_size pool_7_4_b 64 | a) ->
    a + block_size pool_7_4_b 64 <= 2 ^ (level pool_7_4_b + min_level pool_7_4_b) ->
    exists b, In b (pool_live pool_7_4_b) /\
      fst b < a + block_size pool_7_4_b 64 /\ a < fst b + snd b.
Proof.
  apply (alloc_null_iff_no_room pool_7_4_b 64).
  - exact pool_7_4_b_ok.
  - cbn. lia.
  - lia.
Defined.

(** X17: failure is monotone in the size: when a request fails on a
    consistent pool, every larger request (of at most [2^30] bytes) fails
    too. *)
Theorem alloc_failure_monotone (p : buddy) (s s' : Z) :
  pool_ok p -> level p + min_level p <= 30 ->
  0 <= s <= s' -> s' <= 2 ^ 30 ->
  buddy_alloc p s = Ok (None, p) -> buddy_alloc p s' = Ok (None, p).
Proof.
  intros Hok Hsmall Hs Hs' Hnull. pose proof Hok as ([Hm0 Hm31] & Hl & _).
  destruct (buddy_alloc_returns p s' Hok ltac:(lia) ltac:(lia)) as ([off|] & p' & E).
  - exfalso.
    destruct (buddy_alloc_block p p' s' off Hok ltac:(lia) ltac:(lia) E)
      as (H0 & [c Hc] & He & Hf).
    destruct (buddy_alloc_view p s Hok ltac:(lia) ltac:(lia)) as (j & _ & Ej & Eb & _).
    destruct (buddy_alloc_view p s' Hok ltac:(lia) ltac:(lia)) as (j' & _ & Ej' & Eb' & _).
    assert (Hjj : (j <= j')%nat).
    { pose proof (Z.log2_up_le_mono s s' ltac:(lia)). lia. }
    destruct (pow2_divide j j' Hjj) as [e He'].
    pose proof (pow2_pos (Z.of_nat j) ltac:(lia)) as Hpj.
    pose proof (pow2_pos (Z.of_nat j') ltac:(lia)) as Hpj'.
    pose proof (pow2_pos (min_level p) Hm0) as Hpm.
    assert (Hle : block_size p s <= block_size p s').
    { rewrite Eb, Eb'. assert (0 < e) by nia. nia. }
    destruct (buddy_alloc_fit p s off Hok ltac:(lia) ltac:(lia) H0) as (o & q & E' & _).
    + exists (c * e). rewrite Hc, Eb, Eb', He'. ring.
    + lia.
    + intros b Hb. destruct (Hf b Hb); lia.
    + congruence.
  - rewrite E. apply buddy_alloc_none in E. congruence.
Qed.

Lemma alloc_failure_monotone_witness :
  buddy_alloc pool_7_4_b 65 = Ok (None, pool_7_4_b) /\
  buddy_alloc pool_7_4_b 1000 = Ok (None, pool_7_4_b).
Proof.
  split; [vm_compute; reflexivity|].
  apply (alloc_failure_monotone pool_7_4_b 65 1000).
  - exact pool_7_4_b_ok.
  - cbn. lia.
  - lia.
  - lia.
  - vm_compute. reflexivity.
Defined.

(** The search loop needs no more steps than [buddy_alloc] allows it. *)
Lemma alloc_loop_enough (p : buddy) (size : Z) (fuel : nat) :
  pool_ok p -> (alloc_fuel p <= fuel)%nat ->
  alloc_loop fuel size (min_level p) (level p) (tree p) AtHead 0 0 (2 ^ level p)
  = alloc_loop (alloc_fuel p) size (min_level p) (level p) (tree p)
      AtHead 0 0 (2 ^ level p).
Proof.
  intros Hok Hfuel. pose proof (pool_root p Hok) as Hroot.
  destruct Hok as (Hm & Hl & Hlen & Hwf).
  pose proof (alloc_sim size (min_level p) (level p) ltac:(lia) ltac:(lia)
                (depth p) (tree p) 0 0 Hroot Hwf) as Hsim.
  unfold alloc_outcome in Hsim. rewrite depth_level in Hsim by lia.
  assert (Hf : forall c, (c <= cost (depth p))%nat ->
            exists f f', alloc_fuel p = (c + S (S (S f)))%nat /\
                         fuel = (c + S (S (S f')))%nat).
  { intros c Hc. exists (alloc_fuel p - c - 3)%nat, (fuel - c - 3)%nat.
    pose proof (cost_eq (depth p)) as Hce. rewrite depth_level in Hce by lia.
    unfold alloc_fuel in *. pose proof (pow2_pos (level p + 2) ltac:(lia)). lia. }
  destruct (alloc_sh (depth p) size _ (shape_at (depth p) (tree p) 0))
    as [[[sh' off]|]| | |]; try contradiction.
  - destruct Hsim as (c & t1 & Hc & _ & _ & Hloop).
    destruct (Hf c Hc) as (f & f' & -> & ->). rewrite !Hloop. reflexivity.
  - destruct Hsim as (c & Hc & Hloop).
    destruct (Hf c Hc) as (f & f' & -> & ->). rewrite !Hloop, !ascend_root. reflexivity.
  - destruct Hsim as (c & Hc & Hloop).
    destruct (Hf c Hc) as (f & f' & -> & ->). rewrite !Hloop. reflexivity.
Qed.

(** X18: on a consistent pool of at most [2^30] bytes a request of at
    most [2^30] bytes is answered with a block or with NULL and leaves a
    consistent pool: the search reads and writes inside the tree bytes
    only, and it ends within [2^(level+2)] steps of its loops, so that more
    steps change nothing. *)
Theorem alloc_returns_within_fuel (p : buddy) (s : Z) :
  pool_ok p -> level p + min_level p <= 30 -> 0 <= s <= 2 ^ 30 ->
  (exists r p', buddy_alloc p s = Ok (r, p') /\ pool_ok p') /\
  forall fuel, (alloc_fuel p <= fuel)%nat ->
    alloc_loop fuel (alloc_size p s) (min_level p) (level p) (tree p)
      AtHead 0 0 (Z.shiftl 1 (level p))
    = alloc_loop (alloc_fuel p) (alloc_size p s) (min_level p) (level p) (tree p)
        AtHead 0 0 (Z.shiftl 1 (level p)).
Proof.
  intros Hok Hsmall Hs. pose proof Hok as ([Hm0 Hm31] & Hl & _). split.
  - destruct (buddy_alloc_returns p s Hok ltac:(lia) Hs) as (r & p' & E).
    exists r, p'. split; [exact E|]. exact (buddy_alloc_ok _ _ _ _ Hok E).
  - intros fuel Hfuel. rewrite Z.shiftl_1_l. apply alloc_loop_enough; assumption.
Qed.

Lemma alloc_returns_within_fuel_witness :
  (exists r p', buddy_alloc pool_7_4_b 48 = Ok (r, p') /\ pool_ok p') /\
  forall fuel, (alloc_fuel pool_7_4_b <= fuel)%nat ->
    alloc_loop fuel (alloc_size pool_7_4_b 48) (min_level pool_7_4_b)
      (level pool_7_4_b) (tree pool_7_4_b) AtHead 0 0 (Z.shiftl 1 (level pool_7_4_b))
    = alloc_loop (alloc_fuel pool_7_4_b) (alloc_size pool_7_4_b 48)
        (min_level pool_7_4_b) (level pool_7_4_b) (tree pool_7_4_b)
        AtHead 0 0 (Z.shiftl 1 (level pool_7_4_b)).
Proof.
  apply (alloc_returns_within_fuel pool_7_4_b 48).
  - exact pool_7_4_b_ok.
  - cbn. lia.
  - lia.
Defined.

(** ** Exhaustion *)

Lemma total_to_bytes (m : Z) (L : list (Z * Z)) :
  0 <= m -> total (map (to_bytes m) L) = total L * 2 ^ m.
Proof.
  intros Hm. induction L as [|b L IH].
  - change (total (map (to_bytes m) [])) with 0. change (total []) with 0. lia.
  - cbn [map]. rewrite !total_cons, IH, to_bytes_mul by lia. cbn [snd]. ring.
Qed.

(** The allocated bytes of a consistent pool against its size. *)
Lemma pool_total (p : buddy) :
  pool_ok p ->
  0 <= total (pool_live p) <= 2 ^ (level p + min_level p) /\
  (is_full (pool_shape p) = true <->
   total (pool_live p) = 2 ^ (level p + min_level p)).
Proof.
  intros ([Hm0 Hm31] & Hl & Hlen & Hwf).
  pose proof (pow2_pos (min_level p) Hm0) as Hpm.
  destruct (live_total (pool_shape p) (depth p) 0 Hwf) as (Rt & Ft).
  rewrite depth_level in * by lia.
  unfold pool_live. rewrite total_to_bytes, Z.pow_add_r by lia.
  split; [nia|]. rewrite Ft. nia.
Qed.

(** A request of one byte on a consistent pool: NULL when the root is USED
    or FULL, a block otherwise. *)
Lemma alloc_unit (p : buddy) :
  pool_ok p -> level p + min_level p <= 30 ->
  if is_full (pool_shape p) then buddy_alloc p 1 = Ok (None, p)
  else exists off p', buddy_alloc p 1 = Ok (Some off, p').
Proof.
  intros Hok Hm. pose proof Hok as ([Hm0 Hm31] & Hl & Hlen & Hwf).
  destruct (buddy_alloc_view p 1 Hok Hm ltac:(lia)) as (j & _ & Ej & _ & Hcase).
  assert (j = O).
  { change (Z.log2_up 1) with 0 in Ej. lia. }
  subst j. change (2 ^ Z.of_nat 0) with 1 in Hcase.
  destruct (is_full (pool_shape p)) eqn:Hfull.
  - pose proof (alloc_sh_full_none (depth p) 1 0 (pool_shape p) Hfull) as En.
    destruct Hcase as [[_ E]|(_ & [[_ E]|(sh' & off & t1 & E & _)])];
      [exact E | exact E | congruence].
  - destruct (alloc_sh_unit (depth p) 0 (pool_shape p) Hwf Hfull) as (sh' & off & Es).
    destruct Hcase as [[Hc _]|(_ & [[E _]|(sh2 & off2 & t1 & _ & Hres & _)])];
      [cbn in Hc; lia | congruence | eauto].
Qed.

(** X19: the allocated blocks of a consistent pool never add up to more
    than the pool, and a request of one byte fails exactly when they add
    up to the whole pool: no unit is lost while any is free. *)
Theorem alloc_fails_iff_pool_full (p : buddy) :
  pool_ok p -> level p + min_level p <= 30 ->
  0 <= total (pool_live p) <= 2 ^ (level p + min_level p) /\
  (buddy_alloc p 1 = Ok (None, p) <->
   total (pool_live p) = 2 ^ (level p + min_level p)).
Proof.
  intros Hok Hsmall. pose proof Hok as ([Hm0 Hm31] & Hl & _).
  destruct (pool_total p Hok) as (Rt & Ft).
  pose proof (alloc_unit p Hok ltac:(lia)) as Hu.
  split; [exact Rt|]. rewrite <- Ft.
  destruct (is_full (pool_shape p)).
  - split; [reflexivity | intros _; exact Hu].
  - destruct Hu as (off & p' & E). split; [congruence | discriminate].
Qed.

Lemma alloc_fails_iff_pool_full_witness :
  0 <= total (pool_live pool_7_4_b)
    <= 2 ^ (level pool_7_4_b + min_level pool_7_4_b) /\
  (buddy_alloc pool_7_4_b 1 = Ok (None, pool_7_4_b) <->
   total (pool_live pool_7_4_b) = 2 ^ (level pool_7_4_b + min_level pool_7_4_b)).
Proof.
  apply (alloc_fails_iff_pool_full pool_7_4_b).
  - exact pool_7_4_b_ok.
  - cbn. lia.
Defined.

(** ** Allocation and release together *)

(** X20: releasing the block that an allocation just returned undoes the
    allocation: the pool has the blocks it had before, it denotes the same
    tree, and every node of that tree has its old status. *)
Theorem alloc_then_free_restores (p p' : buddy) (s off : Z) :
  pool_ok p -> level p + min_level p <= 30 ->
  buddy_alloc p s = Ok (Some off, p') ->
  exists p'',
    buddy_free p' off = Ok p'' /\
    pool_shape p'' = pool_shape p /\ pool_live p'' = pool_live p /\
    forall i, visible (depth p) (tree p) 0 i ->
      status_of (tree p'') i = status_of (tree p) i.
Proof.
  intros Hok Hsmall H.
  destruct (buddy_alloc_some p p' s off Hok Hsmall H) as (Hok' & Em & El & P).
  assert (Hin : In (off, Z.shiftl (alloc_size p s) (min_level p)) (pool_live p')).
  { eapply Permutation_in; [symmetry; exact P|]. left. reflexivity. }
  destruct (buddy_free_block p' off _ Hok' Hin) as (p'' & Hf & Hok'' & Em' & El' & P').
  exists p''. split; [exact Hf|].
  apply pool_same_blocks; [exact Hok | exact Hok'' | congruence | congruence |].
  rewrite P in P'. apply Permutation_cons_inv in P'. exact P'.
Qed.

Lemma alloc_then_free_restores_witness :
  exists p'',
    buddy_free pool_7_4_b 32 = Ok p'' /\
    pool_shape p'' = pool_shape pool_7_4_a /\ pool_live p'' = pool_live pool_7_4_a /\
    forall i, visible (depth pool_7_4_a) (tree pool_7_4_a) 0 i ->
      status_of (tree p'') i = status_of (tree pool_7_4_a) i.
Proof.
  apply (alloc_then_free_restores pool_7_4_a pool_7_4_b 16 32).
  - exact pool_7_4_a_ok.
  - cbn. lia.
  - vm_compute. reflexivity.
Defined.

(** X21: a released block can be allocated again at once: after
    [buddy_free] of an allocated block, a request for the size of that
    block succeeds, at the offset of the block or below. *)
Theorem freed_block_is_reused (p p' : buddy) (off sz : Z) :
  pool_ok p -> level p + min_level p <= 30 ->
  In (off, sz) (pool_live p) -> buddy_free p off = Ok p' ->
  exists off' p'', buddy_alloc p' sz = Ok (Some off', p'') /\ off' <= off.
Proof.
  intros Hok Hsmall Hin Hf. pose proof Hok as ([Hm0 Hm31] & Hl & _).
  destruct (buddy_free_block p off sz Hok Hin) as (q & Hf' & Hok' & Em & El & P).
  rewrite Hf in Hf'. injection Hf' as <-.
  destruct (pool_live_block p off sz Hok Hin) as (H0 & Hd & He & k & Hk & Esz).
  assert (Hsz : 0 <= sz <= 2 ^ 30).
  { rewrite Esz. split; [apply Z.pow_nonneg; lia|]. apply Z.pow_le_mono_r; lia. }
  assert (Eb : block_size p' sz = sz).
  { destruct (block_size_rounds p' sz ltac:(lia) Hsz) as (-> & _).
    rewrite Esz, Z.log2_up_pow2 by lia. rewrite Em.
    assert (2 ^ min_level p <= 2 ^ k) by (apply Z.pow_le_mono_r; lia). lia. }
  apply (buddy_alloc_fit p' sz off Hok' ltac:(lia) Hsz H0); rewrite Eb.
  - exact Hd.
  - rewrite Em, El. exact He.
  - intros b Hb.
    assert (Hb' : In b (pool_live p)).
    { eapply Permutation_in; [symmetry; exact P|]. right. exact Hb. }
    assert (Hne : (off, sz) <> b).
    { intros <-. pose proof (pool_live_offsets_nodup p Hok) as N.
      apply (Permutation_map fst) in P. cbn [map fst] in P.
      apply (Permutation_NoDup P) in N. apply NoDup_cons_iff in N.
      destruct N as [N _]. apply N. apply (in_map fst) in Hb. exact Hb. }
    destruct (pool_live_disjoint p _ _ Hok Hin Hb' Hne) as [D|D];
      cbn [fst snd] in D; [right | left]; lia.
Qed.

Lemma freed_block_is_reused_witness :
  In (16, 16) (pool_live pool_7_4_b) /\
  exists off' p'', buddy_alloc (mkBuddy 4 3 false [138; 66; 4; 0]) 16
                   = Ok (Some off', p'') /\ off' <= 16.
Proof.
  assert (Hin : In (16, 16) (pool_live pool_7_4_b)) by (vm_compute; auto).
  split; [exact Hin|].
  apply (freed_block_is_reused pool_7_4_b (mkBuddy 4 3 false [138; 66; 4; 0]) 16 16).
  - exact pool_7_4_b_ok.
  - cbn. lia.
  - exact Hin.
  - vm_compute. reflexivity.
Defined.

(** X22: a second [buddy_free] of the same pointer, with no allocation in
    between, fails an assertion. *)
Theorem free_twice_aborts (p p' : buddy) (ptr : Z) :
  pool_ok p -> level p + min_level p <= 30 ->
  buddy_free p ptr = Ok p' -> buddy_free p' ptr = Abort.
Proof.
  intros Hok _ H.
  destruct (buddy_free_ok p p' ptr Hok H) as (Hok' & Em & El & sz & P).
  destruct (buddy_free_returns p' ptr Hok') as [(p'' & H')|Ha]; [exfalso | exact Ha].
  destruct (buddy_free_ok p' p'' ptr Hok' H') as (_ & _ & _ & sz' & P').
  rewrite Em in P'. rewrite P' in P.
  pose proof (pool_live_offsets_nodup p Hok) as N.
  apply (Permutation_map fst) in P. cbn [map] in P.
  apply (Permutation_NoDup P) in N. apply NoDup_cons_iff in N.
  destruct N as [N _]. apply N. left. unfold to_bytes. reflexivity.
Qed.

Lemma free_twice_aborts_witness :
  buddy_free pool_7_4_b 32 = Ok (mkBuddy 4 3 false [202; 64; 5; 0]) /\
  buddy_free (mkBuddy 4 3 false [202; 64; 5; 0]) 32 = Abort.
Proof.
  split; [vm_compute; reflexivity|].
  apply (free_twice_aborts pool_7_4_b (mkBuddy 4 3 false [202; 64; 5; 0]) 32).
  - exact pool_7_4_b_ok.
  - cbn. lia.
  - vm_compute. reflexivity.
Defined.

(** X23: two allocated blocks can be released in either order: both
    orders pass the assertions and leave pools with the same blocks, which
    denote the same tree with the same statuses. *)
Theorem frees_commute (p : buddy) (a sa b sb : Z) :
  pool_ok p -> level p + min_level p <= 30 ->
  In (a, sa) (pool_live p) -> In (b, sb) (pool_live p) -> a <> b ->
  exists pa pab pb pba,
    buddy_free p a = Ok pa /\ buddy_free pa b = Ok pab /\
    buddy_free p b = Ok pb /\ buddy_free pb a = Ok pba /\
    pool_shape pba = pool_shape pab /\ pool_live pba = pool_live pab /\
    forall i, visible (depth pab) (tree pab) 0 i ->
      status_of (tree pba) i = status_of (tree pab) i.
Proof.
  intros Hok _ Ha Hb Hne.
  assert (Hrest : forall x sx y sy q,
            In (y, sy) (pool_live p) -> x <> y ->
            Permutation (pool_live p) ((x, sx) :: pool_live q) ->
            In (y, sy) (pool_live q)).
  { intros x sx y sy q Hy Hxy P.
    apply (Permutation_in _ P) in Hy. destruct Hy as [E|Hy]; [congruence | exact Hy]. }
  destruct (buddy_free_block p a sa Hok Ha) as (pa & Fa & Oka & Ema & Ela & Pa).
  destruct (buddy_free_block pa b sb Oka (Hrest _ _ _ _ _ Hb Hne Pa))
    as (pab & Fab & Okab & Emab & Elab & Pab).
  destruct (buddy_free_block p b sb Hok Hb) as (pb & Fb & Okb & Emb & Elb & Pb).
  destruct (buddy_free_block pb a sa Okb (Hrest _ _ _ _ _ Ha (not_eq_sym Hne) Pb))
    as (pba & Fba & Okba & Emba & Elba & Pba).
  exists pa, pab, pb, pba. do 4 (split; [assumption|]).
  apply pool_same_blocks; [exact Okab | exact Okba | congruence | congruence |].
  rewrite Pab in Pa. rewrite Pba in Pb. rewrite Pa in Pb.
  apply (Permutation_cons_inv (a := (b, sb))).
  apply (Permutation_cons_inv (a := (a, sa))).
  rewrite Pb. apply perm_swap.
Qed.

Lemma frees_commute_witness :
  exists pa pab pb pba,
    buddy_free pool_7_4_b 16 = Ok pa /\ buddy_free pa 32 = Ok pab /\
    buddy_free pool_7_4_b 32 = Ok pb /\ buddy_free pb 16 = Ok pba /\
    pool_shape pba = pool_shape pab /\ pool_live pba = pool_live pab /\
    forall i, visible (depth pab) (tree pab) 0 i ->
      status_of (tree pba) i = status_of (tree pab) i.
Proof.
  apply (frees_commute pool_7_4_b 16 16 32 16).
  - exact pool_7_4_b_ok.
  - cbn. lia.
  - vm_compute. auto.
  - vm_compute. auto.
  - lia.
Defined.

(** ** Construction *)

(** The zeroed control block that [buddy_from_buffer] hands to
    [buddy_alloc]. *)
Lemma blank_pool_ok (min_lvl L : Z) (dtor : bool) :
  0 <= min_lvl <= 31 -> 2 <= L <= 30 ->
  pool_ok (mkBuddy min_lvl L dtor (replicate (Z.to_nat (Z.shiftl 1 (L - 1))) 0)) /\
  pool_live (mkBuddy min_lvl L dtor (replicate (Z.to_nat (Z.shiftl 1 (L - 1))) 0)) = [].
Proof.
  intros Hm HL. unfold pool_ok, pool_live, pool_shape. cbn [min_level level tree].
  rewrite shape_at_free by apply status_of_zeroes.
  split; [|reflexivity].
  split; [lia|]. split; [lia|]. split; [|reflexivity].
  rewrite length_replicate, Z.shiftl_1_l.
  pose proof (pow2_pos (L - 1) ltac:(lia)). rewrite Z2Nat.id by lia.
  replace (L + 1) with (2 + (L - 1)) by lia. rewrite Z.pow_add_r by lia. lia.
Qed.

(** The pool that [buddy_from_buffer] builds from valid parameters. *)
Lemma from_buffer_fresh (lvl min_lvl : Z) (dtor : bool) :
  4 <= min_lvl -> min_lvl + 2 <= lvl <= 30 ->
  exists p,
    buddy_from_buffer lvl min_lvl dtor = Ok (Some p) /\
    min_level p = min_lvl /\ level p = lvl - min_lvl /\ destructor p = dtor /\
    Z.of_nat (length (tree p)) = 2 ^ (lvl - min_lvl - 1) /\
    pool_ok p /\
    pool_live p = [(0, Z.max (2 ^ min_lvl) (2 ^ (lvl - min_lvl - 1)))].
Proof.
  intros Hm Hl. unfold buddy_from_buffer.
  rewrite (Z.mod_small (lvl - min_lvl)) by lia.
  set (L := lvl - min_lvl) in *.
  destruct (Z.ltb_spec L 2) as [|_]; [lia|].
  destruct (Z.ltb_spec min_lvl 4) as [|_]; [lia|]. cbn [orb].
  destruct (Z.ltb_spec 30 (L - 1)) as [|_]; [lia|].
  destruct (blank_pool_ok min_lvl L dtor ltac:(lia) ltac:(lia)) as (Hok & Hlive).
  set (self := mkBuddy min_lvl L dtor (replicate (Z.to_nat (Z.shiftl 1 (L - 1))) 0)) in *.
  rewrite Z.shiftl_1_l in *.
  pose proof (pow2_pos (L - 1) ltac:(lia)) as HpL.
  pose proof (pow2_pos min_lvl ltac:(lia)) as Hpm.
  assert (Hs : 0 <= 2 ^ (L - 1) <= 2 ^ 30).
  { split; [lia|]. apply Z.pow_le_mono_r; lia. }
  destruct (block_size_rounds self (2 ^ (L - 1)) ltac:(cbn; lia) Hs) as (Eb & _ & _).
  rewrite Z.log2_up_pow2 in Eb by lia. cbn [min_level self] in Eb.
  assert (Hb : block_size self (2 ^ (L - 1)) <= 2 ^ (L + min_lvl)).
  { rewrite Eb.
    assert (2 ^ min_lvl <= 2 ^ (L + min_lvl)) by (apply Z.pow_le_mono_r; lia).
    assert (2 ^ (L - 1) <= 2 ^ (L + min_lvl)) by (apply Z.pow_le_mono_r; lia). lia. }
  destruct (buddy_alloc_fit self (2 ^ (L - 1)) 0 Hok ltac:(cbn; lia) Hs ltac:(lia))
    as (off & p & E & Hoff).
  { apply Z.divide_0_r. }
  { cbn [level min_level self]. lia. }
  { rewrite Hlive. intros b []. }
  destruct (buddy_alloc_block self p _ off Hok ltac:(cbn; lia) Hs E) as (H0 & _).
  assert (off = 0) by lia. subst off.
  destruct (buddy_alloc_some self p _ 0 Hok ltac:(cbn; lia) E) as (Hok' & Em & El & P).
  destruct (buddy_alloc_fields self p _ _ Hok E) as (_ & _ & Ed & Elen).
  exists p. rewrite E. cbn [bind snd]. split; [reflexivity|].
  split; [exact Em|]. split; [exact El|]. split; [exact Ed|]. split.
  - rewrite Elen. cbn [tree self]. rewrite length_replicate, ?Z.shiftl_1_l.
    rewrite Z2Nat.id by lia. reflexivity.
  - split; [exact Hok'|]. rewrite Hlive in P. fold (block_size self (2 ^ (L - 1))) in P.
    symmetry in P. apply Permutation_length_1_inv in P. rewrite P, Eb. reflexivity.
Qed.

(** X10: for [min_level >= 4] and [min_level + 2 <= level <= 30],
    [buddy_from_buffer] returns a pool with the given fields, a zeroed tree
    of [2^(level - min_level - 1)] bytes in which the only allocated block
    is the one at offset 0 that holds the tree: the larger of a minimum
    block and the size of the tree. *)
Theorem from_buffer_builds (lvl min_lvl : Z) (dtor : bool) :
  4 <= min_lvl -> min_lvl + 2 <= lvl <= 30 ->
  exists p,
    buddy_from_buffer lvl min_lvl dtor = Ok (Some p) /\
    min_level p = min_lvl /\ level p = lvl - min_lvl /\ destructor p = dtor /\
    Z.of_nat (length (tree p)) = 2 ^ (lvl - min_lvl - 1) /\
    pool_ok p /\
    pool_live p = [(0, Z.max (2 ^ min_lvl) (2 ^ (lvl - min_lvl - 1)))] /\
    Z.of_nat (length (tree p)) <= Z.max (2 ^ min_lvl) (2 ^ (lvl - min_lvl - 1)).
Proof.
  intros Hm Hl.
  destruct (from_buffer_fresh lvl min_lvl dtor Hm Hl)
    as (p & E & Em & El & Ed & Elen & Hok & Hlive).
  exists p. repeat (split; [assumption|]). rewrite Elen. lia.
Qed.

Lemma from_buffer_builds_witness :
  exists p,
    buddy_from_buffer 12 5 true = Ok (Some p) /\
    min_level p = 5 /\ level p = 12 - 5 /\ destructor p = true /\
    Z.of_nat (length (tree p)) = 2 ^ (12 - 5 - 1) /\
    pool_ok p /\
    pool_live p = [(0, Z.max (2 ^ 5) (2 ^ (12 - 5 - 1)))] /\
    Z.of_nat (length (tree p)) <= Z.max (2 ^ 5) (2 ^ (12 - 5 - 1)).
Proof. apply (from_buffer_builds 12 5 true); lia. Defined.

(** X11: for [0 <= min_level <= level <= 30], [buddy_from_buffer] returns
    NULL exactly when the tree would have fewer than three levels
    ([level - min_level < 2]) or the minimum block is below 16 bytes
    ([min_level < 4]). *)
Theorem from_buffer_null_exactly (lvl min_lvl : Z) (dtor : bool) :
  0 <= min_lvl <= lvl -> lvl <= 30 ->
  (buddy_from_buffer lvl min_lvl dtor = Ok None <-> lvl - min_lvl < 2 \/ min_lvl < 4).
Proof.
  intros H1 H2. apply from_buffer_null_iff; [exact H1 | lia].
Qed.

Lemma from_buffer_null_exactly_witness :
  buddy_from_buffer 5 4 false = Ok None <-> 5 - 4 < 2 \/ 4 < 4.
Proof. apply (from_buffer_null_exactly 5 4 false); lia. Defined.

(** ** The life of a pool *)

Lemma calls_fields (p0 p : buddy) :
  pool_ok p0 -> calls p0 p ->
  pool_ok p /\ min_level p = min_level p0 /\ level p = level p0 /\
  destructor p = destructor p0 /\ length (tree p) = length (tree p0).
Proof.
  intros Hok H. induction H as [|p s r p' _ IH E|p ptr p' _ IH E].
  - auto.
  - destruct IH as (Hp & E1 & E2 & E3 & E4).
    destruct (buddy_alloc_fields p p' s r Hp E) as (F1 & F2 & F3 & F4).
    split; [exact (buddy_alloc_ok _ _ _ _ Hp E)|]. repeat split; congruence.
  - destruct IH as (Hp & E1 & E2 & E3 & E4).
    destruct (buddy_free_fields p p' ptr Hp E) as (F1 & F2 & F3 & F4).
    split; [exact (proj1 (buddy_free_ok _ _ _ Hp E))|]. repeat split; congruence.
Qed.

(** No call of [buddy_alloc] changes the destructor. *)
Lemma buddy_alloc_destructor (self p' : buddy) (s : Z) (r : option Z) :
  buddy_alloc self s = Ok (r, p') -> destructor p' = destructor self.
Proof.
  unfold buddy_alloc. destruct (negb _); [discriminate|].
  destruct (_ <? _); [intros [= _ <-]; reflexivity|].
  destruct (alloc_loop _ _ _ _ _ _ _ _ _) as [[r' t']| | |]; cbn [bind];
    try discriminate.
  intros [= _ <-]. reflexivity.
Qed.

Lemma from_buffer_destructor (lvl min_lvl : Z) (dtor : bool) (p : buddy) :
  buddy_from_buffer lvl min_lvl dtor = Ok (Some p) -> destructor p = dtor.
Proof.
  unfold buddy_from_buffer.
  destruct (_ || _); [discriminate|]. destruct (30 <? _); [discriminate|].
  destruct (buddy_alloc _ _) as [[r p']| | |] eqn:E; cbn [bind]; try discriminate.
  intros [= <-]. apply buddy_alloc_destructor in E. exact E.
Qed.

(** X12: [buddy_new] returns NULL when [malloc] fails; the pool it returns
    otherwise keeps its fields and the size of its tree through every
    allocation and release, and [buddy_destroy] then calls the destructor
    ([free]) on it. *)
Theorem new_then_destroy (lvl min_lvl : Z) (p0 p : buddy) :
  0 <= min_lvl <= lvl ->
  buddy_new lvl min_lvl true = Ok (Some p0) -> calls p0 p ->
  buddy_new lvl min_lvl false = Ok None /\
  buddy_destroy p = true /\
  min_level p = min_lvl /\ level p = lvl - min_lvl /\
  length (tree p) = length (tree p0) /\ pool_ok p.
Proof.
  intros Hl Hnew Hcalls.
  assert (H31 : lvl <= 31).
  { unfold buddy_new in Hnew. destruct (Z.ltb_spec 31 lvl); [discriminate | lia]. }
  pose proof (buddy_new_from_buffer lvl min_lvl p0 Hnew) as Hfb.
  destruct (from_buffer_inv lvl min_lvl true p0 Hfb) as (Em & El & Hm & Hl2 & _ & H30).
  rewrite Z.mod_small in El by lia.
  destruct (H30 ltac:(lia)) as (Hok & _).
  pose proof (from_buffer_destructor _ _ _ _ Hfb) as Ed.
  destruct (calls_fields p0 p Hok Hcalls) as (Hp & E1 & E2 & E3 & E4).
  split.
  { unfold buddy_new. destruct (Z.ltb_spec 31 lvl); [lia | reflexivity]. }
  split; [unfold buddy_destroy; rewrite E3, Ed; reflexivity|].
  repeat split; first [congruence | apply Hp].
Qed.

Lemma new_then_destroy_witness :
  buddy_new 7 4 false = Ok None /\
  buddy_destroy (mkBuddy 4 3 true [202; 64; 1; 0]) = true /\
  min_level (mkBuddy 4 3 true [202; 64; 1; 0]) = 4 /\
  level (mkBuddy 4 3 true [202; 64; 1; 0]) = 7 - 4 /\
  length (tree (mkBuddy 4 3 true [202; 64; 1; 0]))
  = length (tree (mkBuddy 4 3 true [138; 64; 0; 0])) /\
  pool_ok (mkBuddy 4 3 true [202; 64; 1; 0]).
Proof.
  apply (new_then_destroy 7 4 (mkBuddy 4 3 true [138; 64; 0; 0])
           (mkBuddy 4 3 true [202; 64; 1; 0])).
  - lia.
  - vm_compute. reflexivity.
  - apply (calls_alloc _ _ 16 (Some 16) _ (calls_none _)). vm_compute. reflexivity.
Defined.

(** X24: a freshly built pool serves a request for half of the pool with
    its upper half, the block that ends [2^level] bytes after the start of
    the tree, and it answers a request for the whole pool with NULL. *)
Theorem fresh_pool_upper_half (lvl min_lvl : Z) (dtor : bool) (p : buddy) :
  4 <= min_lvl -> min_lvl + 2 <= lvl <= 30 ->
  buddy_from_buffer lvl min_lvl dtor = Ok (Some p) ->
  (exists p', buddy_alloc p (2 ^ (lvl - 1)) = Ok (Some (2 ^ (lvl - 1)), p')) /\
  buddy_alloc p (2 ^ lvl) = Ok (None, p).
Proof.
  intros Hm Hl Hfb.
  destruct (from_buffer_fresh lvl min_lvl dtor Hm Hl)
    as (q & E & Em & El & _ & _ & Hok & Hlive).
  rewrite Hfb in E. injection E as <-.
  set (R := Z.max (2 ^ min_lvl) (2 ^ (lvl - min_lvl - 1))) in *.
  pose proof (pow2_pos min_lvl ltac:(lia)) as Hpm.
  pose proof (pow2_pos (lvl - 1) ltac:(lia)) as Hph.
  assert (HR : 0 < R <= 2 ^ (lvl - 1)).
  { assert (2 ^ min_lvl <= 2 ^ (lvl - 1)) by (apply Z.pow_le_mono_r; lia).
    assert (2 ^ (lvl - min_lvl - 1) <= 2 ^ (lvl - 1)) by (apply Z.pow_le_mono_r; lia).
    unfold R. lia. }
  assert (Epool : 2 ^ (level p + min_level p) = 2 * 2 ^ (lvl - 1)).
  { rewrite Em, El. replace (lvl - min_lvl + min_lvl) with (1 + (lvl - 1)) by lia.
    rewrite Z.pow_add_r by lia. reflexivity. }
  assert (Hs1 : 0 <= 2 ^ (lvl - 1) <= 2 ^ 30).
  { split; [lia|]. apply Z.pow_le_mono_r; lia. }
  assert (Hs2 : 0 <= 2 ^ lvl <= 2 ^ 30).
  { split; [apply Z.pow_nonneg; lia|]. apply Z.pow_le_mono_r; lia. }
  assert (Eb1 : block_size p (2 ^ (lvl - 1)) = 2 ^ (lvl - 1)).
  { destruct (block_size_rounds p _ ltac:(lia) Hs1) as (-> & _).
    rewrite Z.log2_up_pow2, Em by lia.
    assert (2 ^ min_lvl <= 2 ^ (lvl - 1)) by (apply Z.pow_le_mono_r; lia). lia. }
  assert (Eb2 : block_size p (2 ^ lvl) = 2 * 2 ^ (lvl - 1)).
  { destruct (block_size_rounds p _ ltac:(lia) Hs2) as (-> & _).
    rewrite Z.log2_up_pow2, Em by lia.
    assert (E2 : 2 ^ lvl = 2 * 2 ^ (lvl - 1)).
    { replace lvl with (1 + (lvl - 1)) at 1 by lia. rewrite Z.pow_add_r by lia.
      reflexivity. }
    assert (2 ^ min_lvl <= 2 ^ (lvl - 1)) by (apply Z.pow_le_mono_r; lia). lia. }
  split.
  - destruct (buddy_alloc_fit p (2 ^ (lvl - 1)) (2 ^ (lvl - 1)) Hok ltac:(lia) Hs1
                ltac:(lia)) as (off & p' & E & Hoff).
    + rewrite Eb1. apply Z.divide_refl.
    + rewrite Eb1, Epool. lia.
    + rewrite Eb1, Hlive. intros b [<-|[]]. cbn [fst snd]. lia.
    + destruct (buddy_alloc_block p p' _ off Hok ltac:(lia) Hs1 E)
        as (H0 & [c Hc] & _ & Hf).
      rewrite Eb1 in *. rewrite Hlive in Hf.
      destruct (Hf (0, R) ltac:(left; reflexivity)) as [D|D]; cbn [fst snd] in D; [|lia].
      assert (Hc1 : c = 1) by nia.
      assert (Eo : off = 2 ^ (lvl - 1)) by (rewrite Hc, Hc1; lia).
      rewrite Eo in E. exists p'. exact E.
  - destruct (buddy_alloc_returns p (2 ^ lvl) Hok ltac:(lia) Hs2) as ([off|] & p' & E).
    + exfalso.
      destruct (buddy_alloc_block p p' _ off Hok ltac:(lia) Hs2 E) as (H0 & _ & He & Hf).
      rewrite Eb2, Epool in *. rewrite Hlive in Hf.
      destruct (Hf (0, R) ltac:(left; reflexivity)) as [D|D]; cbn [fst snd] in D; lia.
    + rewrite E. apply buddy_alloc_none in E. congruence.
Qed.

Lemma fresh_pool_upper_half_witness :
  (exists p', buddy_alloc pool_7_4 (2 ^ (7 - 1)) = Ok (Some (2 ^ (7 - 1)), p')) /\
  buddy_alloc pool_7_4 (2 ^ 7) = Ok (None, pool_7_4).
Proof.
  apply (fresh_pool_upper_half 7 4 false pool_7_4); [lia | lia |].
  vm_compute. reflexivity.
Defined.

(** ** The invariant on the statuses *)

Lemma taken_eqb (st : Z) :
  (st =? NODE_USED) || (st =? NODE_FULL) = true <-> taken st.
Proof.
  unfold taken. rewrite orb_true_iff, !Z.eqb_eq. reflexivity.
Qed.

Lemma wf_visible (d : nat) :
  forall (t : list Z) (root lvl i : Z),
    0 <= lvl -> 2 ^ lvl <= root + 1 < 2 ^ (lvl + 1) ->
    wf_shape d (shape_at d t root) = true ->
    visible d t root i ->
    status_of t i = NODE_SPLIT \/ status_of t i = NODE_FULL ->
    node_ok t i /\ 0 <= i /\ i * 2 + 2 + 1 < 2 ^ (lvl + Z.of_nat d + 1).
Proof.
  induction d as [|d IH]; intros t root lvl i Hl Hr Hwf Hv Hst.
  - exfalso. destruct Hv as [->|[]].
    pose proof (shape_at_inv O t root) as Hi.
    destruct (shape_at O t root) as [| |f l r]; [| |discriminate];
      unfold NODE_UNUSED, NODE_USED, NODE_SPLIT, NODE_FULL in *; lia.
  - assert (Hsplit : forall j, status_of t j = NODE_SPLIT \/ status_of t j = NODE_FULL ->
              shape_at (S d) t j
              = Split (status_of t j =? NODE_FULL)
                  (shape_at d t (j * 2 + 1)) (shape_at d t (j * 2 + 2))).
    { intros j [E|E]; [rewrite shape_at_split | rewrite shape_at_full]; try exact E;
        rewrite E; reflexivity. }
    pose proof (pow2_pos lvl Hl) as Hp.
    assert (E1 : 2 ^ (lvl + 1) = 2 * 2 ^ lvl).
    { rewrite Z.pow_add_r by lia. change (2 ^ 1) with 2. lia. }
    assert (E2 : 2 ^ (lvl + 1 + 1) = 2 * 2 ^ (lvl + 1)).
    { rewrite (Z.pow_add_r 2 (lvl + 1) 1) by lia. change (2 ^ 1) with 2. lia. }
    destruct Hv as [->|(Hroot & Hv)].
    + rewrite (Hsplit root Hst) in Hwf. apply wf_split_inv in Hwf.
      destruct Hwf as (Ef & Hnf & _ & _).
      rewrite !is_full_status in Ef. rewrite !is_free_status in Hnf.
      split; [split|].
      * rewrite <- !taken_eqb, <- andb_true_iff, <- Ef. symmetry. apply Z.eqb_eq.
      * intros [U1 U2]. rewrite U1, U2 in Hnf. discriminate.
      * split; [lia|].
        assert (2 ^ (lvl + 1 + 1) <= 2 ^ (lvl + Z.of_nat (S d) + 1))
          by (apply Z.pow_le_mono_r; lia).
        lia.
    + rewrite (Hsplit root Hroot) in Hwf. apply wf_split_inv in Hwf.
      destruct Hwf as (_ & _ & Wl & Wr).
      replace (lvl + Z.of_nat (S d) + 1) with (lvl + 1 + Z.of_nat d + 1) by lia.
      destruct Hv as [Hv|Hv].
      * apply (IH t (root * 2 + 1) (lvl + 1) i); try assumption; lia.
      * apply (IH t (root * 2 + 2) (lvl + 1) i); try assumption; lia.
Qed.

(** X25: in every pool reached by calls that return, every SPLIT or FULL
    node that is part of the tree has both children inside the tree, is
    FULL exactly when both children are USED or FULL, and never has two
    UNUSED children: free buddies are always merged. *)
Theorem tree_statuses_invariant (p : buddy) (i : Z) :
  reachable p -> visible (depth p) (tree p) 0 i ->
  status_of (tree p) i = NODE_SPLIT \/ status_of (tree p) i = NODE_FULL ->
  node_ok (tree p) i /\ in_tree (tree p) (i * 2 + 1) /\ in_tree (tree p) (i * 2 + 2).
Proof.
  intros Hr Hv Hst.
  destruct (reachable_inv p Hr) as [(Hm & Hl & Hlen & Hwf)|(_ & _ & Hroot)].
  2:{ exfalso.
      assert (Hs0 : status_of (tree p) 0 = NODE_SPLIT \/ status_of (tree p) 0 = NODE_FULL).
      { destruct (depth p); cbn [visible] in Hv.
        - destruct Hv as [->|[]]. exact Hst.
        - destruct Hv as [->|(Hs & _)]; assumption. }
      rewrite Hroot in Hs0. destruct Hs0; discriminate. }
  destruct (wf_visible (depth p) (tree p) 0 0 i ltac:(lia) ltac:(cbn; lia) Hwf Hv Hst)
    as (Hn & H0 & Hb).
  rewrite depth_level in Hb by lia. cbn [Z.add] in Hb.
  split; [exact Hn|]. unfold in_tree. rewrite Hlen.
  replace (0 + level p + 1) with (level p + 1) in Hb by lia. lia.
Qed.

Lemma tree_statuses_invariant_witness :
  node_ok (tree pool_7_4_b) 1 /\ in_tree (tree pool_7_4_b) (1 * 2 + 1) /\
  in_tree (tree pool_7_4_b) (1 * 2 + 2).
Proof.
  apply (tree_statuses_invariant pool_7_4_b 1).
  - exact reachable_pool_7_4_b.
  - right. split; [left; reflexivity|]. left. left. reflexivity.
  - left. reflexivity.
Defined.

(** ** The block that holds the tree *)

(** X26: [buddy_free] does not protect the block that holds the tree: on
    a freshly built pool, [buddy_free] of the start of the tree passes the
    assertions and leaves no allocated block, after which a request for
    the whole pool is served at offset 0, with the bytes of the tree
    itself. *)
Theorem reservation_can_be_released (lvl min_lvl : Z) (dtor : bool) (p : buddy) :
  4 <= min_lvl -> min_lvl + 2 <= lvl <= 30 ->
  buddy_from_buffer lvl min_lvl dtor = Ok (Some p) ->
  exists p' p'',
    buddy_free p 0 = Ok p' /\ pool_live p' = [] /\
    buddy_alloc p' (2 ^ lvl) = Ok (Some 0, p'').
Proof.
  intros Hm Hl Hfb.
  destruct (from_buffer_fresh lvl min_lvl dtor Hm Hl)
    as (q & E & Em & El & _ & _ & Hok & Hlive).
  rewrite Hfb in E. injection E as <-.
  destruct (buddy_free_block p 0 _ Hok ltac:(rewrite Hlive; left; reflexivity))
    as (p' & Hf & Hok' & Em' & El' & P).
  rewrite Hlive in P. apply Permutation_length_1_inv in P.
  assert (Hlive' : pool_live p' = []) by (destruct (pool_live p'); congruence).
  assert (Hs : 0 <= 2 ^ lvl <= 2 ^ 30).
  { split; [apply Z.pow_nonneg; lia|]. apply Z.pow_le_mono_r; lia. }
  assert (Eb : block_size p' (2 ^ lvl) = 2 ^ lvl).
  { destruct (block_size_rounds p' _ ltac:(lia) Hs) as (-> & _).
    rewrite Z.log2_up_pow2 by lia.
    assert (2 ^ min_level p' <= 2 ^ lvl) by (apply Z.pow_le_mono_r; lia). lia. }
  destruct (buddy_alloc_fit p' (2 ^ lvl) 0 Hok' ltac:(lia) Hs ltac:(lia))
    as (off & p'' & Ea & Hoff).
  - apply Z.divide_0_r.
  - rewrite Eb, Em', El', Em, El. replace (lvl - min_lvl + min_lvl) with lvl by lia. lia.
  - rewrite Hlive'. intros b [].
  - destruct (buddy_alloc_block p' p'' _ off Hok' ltac:(lia) Hs Ea) as (H0 & _).
    assert (off = 0) by lia. subst off. eauto.
Qed.

Lemma reservation_can_be_released_witness :
  exists p' p'',
    buddy_free pool_7_4 0 = Ok p' /\ pool_live p' = [] /\
    buddy_alloc p' (2 ^ 7) = Ok (Some 0, p'').
Proof.
  apply (reservation_can_be_released 7 4 false pool_7_4); [lia | lia |].
  vm_compute. reflexivity.
Defined.

(** ** Requests beyond 32 bits *)

(** X27: the request is cut to [uint32_t] before it is rounded: requests
    above the minimum block size that differ by a multiple of [2^32] are
    served alike, so that on a consistent pool of at most [2^30] bytes a
    request of [s + k * 2^32] bytes ([2^min_level < s <= 2^30], [k >= 1])
    that succeeds gets the block of a request of [s] bytes, smaller than
    the request. *)
Theorem alloc_request_truncated (p : buddy) (s k : Z) :
  pool_ok p -> level p + min_level p <= 30 ->
  2 ^ min_level p < s <= 2 ^ 30 -> 1 <= k ->
  buddy_alloc p (s + k * 2 ^ 32) = buddy_alloc p s /\
  forall off p',
    buddy_alloc p (s + k * 2 ^ 32) = Ok (Some off, p') ->
    Permutation (pool_live p') ((off, block_size p s) :: pool_live p) /\
    block_size p s < s + k * 2 ^ 32.
Proof.
  intros Hok Hsmall Hs Hk. pose proof Hok as ([Hm0 Hm31] & Hl & _).
  pose proof (pow2_pos (min_level p) Hm0) as Hpm.
  assert (Esz : alloc_size p (s + k * 2 ^ 32) = alloc_size p s).
  { unfold alloc_size. rewrite size_threshold by lia.
    destruct (Z.leb_spec (s + k * 2 ^ 32) (2 ^ min_level p)); [lia|].
    destruct (Z.leb_spec s (2 ^ min_level p)); [lia|].
    rewrite Z.mod_add by lia. reflexivity. }
  assert (Ea : buddy_alloc p (s + k * 2 ^ 32) = buddy_alloc p s).
  { unfold buddy_alloc. rewrite Esz. reflexivity. }
  split; [exact Ea|]. intros off p' H. rewrite Ea in H.
  destruct (buddy_alloc_some p p' s off Hok Hsmall H) as (_ & _ & _ & P).
  split; [exact P|].
  destruct (buddy_alloc_block p p' s off Hok ltac:(lia) ltac:(lia) H) as (H0 & _ & He & _).
  assert (2 ^ (level p + min_level p) <= 2 ^ 30) by (apply Z.pow_le_mono_r; lia).
  lia.
Qed.

Lemma alloc_request_truncated_witness :
  buddy_alloc pool_7_4 (17 + 1 * 2 ^ 32) = buddy_alloc pool_7_4 17 /\
  forall off p',
    buddy_alloc pool_7_4 (17 + 1 * 2 ^ 32) = Ok (Some off, p') ->
    Permutation (pool_live p') ((off, block_size pool_7_4 17) :: pool_live pool_7_4) /\
    block_size pool_7_4 17 < 17 + 1 * 2 ^ 32.
Proof.
  apply (alloc_request_truncated pool_7_4 17 1).
  - exact pool_7_4_ok.
  - cbn. lia.
  - cbn. lia.
  - lia.
Defined.

(** ** Filling a pool *)

Lemma total_perm (L1 L2 : list (Z * Z)) :
  Permutation L1 L2 -> total L1 = total L2.
Proof.
  induction 1 as [|b L1 L2 _ IH|a b L|L1 L2 L3 _ IH1 _ IH2].
  - reflexivity.
  - rewrite !total_cons, IH. reflexivity.
  - rewrite !total_cons. lia.
  - congruence.
Qed.

(** X28: a consistent pool can be filled to the last unit: when [n]
    minimum blocks are unallocated, [n] requests of one byte in a row all
    succeed, and the next one returns NULL. *)
Theorem pool_fills_completely (n : nat) (p : buddy) :
  pool_ok p -> level p + min_level p <= 30 ->
  total (pool_live p) + Z.of_nat n * 2 ^ min_level p = 2 ^ (level p + min_level p) ->
  exists offs p',
    alloc_all p (replicate n 1) = Some (offs, p') /\ length offs = n /\
    buddy_alloc p' 1 = Ok (None, p').
Proof.
  revert p. induction n as [|n IH]; intros p Hok Hsmall Ht.
  all: pose proof Hok as ([Hm0 Hm31] & Hl & _).
  all: pose proof (pow2_pos (min_level p) Hm0) as Hpm.
  all: destruct (pool_total p Hok) as (Rt & Ft).
  all: pose proof (alloc_unit p Hok ltac:(lia)) as Hu.
  - exists [], p. split; [reflexivity|]. split; [reflexivity|].
    destruct (is_full (pool_shape p)); [exact Hu|].
    assert (E : false = true) by (apply Ft; lia). discriminate E.
  - destruct (is_full (pool_shape p)).
    { assert (total (pool_live p) = 2 ^ (level p + min_level p)) by (apply Ft; reflexivity).
      nia. }
    destruct Hu as (off & p1 & E1).
    destruct (buddy_alloc_some p p1 1 off Hok ltac:(lia) E1) as (Hok1 & Em & El & P).
    rewrite alloc_size_small in P by lia. rewrite Z.shiftl_1_l in P.
    apply total_perm in P. rewrite total_cons in P. cbn [snd] in P.
    destruct (IH p1 Hok1 ltac:(lia)) as (offs & p' & Ha & Hlen & Hnull).
    { rewrite Em, El, P. lia. }
    exists (off :: offs), p'. cbn [replicate alloc_all]. rewrite E1, Ha.
    split; [reflexivity|]. split; [cbn [length]; lia | exact Hnull].
Qed.

Lemma pool_fills_completely_witness :
  exists offs p',
    alloc_all pool_7_4_b (replicate 5 1) = Some (offs, p') /\ length offs = 5%nat /\
    buddy_alloc p' 1 = Ok (None, p').
Proof.
  apply (pool_fills_completely 5 pool_7_4_b).
  - exact pool_7_4_b_ok.
  - cbn. lia.
  - vm_compute. reflexivity.
Defined.
